(** * scylla-gdb: a shallow embedding of the memory-forensics core

    The definitions below follow [scylla-gdb.py]: the histogram helper,
    the seastar span table ([spans], [span_checker]), the pointer
    classifier ([scylla_ptr.analyze]), the LSA object-descriptor decoder
    ([lsa_object_descriptor]), the heap-profile tree ([collapse_similar]),
    the fiber walker ([scylla_fiber]) and the object-graph builder
    ([scylla_generate_object_graph]).

    What gdb supplies (target memory, symbol lookup, type sizes) is taken
    as data of the model: memory is a function or a byte list, symbol
    resolution an oracle.  Python exceptions are results of type
    [outcome]; loops that the source does not bound carry fuel, and
    running out of fuel is the separate result [Diverge]. *)

From Stdlib Require Import ZArith Lia Bool String.
From stdpp Require Import gmap strings list fin_maps sorting.
From Equations Require Import Equations.

Set Warnings "-register-all".

#[local] Open Scope Z_scope.

(** ** Results of fallible Python code *)

Inductive exn : Type :=
| MemoryError (addr : Z)          (* gdb.MemoryError: unreadable address *)
| BadDescriptor (pos b : Z)       (* Exception('object descriptor ... does not start with 0x40') *)
| AttributeError                  (* attribute access on None *)
| TypeError                       (* subscripting None *)
| ZeroDivisionError
| KeyError
| AssertionError.

Inductive outcome (A : Type) : Type :=
| Ok (a : A)
| Raise (e : exn)
| Diverge.
Arguments Ok {A} a.
Arguments Raise {A} e.
Arguments Diverge {A}.

#[global] Instance outcome_ret : MRet outcome := fun A a => Ok a.

#[global] Instance outcome_bind : MBind outcome := fun A B k m =>
  match m with
  | Ok a => k a
  | Raise e => Raise e
  | Diverge => Diverge
  end.

(** ** histogram *)

Module Histogram.
Section histogram.
Context {K : Type} `{Countable K}.

(** Python dict objects live in a heap and are named by their identity:
    [self._counts = counts] stores a reference, not a copy. *)
Abbreviation loc := nat (only parsing).
Abbreviation heap := (gmap loc (gmap K Z)) (only parsing).

(** [counts = defaultdict(int)] in the signature of [__init__] is
    evaluated once, when the [def] statement runs; [default_counts] is
    the identity of that one object. *)
Definition default_counts : loc := 0%nat.

(** Heap right after the class body has been executed. *)
Definition initial_heap : heap := {[ default_counts := ∅ ]}.

Record histogram := mk_histogram {
  _counts : loc;
  _print_indicators : bool
}.

(** [histogram(counts, print_indicators)]; [None] stands for an omitted
    [counts] argument.  The formatter plays no part in counting. *)
Definition __init__ (counts : option loc) (print_indicators : bool) : histogram :=
  {| _counts := match counts with Some l => l | None => default_counts end;
     _print_indicators := print_indicators |}.

Definition deref (σ : heap) (l : loc) : gmap K Z := default ∅ (σ !! l).

(** [defaultdict.__getitem__]: a missing key is first inserted with
    [int() = 0]. *)
Definition defaultdict_getitem (d : gmap K Z) (item : K) : Z * gmap K Z :=
  match d !! item with
  | Some v => (v, d)
  | None => (0, <[item := 0]> d)
  end.

Definition __len__ (self : histogram) (σ : heap) : nat :=
  size (deref σ (_counts self)).

Definition __getitem__ (self : histogram) (item : K) (σ : heap) : Z * heap :=
  let '(v, d) := defaultdict_getitem (deref σ (_counts self)) item in
  (v, <[_counts self := d]> σ).

Definition __setitem__ (self : histogram) (item : K) (value : Z) (σ : heap) : heap :=
  <[_counts self := <[item := value]> (deref σ (_counts self))]> σ.

(** [self._counts[item] += 1] *)
Definition add (self : histogram) (item : K) (σ : heap) : heap :=
  let '(v, σ1) := __getitem__ self item σ in
  __setitem__ self item (v + 1) σ1.

End histogram.
End Histogram.

(** ** The seastar allocator's page array and the span table *)

Module Seastar.

(** [seastar::memory::page]; [span_size] is a [uint32_t], pointers are
    addresses with 0 for null. *)
Record page_t := mk_page {
  free : bool;
  offset_in_span : Z;
  span_size : nat;
  pool : Z;
  freelist : Z
}.

(** [seastar::memory::small_pool] *)
Record small_pool := mk_small_pool {
  _object_size : Z;
  _free : Z
}.

(** The thread-local [seastar::memory::cpu_mem]; [pages] is a C pointer,
    indexing it never fails by itself. *)
Record cpu_mem_t := mk_cpu_mem {
  memory : Z;
  nr_pages : nat;
  pages : nat -> page_t
}.

(** [class span] *)
Record span := mk_span {
  index : nat;
  start : Z;
  page : page_t
}.

Definition is_free (self : span) : bool := free (page self).

Definition is_small (self : span) : bool :=
  negb (is_free self) && negb (pool (page self) =? 0).

Definition is_large (self : span) : bool :=
  negb (is_free self) && (pool (page self) =? 0).

Definition size (self : span) : Z := Z.of_nat (span_size (page self)).

(** The [for idx in range(span_size)] loop of [used_span_size], over the
    page descriptors that follow the first page of the span. *)
Fixpoint used_pages (cm : cpu_mem_t) (first : nat) (pool_ptr : Z) (idxs : list nat) : Z :=
  match idxs with
  | [] => 0
  | idx :: rest =>
      let p := pages cm (first + idx) in
      if (pool p =? 0) || negb (pool p =? pool_ptr) || negb (offset_in_span p =? Z.of_nat idx)
      then 0
      else 1 + used_pages cm first pool_ptr rest
  end.

Definition used_span_size (cm : cpu_mem_t) (self : span) : Z :=
  if free (page self) then 0
  else if pool (page self) =? 0 then Z.of_nat (span_size (page self))
  else used_pages cm (index self) (pool (page self)) (seq 0 (span_size (page self))).

(** [spans()]: the generator's [while idx < nr_pages] loop, entered with
    [idx = 1].  The unused read of [last_page] is left out. *)
Equations? spans_from (cm : cpu_mem_t) (page_size : Z) (idx : nat) : list span
  by wf (nr_pages cm - idx)%nat lt :=
spans_from cm page_size idx with decide (idx < nr_pages cm)%nat := {
  | right _ => [];
  | left _ with span_size (pages cm idx) := {
    | O => spans_from cm page_size (S idx);
    | S n =>
        mk_span idx (memory cm + Z.of_nat idx * page_size) (pages cm idx)
        :: spans_from cm page_size (idx + S n) } }.
Proof. all: lia. Qed.

Definition spans (cm : cpu_mem_t) (page_size : Z) : list span :=
  spans_from cm page_size 1.

(** The page array with the descriptor of page 0 replaced. *)
Definition with_page0 (cm : cpu_mem_t) (p0 : page_t) : cpu_mem_t :=
  mk_cpu_mem (memory cm) (nr_pages cm)
    (fun i => match i with O => p0 | S _ => pages cm i end).

(** [bisect.bisect_right(a, x)] of the Python library: the insertion
    point after any entries equal to [x]. *)
Equations? bisect_loop (a : list Z) (x : Z) (lo hi : nat) : nat
  by wf (hi - lo)%nat lt :=
bisect_loop a x lo hi with decide (lo < hi)%nat := {
  | right _ => lo;
  | left _ with decide (x < a !!! ((lo + hi) / 2)%nat) := {
    | left _ => bisect_loop a x lo ((lo + hi) / 2)%nat;
    | right _ => bisect_loop a x (S ((lo + hi) / 2)%nat) hi } }.
Proof.
  all: change (Nat.divmod (lo + hi) 1 0 1).1 with ((lo + hi) / 2)%nat.
  all: pose proof (Nat.div_mod_eq (lo + hi) 2);
       pose proof (Nat.mod_upper_bound (lo + hi) 2); lia.
Qed.

Definition bisect_right (a : list Z) (x : Z) : nat :=
  bisect_loop a x 0 (length a).

(** [dict(pairs)]: a later pair replaces an earlier one with the same key. *)
Definition dict_of {V} (pairs : list (Z * V)) : gmap Z V :=
  foldl (fun m kv => <[kv.1 := kv.2]> m) ∅ pairs.

(** [class span_checker] *)
Record span_checker := mk_span_checker {
  _page_size : Z;
  _start_to_span : gmap Z span;
  _starts : list Z
}.

Definition span_checker_init (cm : cpu_mem_t) (page_size : Z) : span_checker :=
  let span_list := spans cm page_size in
  {| _page_size := page_size;
     _start_to_span := dict_of ((fun s => (start s, s)) <$> span_list);
     _starts := start <$> span_list |}.

Definition get_span (self : span_checker) (ptr : Z) : outcome (option span) :=
  let idx := bisect_right (_starts self) ptr in
  if decide (idx = 0%nat) then Ok None
  else
    let span_start := _starts self !!! (idx - 1)%nat in
    match _start_to_span self !! span_start with
    | None => Raise KeyError
    | Some s =>
        if decide (span_start + Z.of_nat (span_size (page s)) * _page_size self <= ptr)
        then Ok None
        else Ok (Some s)
    end.

End Seastar.

(** ** scylla ptr: the pointer classifier *)

Module ScyllaPtr.
Import Seastar.

(** A reactor thread with its thread-local allocator state.  [lsa_region]
    is the [_region] field of the LSA segment descriptor that
    [shard_segment_pool] holds for an address (0 when the segment is not
    owned by a region). *)
Record reactor_thread := mk_thread {
  num : nat;
  cpu_mem : cpu_mem_t;
  lsa_region : Z -> Z
}.

(** The inspected process: [read_ptr] dereferences a [void**], [None]
    being an unreadable address. *)
Record target := mk_target {
  page_size : Z;
  reactor_threads : list reactor_thread;
  small_pools : Z -> small_pool;
  read_ptr : Z -> option Z
}.

(** [class pointer_metadata]; an attribute holding Python's [None] is
    [None] here.  [_is_live] is the attribute that [mark_free] assigns. *)
Record pointer_metadata := mk_pointer_metadata {
  ptr : Z;
  thread : option reactor_thread;
  _is_containing_page_free : option bool;
  is_small : option bool;
  is_live : option bool;
  is_lsa : option bool;
  size : option Z;
  offset_in_object : Z;
  _is_live : option bool
}.

Definition _init_seastar_ptr (p : Z) (t : reactor_thread) : pointer_metadata :=
  {| ptr := p; thread := Some t; _is_containing_page_free := Some false;
     is_small := Some false; is_live := Some false; is_lsa := Some false;
     size := Some 0; offset_in_object := 0; _is_live := None |}.

Definition _init_generic_ptr (p : Z) (speculative_size : option Z) : pointer_metadata :=
  {| ptr := p; thread := None; _is_containing_page_free := None;
     is_small := None; is_live := None; is_lsa := None;
     size := speculative_size; offset_in_object := 0; _is_live := None |}.

Definition is_managed_by_seastar (self : pointer_metadata) : bool :=
  match thread self with Some _ => true | None => false end.

Definition mark_free (self : pointer_metadata) : pointer_metadata :=
  {| ptr := ptr self; thread := thread self;
     _is_containing_page_free := Some true;
     is_small := is_small self; is_live := is_live self; is_lsa := is_lsa self;
     size := size self; offset_in_object := offset_in_object self;
     _is_live := Some false |}.

Definition set_size (self : pointer_metadata) (v : Z) : pointer_metadata :=
  {| ptr := ptr self; thread := thread self;
     _is_containing_page_free := _is_containing_page_free self;
     is_small := is_small self; is_live := is_live self; is_lsa := is_lsa self;
     size := Some v; offset_in_object := offset_in_object self;
     _is_live := _is_live self |}.

Definition set_is_small (self : pointer_metadata) (v : bool) : pointer_metadata :=
  {| ptr := ptr self; thread := thread self;
     _is_containing_page_free := _is_containing_page_free self;
     is_small := Some v; is_live := is_live self; is_lsa := is_lsa self;
     size := size self; offset_in_object := offset_in_object self;
     _is_live := _is_live self |}.

Definition set_is_live (self : pointer_metadata) (v : bool) : pointer_metadata :=
  {| ptr := ptr self; thread := thread self;
     _is_containing_page_free := _is_containing_page_free self;
     is_small := is_small self; is_live := Some v; is_lsa := is_lsa self;
     size := size self; offset_in_object := offset_in_object self;
     _is_live := _is_live self |}.

Definition set_offset_in_object (self : pointer_metadata) (v : Z) : pointer_metadata :=
  {| ptr := ptr self; thread := thread self;
     _is_containing_page_free := _is_containing_page_free self;
     is_small := is_small self; is_live := is_live self; is_lsa := is_lsa self;
     size := size self; offset_in_object := v;
     _is_live := _is_live self |}.

Definition set_is_lsa (self : pointer_metadata) (v : bool) : pointer_metadata :=
  {| ptr := ptr self; thread := thread self;
     _is_containing_page_free := _is_containing_page_free self;
     is_small := is_small self; is_live := is_live self; is_lsa := Some v;
     size := size self; offset_in_object := offset_in_object self;
     _is_live := _is_live self |}.

(** [get_seastar_memory_start_and_size()] for one thread. *)
Definition get_seastar_memory_start_and_size (tg : target) (t : reactor_thread) : Z * Z :=
  (memory (cpu_mem t), Z.of_nat (nr_pages (cpu_mem t)) * page_size tg).

(** The first thread whose memory region holds [p]. *)
Fixpoint owning_thread (tg : target) (ts : list reactor_thread) (p : Z)
    : option reactor_thread :=
  match ts with
  | [] => None
  | t :: rest =>
      let '(start, sz) := get_seastar_memory_start_and_size tg t in
      if (start <=? p) && (p <? start + sz) then Some t
      else owning_thread tg rest p
  end.

(** [ptr >= next_free and ptr < next_free + object_size] *)
Definition in_slot (p object_size slot : Z) : bool :=
  (slot <=? p) && (p <? slot + object_size).

(** One [while next_free:] loop of [analyze]: does [p] lie in one of the
    slots of the chain that starts at [next_free]? *)
Fixpoint walk_free_list (fuel : nat) (tg : target) (p object_size next_free : Z)
    : outcome bool :=
  match fuel with
  | O => Diverge
  | S fuel' =>
      if next_free =? 0 then Ok false
      else if in_slot p object_size next_free then Ok true
      else match read_ptr tg next_free with
           | None => Raise (MemoryError next_free)
           | Some next => walk_free_list fuel' tg p object_size next
           end
  end.

(** The slots of a free list: a chain of readable links that ends in the
    null pointer. *)
Inductive free_chain (tg : target) : Z -> list Z -> Prop :=
| free_chain_nil : free_chain tg 0 []
| free_chain_cons (slot next : Z) (rest : list Z) :
    slot <> 0 -> read_ptr tg slot = Some next -> free_chain tg next rest ->
    free_chain tg slot (slot :: rest).

(** The branch of [analyze] taken for a small-pool span. *)
Definition analyze_small (fuel : nat) (tg : target) (ptr_meta : pointer_metadata)
    (s : span) (p : Z) : outcome pointer_metadata :=
  let pool := small_pools tg (Seastar.pool (page s)) in
  let object_size := _object_size pool in
  let offset_in_span := p - start s in
  if object_size =? 0 then Raise ZeroDivisionError
  else
    let ptr_meta := set_is_small (set_size ptr_meta object_size) true in
    let offset := offset_in_span `mod` object_size in
    free ← walk_free_list fuel tg p object_size (_free pool);
    free ← (if free : bool then Ok true
            else walk_free_list fuel tg p object_size (freelist (page s)));
    if free : bool
    then Ok (set_is_live ptr_meta false)
    else Ok (set_offset_in_object (set_is_live ptr_meta true) offset).

(** [scylla_ptr.analyze(ptr)].  [offset / page_size] raises when the page
    size is 0; the page descriptor it selects is not used afterwards. *)
Definition analyze (fuel : nat) (tg : target) (p : Z) : outcome pointer_metadata :=
  match owning_thread tg (reactor_threads tg) p with
  | None => Ok (_init_generic_ptr p None)
  | Some t =>
      let ptr_meta := _init_seastar_ptr p t in
      let cm := cpu_mem t in
      if page_size tg =? 0 then Raise ZeroDivisionError
      else
        found ← get_span (span_checker_init cm (page_size tg)) p;
        match found with
        | None => Raise AttributeError
        | Some s =>
            let offset_in_span := p - start s in
            ptr_meta ←
              (if used_span_size cm s * page_size tg <=? offset_in_span
               then Ok (mark_free ptr_meta)
               else if Seastar.is_small s then analyze_small fuel tg ptr_meta s p
               else Ok (set_offset_in_object
                          (set_size
                             (set_is_live (set_is_small ptr_meta false)
                                (negb (is_free s)))
                             (Seastar.size s * page_size tg))
                          (p - start s)));
            Ok (set_is_lsa ptr_meta (negb (lsa_region t p =? 0)))
        end
  end.

End ScyllaPtr.

(** ** scylla lsa-segment: object descriptors of the compacting allocator *)

Module Lsa.

(** Readable target memory around a segment: [contents] are the bytes
    (C [char] values) at [base], [base + 1], ...; any other address is
    unreadable. *)
Record memory := mk_memory {
  base : Z;
  contents : list Z
}.

(** The bytes that successive [pos.dereference()], [pos += 1] steps see,
    starting at [pos]. *)
Definition bytes_from (m : memory) (pos : Z) : list Z :=
  if pos <? base m then [] else drop (Z.to_nat (pos - base m)) (contents m).

(** [class lsa_object_descriptor] *)
Record lsa_object_descriptor := mk_descriptor {
  value : Z;
  desc_pos : Z;
  obj_pos : Z
}.

(** [b = pos.dereference() & 0xff] is a [gdb.Value]: the [char] read is
    combined with the Python integer, which gdb takes as a [long], so
    [b], [value] and [(b & 0x3f) << shift] are values of the target's
    [long], 64 bits in two's complement.  [to_long x] is what such a
    [long] holds of the integer [x]. *)
Definition to_long (x : Z) : Z := (x + 2 ^ 63) mod 2 ^ 64 - 2 ^ 63.

(** [x << shift] on a [long]: the bits shifted beyond bit 63 are lost,
    and bit 63 is the sign.  For a count of 64 or more gdb reports that
    the left shift count is too large and gives 0; [decode] gets there
    only from the twelfth byte of a descriptor on. *)
Definition long_lshift (x shift : Z) : Z :=
  if shift <? 64 then to_long (Z.shiftl x shift) else 0.

(** The [while not (b & 0x80)] loop of [decode]; [bytes] are the bytes
    from [pos] on. *)
Fixpoint decode_loop (bytes : list Z) (pos b value shift : Z) : outcome (Z * Z) :=
  if Z.land b 0x80 =? 0 then
    match bytes with
    | [] => Raise (MemoryError pos)
    | c :: rest =>
        let shift := shift + 6 in
        let b := Z.land c 0xff in
        let pos := pos + 1 in
        decode_loop rest pos b (Z.lor value (long_lshift (Z.land b 0x3f) shift)) shift
    end
  else Ok (value, pos).

(** [lsa_object_descriptor.decode(pos)]. *)
Definition decode (pos : Z) (bytes : list Z) : outcome lsa_object_descriptor :=
  let start_pos := pos in
  match bytes with
  | [] => Raise (MemoryError pos)
  | c :: rest =>
      let b := Z.land c 0xff in
      let pos := pos + 1 in
      if Z.land b 0x40 =? 0 then Raise (BadDescriptor start_pos b)
      else
        r ← decode_loop rest pos b (Z.land b 0x3f) 0;
        Ok (mk_descriptor r.1 start_pos r.2)
  end.

(** The value a descriptor encodes, in the words of the wire format: six
    bits per byte, the low six bits of byte 0 being the least
    significant. *)
Fixpoint wire_value (bytes : list Z) : Z :=
  match bytes with
  | [] => 0
  | c :: rest => Z.lor (Z.land c 0x3f) (Z.shiftl (wire_value rest) 6)
  end.

(** A descriptor on the wire: bytes with bit 7 clear, closed by one byte
    with bit 7 set. *)
Definition terminated (body : list Z) (last : Z) : Prop :=
  Forall (fun c => Z.testbit c 7 = false) body /\ Z.testbit last 7 = true.

Definition is_live (self : lsa_object_descriptor) : bool :=
  Z.land (value self) 1 =? 1.

(** [self.value / 2] on gdb integer values: C division, which rounds
    towards zero. *)
Definition dead_size (self : lsa_object_descriptor) : Z :=
  Z.quot (value self) 2.

Section segment.

(** [live_size()] asks gdb for the migrator's type and its size. *)
Variable live_size : lsa_object_descriptor -> Z.
Variable logalloc_alignment : Z.
Variable segment_size : Z.

Definition end_pos (self : lsa_object_descriptor) : Z :=
  if is_live self then obj_pos self + live_size self
  else desc_pos self + dead_size self.

(** The [while seg < seg_end] loop of [scylla_lsa_segment.invoke]; the
    descriptors it prints are collected in order. *)
Fixpoint segment_loop (fuel : nat) (m : memory) (seg seg_end : Z)
    : list lsa_object_descriptor * outcome unit :=
  match fuel with
  | O => ([], Diverge)
  | S fuel' =>
      if seg <? seg_end then
        match decode seg (bytes_from m seg) with
        | Ok desc =>
            let logalloc_alignment_mask := logalloc_alignment - 1 in
            let seg := end_pos desc in
            let seg := Z.land (seg + logalloc_alignment_mask)
                              (Z.lnot logalloc_alignment_mask) in
            let '(printed, r) := segment_loop fuel' m seg seg_end in
            (desc :: printed, r)
        | Raise e => ([], Raise e)
        | Diverge => ([], Diverge)
        end
      else ([], Ok ())
  end.

Definition scylla_lsa_segment (fuel : nat) (m : memory) (ptr : Z)
    : list lsa_object_descriptor * outcome unit :=
  let seg := Z.land ptr (Z.lnot (segment_size - 1)) in
  let seg_end := seg + segment_size in
  segment_loop fuel m seg seg_end.

End segment.
End Lsa.

(** ** scylla heapprof: the allocation-site tree *)

Module HeapProf.

(** [class ProfNode(TreeNode)]; [children] are the values of
    [children_by_key] in the dict's order. *)
Inductive ProfNode : Type :=
| Node (key : option Z) (size count : Z) (tail : list (option Z))
       (children : list ProfNode).

Definition key (n : ProfNode) : option Z :=
  match n with Node k _ _ _ _ => k end.
Definition size (n : ProfNode) : Z :=
  match n with Node _ s _ _ _ => s end.
Definition count (n : ProfNode) : Z :=
  match n with Node _ _ c _ _ => c end.
Definition tail (n : ProfNode) : list (option Z) :=
  match n with Node _ _ _ t _ => t end.
Definition children (n : ProfNode) : list ProfNode :=
  match n with Node _ _ _ _ ch => ch end.

(** The [attributes] property: [{'size': ..., 'count': ...}]. *)
Definition attributes (n : ProfNode) : Z * Z := (size n, count n).

Definition has_only_one_child (n : ProfNode) : bool :=
  bool_decide (length (children n) = 1%nat).

Definition squash_child (n : ProfNode) : outcome ProfNode :=
  match children n with
  | [child] => Ok (Node (key n) (size n) (count n) (tail n) (children child))
  | _ => Raise AssertionError
  end.

Fixpoint node_count (n : ProfNode) : nat :=
  match n with
  | Node _ _ _ _ ch => S (list_sum (map node_count ch))
  end.

(** Termination measure of the collapsing pass. *)
Lemma node_count_child (n child : ProfNode) :
  In child (children n) -> (node_count child < node_count n)%nat.
Proof.
  destruct n as [k s c t ch]; simpl.
  induction ch as [|x ch IH]; simpl; intros Hin; [easy|].
  destruct Hin as [->|Hin]; [lia|]. specialize (IH Hin). lia.
Qed.

(** The [while node.has_only_one_child()] loop of [collapse_similar]:
    [squash_child] followed by [node.tail.append(child.key)], as long as
    the only child has the node's attributes. *)
Equations? squash_loop (node : ProfNode) : ProfNode by wf (node_count node) lt :=
squash_loop (Node k s c t [child]) with decide ((s, c) = attributes child) := {
  | left _ => squash_loop (Node k s c (t ++ [key child]) (children child));
  | right _ => Node k s c t [child] };
squash_loop node := node.
Proof.
  destruct child as [k' s' c' t' ch']; simpl. lia.
Qed.

Lemma squash_loop_count (n : ProfNode) :
  (node_count (squash_loop n) <= node_count n)%nat.
Proof.
  funelim (squash_loop n); try (simpl; lia).
  destruct child as [k' s' c' t' ch']; simpl in *. lia.
Qed.

Fixpoint map_in {A B} (l : list A) : (forall x, In x l -> B) -> list B :=
  match l with
  | [] => fun _ => []
  | x :: rest => fun f =>
      f x (or_introl eq_refl) :: map_in rest (fun y Hy => f y (or_intror Hy))
  end.

(** [collapse_similar(node)]: the loop, then the pass over the children
    that are left. *)
Equations? collapse_similar (node : ProfNode) : ProfNode by wf (node_count node) lt :=
collapse_similar node :=
  Node (key (squash_loop node)) (size (squash_loop node)) (count (squash_loop node))
       (tail (squash_loop node))
       (map_in (children (squash_loop node)) (fun child Hin => collapse_similar child)).
Proof.
  pose proof (node_count_child _ _ Hin). pose proof (squash_loop_count node). lia.
Qed.

(** All nodes of a tree, the root first. *)
Fixpoint nodes (n : ProfNode) : list ProfNode :=
  match n with
  | Node _ _ _ _ ch => n :: concat (map nodes ch)
  end.

(** [path] descends from [n] through only children: what the loop of
    [collapse_similar] can merge into [n]. *)
Fixpoint is_path (n : ProfNode) (path : list ProfNode) : Prop :=
  match path with
  | [] => True
  | child :: rest => children n = [child] /\ is_path child rest
  end.

End HeapProf.

(** ** Symbol resolution *)

Module Symbols.

(** The module-level cache [names]: address to name, [None] for an
    address gdb has no symbol for. *)
Abbreviation names_t := (gmap Z (option string)).

(** [resolve(addr, cache)]; [info_symbol] is the text gdb prints for
    [info symbol addr]. *)
Definition resolve (info_symbol : Z -> string) (names : names_t) (addr : Z)
    (cache : bool) : option string * names_t :=
  match names !! addr with
  | Some name => (name, names)
  | None =>
      let infosym := info_symbol addr in
      let name :=
        if String.prefix "No symbol" infosym then None
        else
          match String.index 0 "in section" infosym with
          | Some i => Some (String.substring 0 i infosym)
          | None => Some (String.substring 0 (String.length infosym - 1) infosym)
          end in
      (name, if cache then <[addr := name]> names else names)
  end.

(** ['::'.join(symbol_spec)] *)
Fixpoint join (sep : string) (parts : list string) : string :=
  match parts with
  | [] => ""
  | [part] => part
  | part :: rest => part +:+ sep +:+ join sep rest
  end.

(** [[name.index(part) for part in symbol_spec]], [None] for the
    [ValueError] of a missing part. *)
Fixpoint positions (name : string) (symbol_spec : list string) : option (list nat) :=
  match symbol_spec with
  | [] => Some []
  | part :: rest =>
      match String.index 0 part name with
      | None => None
      | Some i =>
          match positions name rest with
          | None => None
          | Some l => Some (i :: l)
          end
      end
  end.

(** [scylla_fiber._make_symbol_matcher(symbol_spec)] *)
Definition matches_symbol (symbol_spec : list string) (name : string) : bool :=
  let unmangled_prefix := "vtable for " +:+ join "::" symbol_spec in
  if String.prefix unmangled_prefix name then true
  else
    match positions name symbol_spec with
    | Some ps => bool_decide (merge_sort le ps = ps)
    | None => false
    end.

Definition _whitelist : list (string -> bool) :=
  map matches_symbol
    [ ["seastar"; "continuation"];
      ["seastar"; "future"; "thread_wake_task"];
      ["seastar"; "internal"; "do_until_state"];
      ["seastar"; "internal"; "do_with_state"];
      ["seastar"; "internal"; "repeat_until_value_state"];
      ["seastar"; "internal"; "repeater"];
      ["seastar"; "internal"; "when_all_state_component"];
      ["seastar"; "lambda_task"];
      ["seastar"; "smp_message_queue"; "async_work_item"] ].

Definition _name_is_on_whitelist (name : string) : bool :=
  existsb (fun matcher => matcher name) _whitelist.

End Symbols.

(** ** scylla fiber: walking a continuation chain *)

Module Fiber.
Import ScyllaPtr.

(** [range(start, stop, step)] for a positive step. *)
Definition py_range (start stop step : Z) : list Z :=
  map (fun k => start + Z.of_nat k * step)
      (seq 0 (Z.to_nat ((stop - start + step - 1) / step))).

(** What [gdb.write] prints in [_walk]. *)
Inductive message : Type :=
| FallbackNotice
| NotATaskNotice (p : Z).

(** An entry of the fiber: task pointer, vtable pointer, symbol name. *)
Definition entry : Type := Z * Z * string.

Section fiber.

(** [*(uintptr_t * )addr]; [None] is [gdb.MemoryError]. *)
Variable read_word : Z -> option Z.
Variable info_symbol : Z -> string.
Variable names : Symbols.names_t.
(** [scylla_ptr.analyze] and [scylla_ptr.is_seastar_allocator_used()]. *)
Variable analyze : Z -> outcome pointer_metadata.
Variable is_seastar_allocator_used : bool.

(** [self._vptr_type.sizeof] *)
Definition vptr_sizeof : Z := 8.

Definition _probe_pointer (p scanned_region_size : Z) (using_seastar_allocator : bool)
    : outcome (option (pointer_metadata * Z * string)) :=
  match read_word p with
  | None => Ok None
  | Some maybe_vptr =>
      match (Symbols.resolve info_symbol names maybe_vptr false).1 with
      | None => Ok None
      | Some resolved_symbol =>
          if negb (Symbols._name_is_on_whitelist resolved_symbol) then Ok None
          else if using_seastar_allocator then
            ptr_meta ← analyze p;
            if negb (is_managed_by_seastar ptr_meta)
               || negb (default false (is_live ptr_meta))
               || negb (offset_in_object ptr_meta =? 0)
            then Ok None
            else Ok (Some (ptr_meta, maybe_vptr, resolved_symbol))
          else
            Ok (Some (_init_generic_ptr p (Some scanned_region_size),
                      maybe_vptr, resolved_symbol))
      end
  end.

(** The words [_do_walk] reads while it scans one task object. *)
Definition scanned_words (p sz : Z) : list Z :=
  let region_start := p + vptr_sizeof in
  let region_end := region_start + (sz - sz `mod` vptr_sizeof) in
  py_range region_start region_end vptr_sizeof.

(** The [for it in range(region_start, region_end, sizeof)] loop of
    [_do_walk]; [recurse] is the recursive call on the task found. *)
Fixpoint scan_region (recurse : pointer_metadata -> outcome (list entry))
    (scanned_region_size : Z) (using_seastar_allocator : bool) (its : list Z)
    : outcome (list entry) :=
  match its with
  | [] => Ok []
  | it :: rest =>
      match read_word it with
      | None => Raise (MemoryError it)
      | Some maybe_tptr =>
          res ← _probe_pointer maybe_tptr scanned_region_size using_seastar_allocator;
          match res with
          | None => scan_region recurse scanned_region_size using_seastar_allocator rest
          | Some (tptr_meta, vptr, name) =>
              fiber ← recurse tptr_meta;
              Ok (fiber ++ [(maybe_tptr, vptr, name)])
          end
      end
  end.

(** [_do_walk]; the recursion depth of Python is the fuel. *)
Fixpoint _do_walk (fuel : nat) (ptr_meta : pointer_metadata) (i max_depth : Z)
    (scanned_region_size : Z) (using_seastar_allocator : bool)
    : outcome (list entry) :=
  match fuel with
  | O => Diverge
  | S fuel' =>
      if (max_depth >? -1) && (i >=? max_depth) then Ok []
      else
        match size ptr_meta with
        | None => Raise TypeError
        | Some sz =>
            scan_region
              (fun tptr_meta =>
                 _do_walk fuel' tptr_meta (i + 1) max_depth scanned_region_size
                   using_seastar_allocator)
              scanned_region_size using_seastar_allocator
              (scanned_words (ptr ptr_meta) sz)
        end
  end.

(** A word that is read and not accepted is skipped. *)
Definition rejected (srs : Z) (use_alloc : bool) (it : Z) : Prop :=
  exists w, read_word it = Some w /\ _probe_pointer w srs use_alloc = Ok None.

(** The object of [m] holds, as the first accepted word of its scan, a
    pointer [w] to the task [e]. *)
Definition successor (srs : Z) (use_alloc : bool) (m : pointer_metadata)
    (e : pointer_metadata * Z * string) (w : Z) : Prop :=
  exists sz pre it post,
    size m = Some sz
    /\ scanned_words (ptr m) sz = pre ++ it :: post
    /\ Forall (rejected srs use_alloc) pre
    /\ read_word it = Some w
    /\ _probe_pointer w srs use_alloc = Ok (Some e).

Definition no_successor (srs : Z) (use_alloc : bool) (m : pointer_metadata) : Prop :=
  exists sz, size m = Some sz
    /\ Forall (rejected srs use_alloc) (scanned_words (ptr m) sz).

(** A linear chain of recognizable tasks hanging off [m], which ends in
    an object without a recognizable successor. *)
Inductive planted_chain (srs : Z) (use_alloc : bool)
    : pointer_metadata -> list entry -> Prop :=
| chain_end m :
    no_successor srs use_alloc m -> planted_chain srs use_alloc m []
| chain_link m m' vptr name w rest :
    successor srs use_alloc m (m', vptr, name) w ->
    planted_chain srs use_alloc m' rest ->
    planted_chain srs use_alloc m ((w, vptr, name) :: rest).

(** How many links a walk entered at depth [i] may still follow. *)
Definition depth_left (max_depth i : Z) (chain : list entry) : nat :=
  if max_depth >? -1 then Z.to_nat (max_depth - i) else length chain.

(** [_walk]: the messages written, and the returned pair or the
    exception raised. *)
Definition _walk (fuel : nat) (p max_depth scanned_region_size : Z)
    (force_fallback_mode : bool)
    : list message * outcome ((pointer_metadata * Z * string) * list entry) :=
  let using_seastar_allocator := negb force_fallback_mode && is_seastar_allocator_used in
  let out := if using_seastar_allocator then [] else [FallbackNotice] in
  match _probe_pointer p scanned_region_size using_seastar_allocator with
  | Raise e => (out, Raise e)
  | Diverge => (out, Diverge)
  | Ok None => (out ++ [NotATaskNotice p], Raise TypeError)
  | Ok (Some this_task) =>
      (out,
       fiber ← _do_walk fuel this_task.1.1 0 max_depth scanned_region_size
                 using_seastar_allocator;
       Ok (this_task, rev fiber))
  end.

End fiber.
End Fiber.

(** ** scylla generate-object-graph *)

Module ObjectGraph.
Import ScyllaPtr.

(** What is recorded for a vertex: pointer metadata and vtable symbol. *)
Definition obj_info : Type := pointer_metadata * option string.

Record bfs_state := mk_bfs_state {
  vertices : gmap Z obj_info;
  edges : gmap (Z * Z) (gset Z);
  next_objects : list Z;
  stop : bool;
  ticks : nat
}.

Section graph.

(** [scylla_find.find(value)]: the live objects holding [value], each
    with the offset of the hit. *)
Variable find : Z -> list (Z * Z).
(** [scylla_ptr.analyze] paired with [resolve] of the first word. *)
Variable describe : Z -> outcome obj_info.
(** Successive readings of [time.time()], in seconds. *)
Variable clock : nat -> Z.

Variables max_depth max_vertices timeout_seconds : Z.

Definition start_time : Z := clock 0%nat.

(** [edges[(a, b)].add(off)] on a [defaultdict(set)]. *)
Definition add_edge (es : gmap (Z * Z) (gset Z)) (e : Z * Z) (off : Z)
    : gmap (Z * Z) (gset Z) :=
  <[e := default ∅ (es !! e) ∪ {[off]}]> es.

(** The inner [for next_obj, next_off in scylla_find.find(current_obj)]. *)
Fixpoint scan_hits (current_obj : Z) (hits : list (Z * Z)) (st : bfs_state)
    : outcome bfs_state :=
  match hits with
  | [] => Ok st
  | (next_obj, next_off) :: rest =>
      let timed_out :=
        (timeout_seconds >? 0)
        && (clock (ticks st) - start_time >? timeout_seconds) in
      let now := if timeout_seconds >? 0 then S (ticks st) else ticks st in
      if timed_out
      then Ok (mk_bfs_state (vertices st) (edges st) (next_objects st) true now)
      else
        let es := add_edge (edges st) (next_obj, current_obj) next_off in
        if decide (is_Some (vertices st !! next_obj))
        then scan_hits current_obj rest
               (mk_bfs_state (vertices st) es (next_objects st) (stop st) now)
        else
          info ← describe next_obj;
          let vs := <[next_obj := info]> (vertices st) in
          let nexts := next_objects st ++ [next_obj] in
          if (max_vertices >? 0) && (Z.of_nat (base.size vs) >=? max_vertices)
          then Ok (mk_bfs_state vs es nexts true now)
          else scan_hits current_obj rest (mk_bfs_state vs es nexts (stop st) now)
  end.

(** The outer [for current_obj in current_objects]. *)
Fixpoint scan_level (current_objects : list Z) (st : bfs_state) : outcome bfs_state :=
  match current_objects with
  | [] => Ok st
  | current_obj :: rest =>
      st ← scan_hits current_obj (find current_obj) st;
      scan_level rest st
  end.

(** The [while not stop] loop. *)
Fixpoint bfs_loop (fuel : nat) (depth : Z) (current_objects : list Z) (st : bfs_state)
    : outcome bfs_state :=
  match fuel with
  | O => Diverge
  | S fuel' =>
      if stop st then Ok st
      else
        let depth := depth + 1 in
        st ← scan_level current_objects st;
        if (max_depth >? 0) && (depth =? max_depth)
        then Ok (mk_bfs_state (vertices st) (edges st) (next_objects st) true (ticks st))
        else bfs_loop fuel' depth (next_objects st)
               (mk_bfs_state (vertices st) (edges st) [] (stop st) (ticks st))
  end.

Definition _traverse_object_graph_breadth_first (fuel : nat) (address : Z)
    : outcome (gmap (Z * Z) (gset Z) * gmap Z obj_info) :=
  st ← bfs_loop fuel 0 [address] (mk_bfs_state ∅ ∅ [] false 1);
  Ok (edges st, vertices st).

(** [_do_generate_object_graph]: the vertices and edges whose statements
    are written to the output file. *)
Definition _do_generate_object_graph (fuel : nat) (address : Z)
    : outcome (gmap Z obj_info * gmap (Z * Z) (gset Z)) :=
  r ← _traverse_object_graph_breadth_first fuel address;
  info ← describe address;
  Ok (<[address := info]> r.2, r.1).

End graph.
End ObjectGraph.

(** ** Further notions used in the properties *)

Module GraphPaths.
Import ObjectGraph.

(** [hops find root n v]: [v] is reached from [root] by [n] steps, each
    from an object to an object that holds a reference to it. *)
Inductive hops (find : Z -> list (Z * Z)) (root : Z) : nat -> Z -> Prop :=
| hops_root : hops find root 0 root
| hops_step n b v off :
    hops find root n b -> (v, off) ∈ find b -> hops find root (S n) v.

(** The edges of a traversal state are backed by what [find] reported,
    and every vertex is the source of an edge. *)
Definition edges_valid (find : Z -> list (Z * Z)) (st : bfs_state) : Prop :=
  (forall a b offs, edges st !! (a, b) = Some offs ->
     exists off, off ∈ offs)
  /\ (forall a b offs off, edges st !! (a, b) = Some offs -> off ∈ offs ->
        (a, off) ∈ find b)
  /\ (forall v, is_Some (vertices st !! v) -> exists b, is_Some (edges st !! (v, b))).

(** The vertices of a state are within [k] steps of the root, the
    objects queued for the next level at exactly [k]. *)
Definition within (find : Z -> list (Z * Z)) (address : Z) (k : nat)
    (st : bfs_state) : Prop :=
  (forall v, is_Some (vertices st !! v) ->
     exists n, (1 <= n <= k)%nat /\ hops find address n v)
  /\ (forall x, x ∈ next_objects st -> hops find address k x).

Definition vcount (st : bfs_state) : Z := Z.of_nat (base.size (vertices st)).

(** While [stop] is unset the count is below the limit, and no more
    objects are queued for the next level than there are vertices. *)
Definition counted (max_vertices : Z) (st : bfs_state) : Prop :=
  (stop st = false -> vcount st < max_vertices)
  /\ Z.of_nat (length (next_objects st)) <= vcount st.

End GraphPaths.

(** ** Building and printing the heap profile *)

Module HeapProfBuild.
Import HeapProf.

(** [ProfNode(key)] *)
Definition ProfNode_init (key : option Z) : ProfNode := Node key 0 0 [] [].

Definition has_key (k : option Z) (c : ProfNode) : bool := bool_decide (key c = k).

(** [self.children_by_key.get(key, None)] *)
Definition get (k : option Z) (n : ProfNode) : option ProfNode :=
  List.find (has_key k) (children n).

(** [d[c.key] = c] on a dict, which keeps the order of insertion: the
    value of a key already present is replaced where it is, a new key
    goes to the end. *)
Fixpoint dict_set (c : ProfNode) (ch : list ProfNode) : list ProfNode :=
  match ch with
  | [] => [c]
  | x :: rest => if has_key (key c) x then c :: rest else x :: dict_set c rest
  end.

(** [TreeNode.add]: [self.children_by_key[node.key] = node]. *)
Definition add (n c : ProfNode) : ProfNode :=
  Node (key n) (size n) (count n) (tail n) (dict_set c (children n)).

(** The node that [get_or_add(key)] returns: the child under [key], or a
    fresh [ProfNode(key)].  The source adds the fresh node at once and
    then updates the returned node in place; here the updated node is
    put back with [add], which for a key already present replaces the
    child where it is. *)
Definition get_or_add (n : ProfNode) (k : Z) : ProfNode :=
  default (ProfNode_init (Some k)) (get (Some k) n).

(** [n.size += size; n.count += count] *)
Definition bump (sz cnt : Z) (n : ProfNode) : ProfNode :=
  Node (key n) (size n + sz) (count n + cnt) (tail n) (children n).

(** One allocation site's walk down the tree:
    [n.size += size; n.count += count] at the root and at every node
    reached by [n = n.get_or_add(addr)]. *)
Fixpoint add_trace (sz cnt : Z) (seq : list Z) (n : ProfNode) : ProfNode :=
  match seq with
  | [] => bump sz cnt n
  | addr :: rest =>
      add (bump sz cnt n) (add_trace sz cnt rest (get_or_add (bump sz cnt n) addr))
  end.

(** [seastar::memory::allocation_site]: [frames] are the addresses of
    [backtrace._frames]. *)
Record alloc_site := mk_site {
  site_size : Z;
  site_count : Z;
  frames : list Z
}.

(** [addresses.pop(0)] on an empty list raises [IndexError]. *)
Inductive result (A : Type) : Type :=
| Done (a : A)
| IndexError.
Arguments Done {A} a.
Arguments IndexError {A}.

(** The addresses a site is filed under: the frames without the first
    ([addresses.pop(0)]), reversed with [--inverted]. *)
Definition trace (inverted : bool) (site : alloc_site) : list Z :=
  if inverted then rev (List.tl (frames site)) else List.tl (frames site).

(** The body of [while site:] in [scylla_heapprof.invoke]. *)
Definition add_site (inverted : bool) (root : ProfNode) (site : alloc_site)
    : result ProfNode :=
  if site_size site =? 0 then Done root
  else match frames site with
       | [] => IndexError
       | _ :: _ =>
           Done (add_trace (site_size site) (site_count site) (trace inverted site) root)
       end.

(** The loop over the list [alloc_site_list_head, next, ...], taken to
    end with a null pointer. *)
Fixpoint site_loop (inverted : bool) (sites : list alloc_site) (root : ProfNode)
    : result ProfNode :=
  match sites with
  | [] => Done root
  | site :: rest =>
      match add_site inverted root site with
      | Done root' => site_loop inverted rest root'
      | IndexError => IndexError
      end
  end.

(** [root = ProfNode(None)] and the loop. *)
Definition build_profile (inverted : bool) (sites : list alloc_site) : result ProfNode :=
  site_loop inverted sites (ProfNode_init None).

(** [strip_level(node, level)] *)
Fixpoint strip_level (node : ProfNode) (level : Z) : ProfNode :=
  match node with
  | Node k s c t ch =>
      if level <=? 0 then Node k s c t []
      else Node k s c t (map (fun child => strip_level child (level - 1)) ch)
  end.

(** Truth value of [n.key] in [if n.key:]: [None] and 0 are false. *)
Definition truthy (k : option Z) : bool :=
  match k with
  | None => false
  | Some a => negb (a =? 0)
  end.

(** [print_node] of the [--flame] branch.  [trace] is the list shared by
    all calls; a line of the output file is given by the trace it is
    made from and the size printed after it. *)
Fixpoint print_node (n : ProfNode) (trace : list (option Z))
    : list (list (option Z) * Z) * list (option Z) :=
  match n with
  | Node k s c t ch =>
      let trace1 := if truthy k then (trace ++ [k]) ++ t else trace in
      let '(lines, trace2) :=
        (fix for_children (cs : list ProfNode) (tr : list (option Z)) :=
           match cs with
           | [] => ([], tr)
           | child :: cs' =>
               let '(l1, tr1) := print_node child tr in
               let '(l2, tr2) := for_children cs' tr1 in
               (l1 ++ l2, tr2)
           end) ch trace1 in
      let lines' := match ch with [] => lines ++ [(trace2, s)] | _ => lines end in
      let trace3 :=
        if truthy k then take (length trace2 - (1 + length t)) trace2 else trace2 in
      (lines', trace3)
  end.

(** *** Notions the properties are stated with *)

(** The node reached from [n] by the keys of [path]. *)
Fixpoint find_path (path : list Z) (n : ProfNode) : option ProfNode :=
  match path with
  | [] => Some n
  | a :: rest => get (Some a) n ≫= find_path rest
  end.

Definition sum_with (f : alloc_site -> Z) (sites : list alloc_site) : Z :=
  foldr (fun s acc => f s + acc) 0 sites.

(** The sites counted under [path]: those of non-zero size whose trace
    starts with [path]. *)
Definition sites_under (inverted : bool) (path : list Z) (sites : list alloc_site)
    : list alloc_site :=
  filter (fun s => site_size s <> 0 /\ path `prefix_of` trace inverted s) sites.

(** Number of edges on the longest way down from [n]. *)
Fixpoint height (n : ProfNode) : nat :=
  match n with
  | Node _ _ _ _ ch => foldr (fun c h => Nat.max (S (height c)) h) 0%nat ch
  end.

(** The keys a tree shows, in the order of display: a node's key, the
    keys collapsed into it, then its subtrees. *)
Fixpoint shown_keys (n : ProfNode) : list (option Z) :=
  match n with
  | Node k _ _ t ch => k :: t ++ concat (map shown_keys ch)
  end.

(** The lines of the flame output, read off the tree: one per leaf, with
    the keys on the way to it that count as true. *)
Fixpoint leaf_lines (n : ProfNode) (trace : list (option Z))
    : list (list (option Z) * Z) :=
  match n with
  | Node k s _ t ch =>
      let trace1 := if truthy k then (trace ++ [k]) ++ t else trace in
      match ch with
      | [] => [(trace1, s)]
      | _ => concat (map (fun c => leaf_lines c trace1) ch)
      end
  end.

End HeapProfBuild.

(** ** A small target used in the examples *)

Module Examples.
Import Seastar ScyllaPtr.

Definition zero_page : page_t := mk_page false 0 0 0 0.

Definition pages_of (l : list page_t) : nat -> page_t :=
  fun i => default zero_page (l !! i).

(** Eight pages of 4096 bytes at 0x100000: a large span on pages 1-2, a
    free span on page 3, a span of the 64-byte pool on pages 4-5, and no
    span on pages 6-7.  Page 0 carries a span length as well. *)
Definition example_pool_ptr : Z := 0x5000.

Definition example_pages : list page_t :=
  [ mk_page false 0 3 0 0;
    mk_page false 0 2 0 0;
    mk_page false 1 2 0 0;
    mk_page true 0 1 0 0;
    mk_page false 0 2 example_pool_ptr 0x104240;
    mk_page false 1 2 example_pool_ptr 0;
    zero_page;
    zero_page ].

Definition example_cpu_mem : cpu_mem_t :=
  mk_cpu_mem 0x100000 8 (pages_of example_pages).

Definition example_pool_span : span :=
  mk_span 4 0x104000 (pages_of example_pages 4).

Definition example_thread : reactor_thread :=
  mk_thread 1 example_cpu_mem (fun _ => 0).

(** The pool's free list is 0x104080 -> 0x104140 -> null, the span's own
    free list is 0x104240 -> null. *)
Definition example_words : gmap Z Z :=
  {[ 0x104080 := 0x104140; 0x104140 := 0; 0x104240 := 0 ]}.

Definition example_target : target :=
  mk_target 4096 [example_thread]
    (fun _ => mk_small_pool 64 0x104080)
    (fun a => example_words !! a).

(** A profile in which the root and its first two descendants have
    attributes (10, 2). *)
Definition example_profile : HeapProf.ProfNode :=
  HeapProf.Node None 10 2 []
    [HeapProf.Node (Some 1) 10 2 []
       [HeapProf.Node (Some 2) 10 2 []
          [HeapProf.Node (Some 3) 4 1 [] [];
           HeapProf.Node (Some 4) 6 1 []
             [HeapProf.Node (Some 5) 6 1 [] []]]]].

(** Memory for the fiber examples.  Two 16-byte tasks at 0x1000 and
    0x2000, the word at 0x1010 being the first word of the slot after
    the first task; three 32-byte tasks at 0x4000, 0x5000 and 0x6000
    linked in a chain; 0x3000 is an object without a vtable symbol. *)
Definition fiber_words : gmap Z Z :=
  list_to_map
    [ (0x1000, 0x400010); (0x1008, 0x3000); (0x1010, 0x2000);
      (0x2000, 0x400010); (0x2008, 0x3000); (0x2010, 0x3000);
      (0x3000, 0x77);
      (0x4000, 0x400010); (0x4008, 0x3000); (0x4010, 0x5000); (0x4018, 0);
      (0x4020, 0x3000);
      (0x5000, 0x400010); (0x5008, 0x6000); (0x5010, 0x3000); (0x5018, 0x3000);
      (0x5020, 0x3000);
      (0x6000, 0x400010); (0x6008, 0x3000); (0x6010, 0x3000); (0x6018, 0x3000);
      (0x6020, 0x3000) ].

Definition fiber_read_word (a : Z) : option Z := fiber_words !! a.

Definition task_symbol : string :=
  "vtable for seastar::continuation<lambda> + 16 in section .data.rel.ro".

Definition fiber_info_symbol (a : Z) : string :=
  if a =? 0x400010 then task_symbol else "No symbol matches the address.".

Definition live_object (p sz : Z) : pointer_metadata :=
  set_is_live (set_is_small (set_size (_init_seastar_ptr p example_thread) sz) true) true.

Definition fiber_analyze (p : Z) : outcome pointer_metadata :=
  if bool_decide (p ∈ [0x1000; 0x2000; 0x3000]) then Ok (live_object p 16)
  else if bool_decide (p ∈ [0x4000; 0x5000; 0x6000]) then Ok (live_object p 32)
  else Ok (_init_generic_ptr p None).

(** References for the object-graph example: the root 100 is referenced
    by the objects 200 and 300, which are referenced by 400 and 500. *)
Definition graph_find (value : Z) : list (Z * Z) :=
  if value =? 100 then [(200, 8); (300, 16)]
  else if value =? 200 then [(400, 0)]
  else if value =? 300 then [(500, 0)]
  else [].

Definition graph_describe (p : Z) : outcome ObjectGraph.obj_info :=
  Ok (_init_generic_ptr p None, None).

Definition graph_clock (n : nat) : Z := 0.

End Examples.

(** ** Further example data *)

Module MoreExamples.
Import ScyllaPtr Examples.

(** The graph found from the root 100 of [graph_find]. *)
Definition graph_edges : gmap (Z * Z) (gset Z) :=
  list_to_map [((200, 100), {[8]}); ((300, 100), {[16]});
               ((400, 200), {[0]}); ((500, 300), {[0]})].

Definition graph_vertices : gmap Z ObjectGraph.obj_info :=
  list_to_map [(200, (_init_generic_ptr 200 None, None));
               (300, (_init_generic_ptr 300 None, None));
               (400, (_init_generic_ptr 400 None, None));
               (500, (_init_generic_ptr 500 None, None))].

(** Allocation sites that give [example_profile]; the first frame of a
    backtrace is the allocator's own.  The third site has size zero. *)
Definition profile_sites : list HeapProfBuild.alloc_site :=
  [ HeapProfBuild.mk_site 4 1 [9; 1; 2; 3];
    HeapProfBuild.mk_site 6 1 [9; 1; 2; 4; 5];
    HeapProfBuild.mk_site 0 7 [] ].

End MoreExamples.

(** * Properties *)

(** ** histogram *)

Section histogram_facts.
Context {K : Type} `{Countable K}.
Import Histogram.

Lemma add_counts (h : histogram) (k : K) (σ : gmap nat (gmap K Z)) :
  deref (add h k σ) (_counts h)
  = <[k := default 0 (deref σ (_counts h) !! k) + 1]> (deref σ (_counts h)).
Proof.
  unfold add, __getitem__, __setitem__, defaultdict_getitem, deref.
  destruct (default ∅ (σ !! _counts h) !! k) as [v|] eqn:E;
    rewrite !lookup_insert_eq; simpl; [done|].
  by rewrite insert_insert_eq.
Qed.

(** C9: two histograms built without a [counts] argument hold the same
    dict object: after [add(k)] on the first, for a key [k] the shared
    dict did not hold, the second reads 1 at [k], just like the first,
    and its length has grown by the one added key. *)
Theorem C9_default_counts_shared (σ : gmap nat (gmap K Z)) (p1 p2 : bool) (k : K) :
  let h1 := __init__ None p1 in
  let h2 := __init__ None p2 in
  deref σ default_counts !! k = None ->
  _counts h1 = _counts h2
  /\ (__getitem__ h2 k (add h1 k σ)).1 = 1
  /\ (__getitem__ h1 k (add h1 k σ)).1 = 1
  /\ __len__ h2 (add h1 k σ) = S (__len__ h2 σ)
  /\ __len__ h2 (add h1 k σ) = __len__ h1 (add h1 k σ).
Proof.
  intros h1 h2 Hk.
  assert (E : deref (add h1 k σ) default_counts = <[k := 1]> (deref σ default_counts)).
  { change default_counts with (_counts h1). rewrite add_counts.
    change (_counts h1) with default_counts. by rewrite Hk. }
  repeat split.
  - unfold __getitem__, defaultdict_getitem. simpl. rewrite E.
    by rewrite lookup_insert_eq.
  - unfold __getitem__, defaultdict_getitem. simpl. rewrite E.
    by rewrite lookup_insert_eq.
  - unfold __len__. simpl. rewrite E. by apply map_size_insert_None.
Qed.

(** By contrast, histograms given distinct dict objects do not see each
    other's additions. *)
Lemma explicit_counts_independent (σ : gmap nat (gmap K Z)) (l1 l2 : nat)
    (p1 p2 : bool) (k : K) :
  l1 <> l2 ->
  deref (add (__init__ (Some l1) p1) k σ) (_counts (__init__ (Some l2) p2))
  = deref σ (_counts (__init__ (Some l2) p2)).
Proof.
  intros Hne. unfold add, __getitem__, __setitem__, deref. cbn [_counts __init__].
  destruct (defaultdict_getitem (default ∅ (σ !! l1)) k) as [v d].
  by rewrite !lookup_insert_ne.
Qed.

End histogram_facts.

(** The scenario on strings, from the heap the class definition leaves. *)
Lemma C9_default_counts_shared_witness :
  let σ := Histogram.initial_heap (K := string) in
  let h1 := Histogram.__init__ None true in
  let h2 := Histogram.__init__ None false in
  Histogram._counts h1 = Histogram._counts h2
  /\ (Histogram.__getitem__ h2 "item2" (Histogram.add h1 "item2" σ)).1 = 1
  /\ (Histogram.__getitem__ h1 "item2" (Histogram.add h1 "item2" σ)).1 = 1
  /\ Histogram.__len__ h2 (Histogram.add h1 "item2" σ) = S (Histogram.__len__ h2 σ)
  /\ Histogram.__len__ h2 (Histogram.add h1 "item2" σ)
     = Histogram.__len__ h1 (Histogram.add h1 "item2" σ).
Proof.
  apply (C9_default_counts_shared (Histogram.initial_heap (K := string)) true false "item2").
  reflexivity.
Defined.
Section span_table_facts.
Import Seastar.

Lemma spans_from_eq cm ps idx :
  spans_from cm ps idx =
  if decide (idx < nr_pages cm)%nat then
    match span_size (pages cm idx) with
    | O => spans_from cm ps (S idx)
    | S n => mk_span idx (memory cm + Z.of_nat idx * ps) (pages cm idx)
             :: spans_from cm ps (idx + S n)
    end
  else [].
Proof.
  rewrite spans_from_equation_1. unfold spans_from_unfold_clause_1.
  destruct (decide (idx < nr_pages cm)%nat); [|done].
  unfold spans_from_unfold_clause_1_clause_2.
  by destruct (span_size (pages cm idx)).
Qed.

Lemma bisect_loop_eq a x lo hi :
  bisect_loop a x lo hi =
  if decide (lo < hi)%nat then
    if decide (x < a !!! ((lo + hi) / 2)%nat)
    then bisect_loop a x lo ((lo + hi) / 2)%nat
    else bisect_loop a x (S ((lo + hi) / 2)%nat) hi
  else lo.
Proof.
  rewrite bisect_loop_equation_1. unfold bisect_loop_unfold_clause_1.
  destruct (decide (lo < hi)%nat); [|done].
  unfold bisect_loop_unfold_clause_1_clause_2.
  by destruct (decide (x < a !!! ((lo + hi) / 2)%nat)).
Qed.

(** *** The span list *)

Lemma spans_from_elems cm ps idx s :
  s ∈ spans_from cm ps idx ->
  (idx <= index s < nr_pages cm)%nat
  /\ start s = memory cm + Z.of_nat (index s) * ps
  /\ page s = pages cm (index s)
  /\ span_size (page s) <> 0%nat.
Proof.
  funelim (spans_from cm ps idx); intros Hin.
  - by apply elem_of_nil in Hin.
  - destruct (H _ Hin) as (? & ? & ? & ?). repeat split; auto; lia.
  - apply elem_of_cons in Hin as [->|Hin]; simpl.
    + repeat split; auto; lia.
    + destruct (H _ Hin) as (? & ? & ? & ?). repeat split; auto; lia.
Qed.

(** Spans come out in the order of their page indexes. *)
Lemma spans_from_sorted cm ps idx :
  forall i j s s', (i < j)%nat ->
    spans_from cm ps idx !! i = Some s ->
    spans_from cm ps idx !! j = Some s' ->
    (index s < index s')%nat.
Proof.
  funelim (spans_from cm ps idx); intros i j s s' Hij Hi Hj.
  - done.
  - eauto.
  - destruct i as [|i], j as [|j]; simpl in *; try lia.
    + injection Hi as <-. simpl.
      apply list_elem_of_lookup_2, spans_from_elems in Hj. lia.
    + eapply H; [|done|done]. lia.
Qed.

(** *** Binary search *)

Definition sorted_le (a : list Z) : Prop :=
  forall i j u v, (i <= j)%nat -> a !! i = Some u -> a !! j = Some v -> u <= v.

Lemma midpoint_bounds lo hi :
  (lo < hi)%nat -> (lo <= (lo + hi) / 2 < hi)%nat.
Proof.
  intros. pose proof (Nat.div_mod_eq (lo + hi) 2).
  pose proof (Nat.mod_upper_bound (lo + hi) 2). lia.
Qed.

Lemma bisect_loop_spec a x lo hi :
  sorted_le a ->
  (lo <= hi <= length a)%nat ->
  (forall i v, (i < lo)%nat -> a !! i = Some v -> v <= x) ->
  (forall i v, (hi <= i)%nat -> a !! i = Some v -> x < v) ->
  (lo <= bisect_loop a x lo hi <= hi)%nat
  /\ (forall i v, (i < bisect_loop a x lo hi)%nat -> a !! i = Some v -> v <= x)
  /\ (forall i v, (bisect_loop a x lo hi <= i)%nat -> a !! i = Some v -> x < v).
Proof.
  intros Hs. funelim (bisect_loop a x lo hi); intros Hb Hlo Hhi.
  - split; [lia|]. split; [done|].
    intros i v Hi Hv. apply (Hhi i); [lia|done].
  - assert (Hm := midpoint_bounds lo hi ltac:(assumption)).
    assert (Hmid : a !! ((lo + hi) / 2)%nat = Some (a !!! ((lo + hi) / 2)%nat)).
    { apply list_lookup_lookup_total_lt. lia. }
    destruct H as (? & ? & ?); auto; try lia.
    + intros i v Hi Hv. pose proof (Hs _ _ _ _ Hi Hmid Hv). lia.
    + split; [lia|]. split; done.
  - assert (Hm := midpoint_bounds lo hi ltac:(assumption)).
    assert (Hmid : a !! ((lo + hi) / 2)%nat = Some (a !!! ((lo + hi) / 2)%nat)).
    { apply list_lookup_lookup_total_lt. lia. }
    destruct H as (? & ? & ?); auto; try lia.
    + intros i v Hi Hv.
      assert (v <= a !!! ((lo + hi) / 2)%nat) by (eapply (Hs i); [|done|done]; lia).
      lia.
    + split; [lia|]. split; done.
Qed.

Lemma bisect_right_spec a x :
  sorted_le a ->
  (bisect_right a x <= length a)%nat
  /\ (forall i v, (i < bisect_right a x)%nat -> a !! i = Some v -> v <= x)
  /\ (forall i v, (bisect_right a x <= i)%nat -> a !! i = Some v -> x < v).
Proof.
  intros Hs. unfold bisect_right.
  destruct (bisect_loop_spec a x 0 (length a)) as (? & ? & ?); auto; try lia.
  - intros i v Hi Hv. apply lookup_lt_Some in Hv. lia.
  - split; [lia|]. split; done.
Qed.

(** Nothing is found below the first start, sorted or not. *)
Lemma bisect_loop_all_gt a x lo hi :
  lo = 0%nat -> (hi <= length a)%nat ->
  (forall i v, a !! i = Some v -> x < v) ->
  bisect_loop a x lo hi = 0%nat.
Proof.
  funelim (bisect_loop a x lo hi); intros Hlo Hhi Hall.
  - done.
  - assert (Hm := midpoint_bounds lo hi ltac:(assumption)). apply H; auto. lia.
  - assert (Hm := midpoint_bounds lo hi ltac:(assumption)). exfalso.
    match goal with Hn : ¬ (x < _) |- _ => apply Hn end.
    apply (Hall ((lo + hi) / 2)%nat). apply list_lookup_lookup_total_lt. lia.
Qed.

(** *** The start-to-span dictionary *)

Lemma dict_of_acc_notin {V} (l : list (Z * V)) (m : gmap Z V) k :
  k ∉ l.*1 -> foldl (fun m kv => <[kv.1 := kv.2]> m) m l !! k = m !! k.
Proof.
  revert m. induction l as [|[k' v'] l IH]; intros m Hk; simpl; [done|].
  rewrite fmap_cons in Hk. apply not_elem_of_cons in Hk as [Hne Hk].
  rewrite IH by done. by rewrite lookup_insert_ne.
Qed.

Lemma dict_of_lookup {V} (l : list (Z * V)) k v :
  NoDup l.*1 -> (k, v) ∈ l -> dict_of l !! k = Some v.
Proof.
  unfold dict_of. generalize (∅ : gmap Z V).
  induction l as [|[k' v'] l IH]; intros m Hnd Hin.
  - by apply elem_of_nil in Hin.
  - rewrite fmap_cons in Hnd. apply NoDup_cons in Hnd as [Hk' Hnd].
    apply elem_of_cons in Hin as [E|Hin]; simpl.
    + injection E as -> ->. rewrite dict_of_acc_notin by done.
      by rewrite lookup_insert_eq.
    + by apply IH.
Qed.

(** *** The table built by [span_checker.__init__] *)

Lemma starts_increasing cm ps i j u v :
  0 < ps -> (i < j)%nat ->
  (start <$> spans cm ps) !! i = Some u ->
  (start <$> spans cm ps) !! j = Some v ->
  u < v.
Proof.
  intros Hps Hij Hi Hj. rewrite list_lookup_fmap in Hi, Hj.
  destruct (spans cm ps !! i) as [s|] eqn:Es; [|done].
  destruct (spans cm ps !! j) as [s'|] eqn:Es'; [|done].
  injection Hi as <-. injection Hj as <-.
  pose proof (spans_from_sorted cm ps 1 i j s s' Hij Es Es').
  apply list_elem_of_lookup_2, spans_from_elems in Es as (_ & -> & _).
  apply list_elem_of_lookup_2, spans_from_elems in Es' as (_ & -> & _).
  nia.
Qed.

Lemma starts_sorted cm ps : 0 < ps -> sorted_le (start <$> spans cm ps).
Proof.
  intros Hps i j u v Hij Hi Hj.
  destruct (decide (i = j)) as [->|Hne]; [assert (u = v) by congruence; lia|].
  assert (u < v); [|lia].
  eapply (starts_increasing cm ps i j); eauto. lia.
Qed.

Lemma starts_NoDup cm ps : 0 < ps -> NoDup (start <$> spans cm ps).
Proof.
  intros Hps. apply NoDup_alt. intros i j u Hi Hj.
  destruct (Nat.lt_trichotomy i j) as [Hlt|[->|Hlt]]; [|done|].
  - pose proof (starts_increasing cm ps i j u u Hps Hlt Hi Hj). lia.
  - pose proof (starts_increasing cm ps j i u u Hps Hlt Hj Hi). lia.
Qed.

Lemma start_to_span_lookup cm ps s :
  0 < ps -> s ∈ spans cm ps ->
  _start_to_span (span_checker_init cm ps) !! start s = Some s.
Proof.
  intros Hps Hin. unfold span_checker_init; simpl.
  apply dict_of_lookup.
  - rewrite <- list_fmap_compose. by apply starts_NoDup.
  - apply list_elem_of_fmap. by exists s.
Qed.

(** C3: [get_span] returns the span with the greatest start that is at
    most the address, provided the address lies below the end of that
    span ([start + span_size * page_size]); it returns [None] when the
    address is at or past that end, and when no span starts at or below
    the address. *)
Theorem C3_get_span (cm : cpu_mem_t) (ps ptr : Z) :
  0 < ps ->
  ((forall s, s ∈ spans cm ps -> ptr < start s) ->
   get_span (span_checker_init cm ps) ptr = Ok None)
  /\ (forall s, s ∈ spans cm ps -> start s <= ptr ->
      (forall s', s' ∈ spans cm ps -> start s' <= ptr -> start s' <= start s) ->
      get_span (span_checker_init cm ps) ptr
      = Ok (if decide (ptr < start s + Z.of_nat (span_size (page s)) * ps)
            then Some s else None)).
Proof.
  intros Hps.
  destruct (bisect_right_spec (start <$> spans cm ps) ptr (starts_sorted cm ps Hps))
    as (Hlen & Hle & Hgt).
  split.
  - intros Hall. unfold get_span.
    change (_starts (span_checker_init cm ps)) with (start <$> spans cm ps).
    destruct (decide (bisect_right (start <$> spans cm ps) ptr = 0%nat)) as [|Hne]; [done|].
    exfalso.
    destruct ((start <$> spans cm ps) !! 0%nat) as [v|] eqn:E.
    + assert (v <= ptr) by (apply (Hle 0%nat); [lia|done]).
      rewrite list_lookup_fmap in E.
      destruct (spans cm ps !! 0%nat) as [s|] eqn:Es; [|done]. injection E as <-.
      apply list_elem_of_lookup_2, Hall in Es. lia.
    + apply lookup_ge_None in E. lia.
  - intros s Hin Hs Hmax. unfold get_span.
    change (_starts (span_checker_init cm ps)) with (start <$> spans cm ps).
    change (_page_size (span_checker_init cm ps)) with ps.
    set (r := bisect_right (start <$> spans cm ps) ptr) in *.
    apply list_elem_of_lookup in Hin as [j Hj].
    assert (Hjs : (start <$> spans cm ps) !! j = Some (start s))
      by (by rewrite list_lookup_fmap, Hj).
    assert (Hjr : (j < r)%nat).
    { destruct (decide (j < r)%nat); [done|].
      assert (ptr < start s) by (apply (Hgt j); [lia|done]). lia. }
    destruct (decide (r = 0%nat)); [lia|].
    assert (Hr : (r - 1 < length (start <$> spans cm ps))%nat) by lia.
    destruct ((start <$> spans cm ps) !! (r - 1)%nat) as [v|] eqn:Ev;
      [|apply lookup_ge_None in Ev; lia].
    rewrite (list_lookup_total_correct _ _ _ Ev).
    assert (v = start s) as ->.
    { assert (v <= ptr) by (apply (Hle (r - 1)%nat); [lia|done]).
      assert (start s <= v).
      { apply (starts_sorted cm ps Hps j (r - 1)%nat); [lia|done|done]. }
      rewrite list_lookup_fmap in Ev.
      destruct (spans cm ps !! (r - 1)%nat) as [s'|] eqn:Es'; [|done].
      injection Ev as <-.
      apply list_elem_of_lookup_2 in Es'. specialize (Hmax s' Es'). lia. }
    rewrite start_to_span_lookup by (done || by eapply list_elem_of_lookup_2).
    destruct (decide (start s + Z.of_nat (span_size (page s)) * ps <= ptr));
      destruct (decide (ptr < start s + Z.of_nat (span_size (page s)) * ps));
      (done || lia).
Qed.
End span_table_facts.

Section span_table_claims.
Import Seastar.

(** The address 0x104064 of the example lies in the pool span that
    starts at page 4. *)
Lemma C3_get_span_witness :
  get_span (span_checker_init Examples.example_cpu_mem 4096) 0x104064
  = Ok (Some (mk_span 4 0x104000 (Examples.pages_of Examples.example_pages 4))).
Proof.
  apply (proj2 (C3_get_span Examples.example_cpu_mem 4096 0x104064 ltac:(lia))
           (mk_span 4 0x104000 (Examples.pages_of Examples.example_pages 4))).
  - apply list_elem_of_In. vm_compute. tauto.
  - vm_compute. discriminate.
  - intros s' Hin. apply list_elem_of_In in Hin. vm_compute in Hin.
    destruct Hin as [<-|[<-|[<-|[]]]]; vm_compute; intros; discriminate.
Defined.

Lemma spans_from_ext cm cm' ps idx :
  memory cm = memory cm' -> nr_pages cm = nr_pages cm' ->
  (forall i, (idx <= i)%nat -> pages cm i = pages cm' i) ->
  spans_from cm ps idx = spans_from cm' ps idx.
Proof.
  funelim (spans_from cm ps idx); intros Hm Hn Hp;
    rewrite (spans_from_eq cm' page_size idx); rewrite <- Hn; rewrite <- (Hp idx) by lia.
  - by destruct (decide (idx < nr_pages cm)%nat).
  - destruct (decide (idx < nr_pages cm)%nat); [|lia].
    rewrite Heq. apply H; auto. intros; apply Hp; lia.
  - destruct (decide (idx < nr_pages cm)%nat); [|lia].
    rewrite Heq, <- Hm. f_equal. apply H; auto. intros; apply Hp; lia.
Qed.

(** C10: the scan of the page array starts at index 1.  Every span has an
    index of at least 1 and starts at least one page past the start of
    the memory; what page 0 holds, a nonzero span length included, has no
    effect on the spans produced; and [get_span] returns [None] for every
    address inside the first page. *)
Theorem C10_spans_skip_page_zero (cm : cpu_mem_t) (ps : Z) :
  0 < ps ->
  (forall s, s ∈ spans cm ps -> (1 <= index s)%nat /\ memory cm + ps <= start s)
  /\ (forall p0, spans (Seastar.with_page0 cm p0) ps = spans cm ps)
  /\ (forall ptr, memory cm <= ptr < memory cm + ps ->
       get_span (span_checker_init cm ps) ptr = Ok None).
Proof.
  intros Hps.
  assert (Hfirst : forall s, s ∈ spans cm ps ->
            (1 <= index s)%nat /\ memory cm + ps <= start s).
  { intros s Hin. apply spans_from_elems in Hin as (Hidx & -> & _). split; [lia|nia]. }
  split; [done|]. split.
  - intros p0. unfold spans. apply spans_from_ext; [done|done|].
    intros [|i] Hi; [lia|done].
  - intros ptr Hptr. unfold get_span.
    change (_starts (span_checker_init cm ps)) with (start <$> spans cm ps).
    unfold bisect_right. rewrite bisect_loop_all_gt; [done|done|lia|].
    intros i v Hv. rewrite list_lookup_fmap in Hv.
    destruct (spans cm ps !! i) as [s|] eqn:Es; [|done]. injection Hv as <-.
    apply list_elem_of_lookup_2 in Es. destruct (Hfirst s Es). lia.
Qed.

(** In the example page 0 records a span of three pages, and the first
    span still is the one at page 1. *)
Lemma C10_spans_skip_page_zero_witness :
  span_size (pages Examples.example_cpu_mem 0) = 3%nat
  /\ (forall s, s ∈ spans Examples.example_cpu_mem 4096 ->
       (1 <= index s)%nat /\ 0x100000 + 4096 <= start s)
  /\ get_span (span_checker_init Examples.example_cpu_mem 4096) 0x100800 = Ok None.
Proof.
  pose proof (C10_spans_skip_page_zero Examples.example_cpu_mem 4096 ltac:(lia))
    as (Hfirst & _ & Hnone).
  split; [reflexivity|]. split; [exact Hfirst|].
  apply Hnone. change (0x100000 <= 0x100800 < 0x100000 + 4096). lia.
Defined.
End span_table_claims.

Section pointer_classifier.
Import Seastar ScyllaPtr.

Lemma walk_free_list_chain tg p osz head slots fuel :
  free_chain tg head slots ->
  (length slots < fuel)%nat ->
  walk_free_list fuel tg p osz head = Ok (existsb (in_slot p osz) slots).
Proof.
  intros Hc. revert fuel.
  induction Hc as [|slot next rest Hne Hrd Hc IH]; intros fuel Hf.
  - destruct fuel; [simpl in Hf; lia|]. reflexivity.
  - destruct fuel; [simpl in Hf; lia|]. simpl.
    destruct (slot =? 0) eqn:E; [lia|].
    destruct (in_slot p osz slot); [done|].
    rewrite Hrd. simpl. apply IH. simpl in Hf. lia.
Qed.

(** C1, as amended: for an address inside the used prefix of a
    small-pool span, [analyze] reports the pool's object size and
    classifies the address as free exactly when it lies in a slot of the
    pool's free list or of the span's free list.  A live address gets
    [offset_in_object = (offset in span) mod (object size)]; for a free
    address [offset_in_object] is left at 0. *)
Theorem C1_analyze_small_pool (fuel : nat) (tg : target) (p : Z)
    (t : reactor_thread) (s : span) (pool_slots span_slots : list Z) :
  let object_size := _object_size (small_pools tg (pool (page s))) in
  let in_free := existsb (in_slot p object_size) (pool_slots ++ span_slots) in
  owning_thread tg (reactor_threads tg) p = Some t ->
  page_size tg <> 0 ->
  get_span (span_checker_init (cpu_mem t) (page_size tg)) p = Ok (Some s) ->
  Seastar.is_small s = true ->
  p - start s < used_span_size (cpu_mem t) s * page_size tg ->
  object_size <> 0 ->
  free_chain tg (_free (small_pools tg (pool (page s)))) pool_slots ->
  free_chain tg (freelist (page s)) span_slots ->
  (length pool_slots < fuel)%nat ->
  (length span_slots < fuel)%nat ->
  exists m,
    analyze fuel tg p = Ok m
    /\ ScyllaPtr.size m = Some object_size
    /\ ScyllaPtr.is_small m = Some true
    /\ is_live m = Some (negb in_free)
    /\ offset_in_object m = (if in_free then 0 else (p - start s) `mod` object_size).
Proof.
  intros object_size in_free Hown Hps Hspan Hsmall Hused Hosz Hpool Hsp Hf1 Hf2.
  unfold analyze. rewrite Hown.
  destruct (page_size tg =? 0) eqn:E; [lia|].
  rewrite Hspan. cbn [mbind outcome_bind].
  destruct (used_span_size (cpu_mem t) s * page_size tg <=? p - start s) eqn:E2; [lia|].
  rewrite Hsmall. unfold analyze_small. fold object_size.
  destruct (object_size =? 0) eqn:E3; [lia|].
  rewrite (walk_free_list_chain _ _ _ _ _ _ Hpool Hf1).
  cbn [mbind outcome_bind].
  subst in_free. rewrite existsb_app.
  destruct (existsb (in_slot p object_size) pool_slots); cbn [mbind outcome_bind orb].
  - eexists; split; [reflexivity|]. by repeat split.
  - rewrite (walk_free_list_chain _ _ _ _ _ _ Hsp Hf2). cbn [mbind outcome_bind].
    destruct (existsb (in_slot p object_size) span_slots);
      (eexists; split; [reflexivity|]; by repeat split).
Qed.
End pointer_classifier.

Section pointer_classifier_examples.
Import Seastar ScyllaPtr Examples.

(** 0x104048 is 8 bytes into the second object of the pool span, which is
    on neither free list. *)
Lemma C1_analyze_small_pool_witness :
  exists m,
    analyze 10 example_target 0x104048 = Ok m
    /\ ScyllaPtr.size m = Some 64
    /\ ScyllaPtr.is_small m = Some true
    /\ is_live m = Some true
    /\ offset_in_object m = 8.
Proof.
  apply (C1_analyze_small_pool 10 example_target 0x104048 example_thread
           example_pool_span [0x104080; 0x104140] [0x104240]).
  - reflexivity.
  - discriminate.
  - reflexivity.
  - reflexivity.
  - reflexivity.
  - discriminate.
  - apply (free_chain_cons _ _ 0x104140); [discriminate|reflexivity|].
    apply (free_chain_cons _ _ 0); [discriminate|reflexivity|]. constructor.
  - apply (free_chain_cons _ _ 0); [discriminate|reflexivity|]. constructor.
  - simpl; lia.
  - simpl; lia.
Defined.

(** C1 as stated fails for a free address that is not the first byte of
    its slot: 0x104088 lies 8 bytes into the free slot 0x104080, inside
    the used prefix of the pool span, and [analyze] reports
    [offset_in_object = 0], not [0x88 mod 64 = 8]. *)
Lemma C1_counterexample :
  exists m,
    get_span (span_checker_init example_cpu_mem 4096) 0x104088 = Ok (Some example_pool_span)
    /\ Seastar.is_small example_pool_span = true
    /\ 0x104088 - start example_pool_span
       < used_span_size example_cpu_mem example_pool_span * 4096
    /\ analyze 10 example_target 0x104088 = Ok m
    /\ is_live m = Some false
    /\ offset_in_object m = 0
    /\ (0x104088 - start example_pool_span) `mod` 64 = 8
    /\ offset_in_object m <> (0x104088 - start example_pool_span) `mod` 64.
Proof.
  eexists. split; [reflexivity|]. split; [reflexivity|]. split; [reflexivity|].
  split; [vm_compute; reflexivity|]. split; [reflexivity|]. split; [reflexivity|].
  split; [reflexivity|]. discriminate.
Qed.
End pointer_classifier_examples.

Section lsa_descriptor.
Import Lsa.

Lemma land_pow2 (b n : Z) :
  0 <= n -> Z.land b (2 ^ n) = if Z.testbit b n then 2 ^ n else 0.
Proof.
  intros Hn. apply Z.bits_inj'. intros m Hm.
  rewrite Z.land_spec, Z.pow2_bits_eqb by done.
  destruct (Z.eqb_spec n m) as [->|Hne].
  - destruct (Z.testbit b m); [by rewrite Z.pow2_bits_true|by rewrite Z.bits_0].
  - rewrite andb_false_r. destruct (Z.testbit b n); [|by rewrite Z.bits_0].
    by rewrite Z.pow2_bits_false.
Qed.

Lemma land_bit (b : Z) (n : Z) :
  0 <= n -> (Z.land b (2 ^ n) =? 0) = negb (Z.testbit b n).
Proof.
  intros Hn. rewrite land_pow2 by done. destruct (Z.testbit b n); simpl; [|done].
  apply Z.eqb_neq. pose proof (Z.pow_pos_nonneg 2 n). lia.
Qed.

Lemma land_1_bit (v : Z) : (Z.land v 1 =? 1) = Z.testbit v 0.
Proof.
  change 1 with (2 ^ 0) at 1. rewrite land_pow2 by done.
  by destruct (Z.testbit v 0).
Qed.

Lemma byte_bit (c n : Z) :
  0 <= n < 8 -> Z.testbit (Z.land c 0xff) n = Z.testbit c n.
Proof.
  intros Hn. rewrite Z.land_spec. change 0xff with (Z.ones 8).
  rewrite Z.ones_spec_low by lia. apply andb_true_r.
Qed.

Lemma byte_low6 (c : Z) : Z.land (Z.land c 0xff) 0x3f = Z.land c 0x3f.
Proof. by rewrite <- Z.land_assoc. Qed.

Lemma wire_value_nonneg bytes : 0 <= wire_value bytes.
Proof.
  induction bytes as [|c rest IH]; simpl; [done|].
  apply Z.lor_nonneg. split; [apply Z.land_nonneg; lia|by apply Z.shiftl_nonneg].
Qed.

(** Bit [j] of byte [i] is bit [6 i + j] of the value. *)
Lemma wire_value_bits bytes (i : nat) (j c : Z) :
  bytes !! i = Some c -> 0 <= j < 6 ->
  Z.testbit (wire_value bytes) (6 * Z.of_nat i + j) = Z.testbit c j.
Proof.
  revert i. induction bytes as [|c0 rest IH]; intros i Hi Hj; [done|].
  simpl. rewrite Z.lor_spec. destruct i as [|i]; simpl in Hi.
  - injection Hi as ->. rewrite Z.shiftl_spec_low, orb_false_r by lia.
    replace (6 * Z.of_nat 0 + j) with j by lia.
    rewrite Z.land_spec. change 0x3f with (Z.ones 6).
    rewrite Z.ones_spec_low by lia. apply andb_true_r.
  - rewrite Z.shiftl_spec by lia.
    replace (6 * Z.of_nat (S i) + j - 6) with (6 * Z.of_nat i + j) by lia.
    rewrite (IH i Hi Hj).
    rewrite Z.land_spec. change 0x3f with (Z.ones 6).
    rewrite Z.ones_spec_high by lia. by rewrite andb_false_r.
Qed.

(** The value has no bits beyond the six per byte. *)
Lemma wire_value_high_bits bytes (k : Z) :
  6 * Z.of_nat (length bytes) <= k -> Z.testbit (wire_value bytes) k = false.
Proof.
  revert k. induction bytes as [|c rest IH]; intros k Hk.
  - apply Z.bits_0.
  - cbn [length] in Hk. cbn [wire_value].
    rewrite Z.lor_spec, Z.shiftl_spec by lia.
    rewrite IH by lia. rewrite Z.land_spec. change 0x3f with (Z.ones 6).
    rewrite Z.ones_spec_high by lia. by rewrite andb_false_r.
Qed.

(** A descriptor of up to ten bytes has a value that a 64-bit [long]
    holds. *)
Lemma wire_value_fits_long bytes :
  (length bytes <= 10)%nat -> 0 <= wire_value bytes < 2 ^ 63.
Proof.
  intros Hlen. pose proof (wire_value_nonneg bytes) as Hnn. split; [done|].
  destruct (Z.eq_dec (wire_value bytes) 0) as [->|Hne]; [done|].
  apply Z.log2_lt_pow2; [lia|].
  destruct (Z_lt_le_dec (Z.log2 (wire_value bytes)) (6 * Z.of_nat (length bytes)))
    as [Hlt|Hge]; [lia|].
  pose proof (wire_value_high_bits bytes _ Hge) as Hbit.
  rewrite Z.bit_log2 in Hbit by lia. done.
Qed.

(** *** Arithmetic on [long] *)

Lemma to_long_fits (x : Z) : 0 <= x < 2 ^ 63 -> to_long x = x.
Proof. intros Hx. unfold to_long. rewrite Z.mod_small by lia. lia. Qed.

(** A shift whose exact result a [long] holds is exact. *)
Lemma long_lshift_fits (x n : Z) :
  0 <= x -> 0 <= n -> Z.shiftl x n < 2 ^ 63 -> long_lshift x n = Z.shiftl x n.
Proof.
  intros Hx Hn Hfit. unfold long_lshift. destruct (n <? 64) eqn:E.
  - apply to_long_fits. split; [by apply Z.shiftl_nonneg|done].
  - apply Z.ltb_ge in E. rewrite Z.shiftl_mul_pow2 in * by done.
    assert (2 ^ 64 <= 2 ^ n) by (apply Z.pow_le_mono_r; lia).
    assert (x = 0) by nia. subst x. done.
Qed.

Lemma lor_lt_pow2_inv (a b n : Z) :
  0 <= a -> 0 <= b -> Z.lor a b < 2 ^ n -> a < 2 ^ n /\ b < 2 ^ n.
Proof.
  intros Ha Hb Hlt.
  assert (Hor : 0 <= Z.lor a b) by (by apply Z.lor_nonneg).
  destruct (Z.eq_dec (Z.lor a b) 0) as [E|Hne].
  - apply Z.lor_eq_0_iff in E as [-> ->]. lia.
  - assert (Hlog : Z.log2 (Z.lor a b) < n) by (apply Z.log2_lt_pow2; lia).
    rewrite Z.log2_lor in Hlog by done.
    split.
    + destruct (Z.eq_dec a 0) as [->|?]; [lia|]. apply Z.log2_lt_pow2; lia.
    + destruct (Z.eq_dec b 0) as [->|?]; [lia|]. apply Z.log2_lt_pow2; lia.
Qed.

(** The loop stops at once on a byte that has bit 7 set. *)
Lemma decode_loop_stop bytes pos b value shift :
  Z.testbit b 7 = true -> decode_loop bytes pos b value shift = Ok (value, pos).
Proof.
  intros Hb. destruct bytes; cbn [decode_loop];
    change 128 with (2 ^ 7); rewrite land_bit, Hb by lia; done.
Qed.

(** The loop reads up to the closing byte, whatever the value comes to. *)
Lemma decode_loop_reads more last rest pos b value shift :
  Z.testbit b 7 = false ->
  Forall (fun c => Z.testbit c 7 = false) more ->
  Z.testbit last 7 = true ->
  exists v,
    decode_loop (more ++ last :: rest) pos b value shift
    = Ok (v, pos + Z.of_nat (length (more ++ [last]))).
Proof.
  revert pos b value shift.
  induction more as [|c more IH]; intros pos b value shift Hb Hmore Hlast.
  - cbn [app decode_loop]. change 128 with (2 ^ 7). rewrite land_bit, Hb by lia.
    cbn [negb]. rewrite decode_loop_stop by (by rewrite byte_bit by lia).
    eexists. do 2 f_equal.
  - apply Forall_cons in Hmore as [Hc Hmore].
    cbn [app decode_loop]. change 128 with (2 ^ 7). rewrite land_bit, Hb by lia.
    cbn [negb].
    edestruct (IH (pos + 1) (Z.land c 255)) as [v ->];
      [by rewrite byte_bit by lia|done|done|].
    eexists. do 2 f_equal. cbn [length app]. lia.
Qed.

(** As long as the value fits a [long], it is the wire value. *)
Lemma decode_loop_run more last rest pos b value shift :
  Z.testbit b 7 = false ->
  Forall (fun c => Z.testbit c 7 = false) more ->
  Z.testbit last 7 = true ->
  0 <= shift ->
  Z.shiftl (wire_value (more ++ [last])) (shift + 6) < 2 ^ 63 ->
  decode_loop (more ++ last :: rest) pos b value shift
  = Ok (Z.lor value (Z.shiftl (wire_value (more ++ [last])) (shift + 6)),
        pos + Z.of_nat (length (more ++ [last]))).
Proof.
  revert pos b value shift.
  induction more as [|c more IH]; intros pos b value shift Hb Hmore Hlast Hs Hfit.
  - cbn [app decode_loop]. change 128 with (2 ^ 7). rewrite land_bit, Hb by lia.
    cbn [negb]. rewrite decode_loop_stop by (by rewrite byte_bit by lia).
    cbn [app wire_value] in *. rewrite Z.shiftl_0_l, Z.lor_0_r in *.
    rewrite byte_low6, long_lshift_fits; [done| |lia|done].
    apply Z.land_nonneg. lia.
  - apply Forall_cons in Hmore as [Hc Hmore].
    cbn [app wire_value] in Hfit.
    rewrite Z.shiftl_lor, Z.shiftl_shiftl in Hfit by lia.
    apply lor_lt_pow2_inv in Hfit as [Hfit1 Hfit2];
      [|apply Z.shiftl_nonneg, Z.land_nonneg; lia
       |apply Z.shiftl_nonneg, wire_value_nonneg].
    cbn [app decode_loop]. change 128 with (2 ^ 7). rewrite land_bit, Hb by lia.
    cbn [negb]. rewrite IH; [|by rewrite byte_bit by lia|done|done|lia|].
    + f_equal. f_equal.
      * rewrite byte_low6, long_lshift_fits; [| |lia|done].
        -- cbn [wire_value app].
           rewrite Z.shiftl_lor, Z.shiftl_shiftl, Z.lor_assoc by lia.
           do 2 f_equal. lia.
        -- apply Z.land_nonneg. lia.
      * cbn [length app]. lia.
    + by replace (shift + 6 + 6) with (6 + (shift + 6)) by lia.
Qed.

Lemma decode_terminated pos body last rest :
  terminated body last ->
  Z.testbit (hd last body) 6 = true ->
  wire_value (body ++ [last]) < 2 ^ 63 ->
  decode pos ((body ++ [last]) ++ rest)
  = Ok (mk_descriptor (wire_value (body ++ [last])) pos
          (pos + Z.of_nat (length (body ++ [last])))).
Proof.
  intros [Hbody Hlast] Hfirst Hfit. rewrite <- app_assoc. cbn [app].
  destruct body as [|c more]; cbn [hd] in Hfirst; cbn [app decode].
  - change 64 with (2 ^ 6). rewrite land_bit, byte_bit, Hfirst by lia. cbn [negb].
    rewrite decode_loop_stop by (by rewrite byte_bit by lia).
    cbn [mbind outcome_bind fst snd wire_value length].
    rewrite byte_low6, Z.shiftl_0_l, Z.lor_0_r. do 2 f_equal.
  - apply Forall_cons in Hbody as [Hc Hmore].
    cbn [app wire_value] in Hfit.
    apply lor_lt_pow2_inv in Hfit as [_ Hfit];
      [|apply Z.land_nonneg; lia|apply Z.shiftl_nonneg, wire_value_nonneg].
    change 64 with (2 ^ 6). rewrite land_bit, byte_bit, Hfirst by lia. cbn [negb].
    rewrite decode_loop_run; [|by rewrite byte_bit by lia|done|done|lia|done].
    cbn [mbind outcome_bind fst snd wire_value length].
    rewrite byte_low6. do 2 f_equal. lia.
Qed.

(** A descriptor whose bytes can be read and whose first byte has bit 6
    set is decoded, of whatever length it is. *)
Lemma decode_terminated_reads pos body last rest :
  terminated body last ->
  Z.testbit (hd last body) 6 = true ->
  exists v,
    decode pos ((body ++ [last]) ++ rest)
    = Ok (mk_descriptor v pos (pos + Z.of_nat (length (body ++ [last])))).
Proof.
  intros [Hbody Hlast] Hfirst. rewrite <- app_assoc. cbn [app].
  destruct body as [|c more]; cbn [hd] in Hfirst; cbn [app decode].
  - change 64 with (2 ^ 6). rewrite land_bit, byte_bit, Hfirst by lia. cbn [negb].
    rewrite decode_loop_stop by (by rewrite byte_bit by lia).
    cbn [mbind outcome_bind fst snd length]. eexists. do 2 f_equal.
  - apply Forall_cons in Hbody as [Hc Hmore].
    change 64 with (2 ^ 6). rewrite land_bit, byte_bit, Hfirst by lia. cbn [negb].
    edestruct (decode_loop_reads more last rest (pos + 1) (Z.land c 255)) as [v ->];
      [by rewrite byte_bit by lia|done|done|].
    cbn [mbind outcome_bind fst snd length]. eexists. do 2 f_equal. lia.
Qed.

Lemma decode_bad_tag pos c rest :
  Z.testbit c 6 = false ->
  decode pos (c :: rest) = Raise (BadDescriptor pos (Z.land c 0xff)).
Proof.
  intros Hc. cbn [decode]. change 64 with (2 ^ 6).
  by rewrite land_bit, byte_bit, Hc by lia.
Qed.

Lemma decode_loop_no_bad_tag bytes pos b value shift p b' :
  decode_loop bytes pos b value shift <> Raise (BadDescriptor p b').
Proof.
  revert pos b value shift. induction bytes as [|c rest IH]; intros pos b value shift.
  - cbn [decode_loop]. by destruct (Z.land b 128 =? 0).
  - cbn [decode_loop]. destruct (Z.land b 128 =? 0); [apply IH|done].
Qed.

(** C2: when the first byte has bit 6 set and the descriptor is at most
    ten bytes long (or, more generally, its value is one that a 64-bit
    [long] holds), [decode] reads the bytes up to and including the
    first one with bit 7 set, and its value holds six bits of each byte
    read, byte 0 lowest.  Bit 0 of the value is the liveness flag; for a
    dead descriptor the remaining bits ([value >> 1]) are the length of
    the dead run, and the descriptor's end is its start plus that
    length. *)
Theorem C2_decode_value (pos : Z) (body : list Z) (last : Z) (rest : list Z) :
  terminated body last ->
  Z.testbit (hd last body) 6 = true ->
  (length (body ++ [last]) <= 10)%nat \/ wire_value (body ++ [last]) < 2 ^ 63 ->
  exists d,
    decode pos ((body ++ [last]) ++ rest) = Ok d
    /\ desc_pos d = pos
    /\ obj_pos d = pos + Z.of_nat (length (body ++ [last]))
    /\ value d = wire_value (body ++ [last])
    /\ (forall (i : nat) (j c : Z), (body ++ [last]) !! i = Some c -> 0 <= j < 6 ->
         Z.testbit (value d) (6 * Z.of_nat i + j) = Z.testbit c j)
    /\ (forall k, 6 * Z.of_nat (length (body ++ [last])) <= k ->
         Z.testbit (value d) k = false)
    /\ is_live d = Z.testbit (value d) 0
    /\ (is_live d = false ->
        dead_size d = Z.shiftr (value d) 1
        /\ forall live_size, end_pos live_size d = pos + Z.shiftr (value d) 1).
Proof.
  intros Hterm Hfirst Hfit.
  assert (Hlong : wire_value (body ++ [last]) < 2 ^ 63).
  { destruct Hfit as [Hlen|Hlt]; [by apply wire_value_fits_long|done]. }
  eexists. split; [by apply decode_terminated|].
  cbn [desc_pos obj_pos value]. repeat split; try done.
  - intros i j c. apply wire_value_bits.
  - apply wire_value_high_bits.
  - apply land_1_bit.
  - unfold dead_size. cbn [value].
    rewrite Z.shiftr_div_pow2 by lia.
    apply Z.quot_div_nonneg; [apply wire_value_nonneg|lia].
  - intros live_size. unfold end_pos. rewrite H. unfold dead_size.
    cbn [value desc_pos]. rewrite Z.shiftr_div_pow2 by lia.
    rewrite Z.quot_div_nonneg; [done|apply wire_value_nonneg|lia].
Qed.

(** The two-byte descriptor 0x54 0x81 of a dead run: value
    [0x14 + (1 << 6) = 84], dead, 42 bytes long. *)
Lemma C2_decode_value_witness :
  exists d,
    decode 0x1000 [0x54; 0x81; 0x00; 0x00] = Ok d
    /\ desc_pos d = 0x1000
    /\ obj_pos d = 0x1002
    /\ value d = 84
    /\ is_live d = false
    /\ dead_size d = 42
    /\ end_pos (fun _ => 0) d = 0x1000 + 42.
Proof.
  destruct (C2_decode_value 0x1000 [0x54] 0x81 [0x00; 0x00])
    as (d & Hd & ? & ? & Hv & _ & _ & Hl & Hdead).
  - split; [repeat constructor|reflexivity].
  - reflexivity.
  - left. simpl. lia.
  - change (wire_value ([84] ++ [129])) with 84 in Hv.
    assert (Hlive : is_live d = false) by (by rewrite Hl, Hv).
    destruct (Hdead Hlive) as [Hds Hend].
    exists d. repeat split; try done.
    + by rewrite Hds, Hv.
    + by rewrite Hend, Hv.
Defined.

(** C2 as stated, for every byte sequence, fails from eleven bytes on.
    In the descriptor 0x7e, nine times 0x3f, 0xbf the first byte has
    bit 6 set, only the last has bit 7 set, and the six bits of the
    eleventh byte are shifted by 60: bits 64 and 65 are lost and bit 63
    is the sign.  The value decoded is -2, not [2^66 - 2]; the descriptor is
    dead, its length is [-2 / 2 = -1], and its end lies one byte before
    its start. *)
Lemma C2_counterexample :
  let bytes := [0x7e; 0x3f; 0x3f; 0x3f; 0x3f; 0x3f; 0x3f; 0x3f; 0x3f; 0x3f; 0xbf] in
  exists d,
    terminated (removelast bytes) 0xbf
    /\ Z.testbit (hd 0xbf bytes) 6 = true
    /\ decode 0x1000 bytes = Ok d
    /\ obj_pos d = 0x1000 + 11
    /\ wire_value bytes = 2 ^ 66 - 2
    /\ value d = -2
    /\ is_live d = false
    /\ dead_size d = -1
    /\ end_pos (fun _ => 0) d = 0x1000 - 1
    /\ value d <> wire_value bytes
    /\ end_pos (fun _ => 0) d <> 0x1000 + Z.shiftr (wire_value bytes) 1.
Proof.
  eexists. split; [split; [repeat constructor|reflexivity]|].
  split; [reflexivity|]. split; [vm_compute; reflexivity|].
  split; [reflexivity|]. split; [reflexivity|]. split; [reflexivity|].
  split; [reflexivity|]. split; [reflexivity|]. split; [reflexivity|].
  split; discriminate.
Qed.
End lsa_descriptor.

Section lsa_errors.
Import Lsa.

(** C7: [decode] raises its descriptor error exactly when the first byte
    lacks bit 6 (0x40), and, as long as the bytes up to the closing byte
    of the descriptor can be read, this is its only failure.  The
    exception carries no descriptor, and the segment loop ends with it:
    nothing after the failing position is decoded. *)
Theorem C7_decode_bad_tag :
  (forall pos bytes p b,
     decode pos bytes = Raise (BadDescriptor p b)
     <-> exists c rest, bytes = c :: rest /\ Z.testbit c 6 = false
                        /\ p = pos /\ b = Z.land c 0xff)
  /\ (forall pos body last rest, terminated body last ->
        (exists e, decode pos ((body ++ [last]) ++ rest) = Raise e)
        <-> Z.testbit (hd last body) 6 = false)
  /\ (forall live_size logalloc_alignment fuel m seg seg_end e,
        seg < seg_end ->
        decode seg (bytes_from m seg) = Raise e ->
        segment_loop live_size logalloc_alignment (S fuel) m seg seg_end
        = ([], Raise e)).
Proof.
  split; [|split].
  - intros pos bytes p b. split.
    + destruct bytes as [|c rest]; [done|].
      destruct (Z.testbit c 6) eqn:Hc.
      * cbn [decode]. change 64 with (2 ^ 6). rewrite land_bit, byte_bit, Hc by lia. cbn [negb].
        destruct (decode_loop rest (pos + 1) (Z.land c 255) (Z.land (Z.land c 255) 63) 0)
          as [r|e|] eqn:E; cbn [mbind outcome_bind]; [done| |done].
        intros [= ->]. by apply decode_loop_no_bad_tag in E.
      * rewrite (decode_bad_tag pos c rest Hc). intros [= <- <-]. by exists c, rest.
    + intros (c & rest & -> & Hc & -> & ->). by apply decode_bad_tag.
  - intros pos body last rest Hterm. split.
    + intros [e He]. destruct (Z.testbit (hd last body) 6) eqn:Hc; [|done].
      destruct (decode_terminated_reads pos body last rest Hterm Hc) as [v Hv].
      by rewrite Hv in He.
    + intros Hc. rewrite <- app_assoc.
      destruct body as [|c more]; cbn [hd app] in *;
        eexists; by apply decode_bad_tag.
  - intros live_size logalloc_alignment fuel m seg seg_end e Hlt He.
    cbn [segment_loop]. destruct (seg <? seg_end) eqn:E; [|lia]. by rewrite He.
Qed.

(** A segment whose first descriptor is a dead run of 8 bytes and whose
    second descriptor starts with 0x14, a byte without bit 6: the first
    descriptor is printed, decoding stops with the error at 0x1008. *)
Lemma C7_decode_bad_tag_witness :
  decode 0x1008 [0x14; 0xd0; 0x00] = Raise (BadDescriptor 0x1008 0x14)
  /\ scylla_lsa_segment (fun _ => 0) 8 16 5
       (mk_memory 0x1000 [0xd0; 0; 0; 0; 0; 0; 0; 0; 0x14; 0xd0; 0; 0; 0; 0; 0; 0])
       0x1003
     = ([mk_descriptor 16 0x1000 0x1001], Raise (BadDescriptor 0x1008 0x14)).
Proof.
  destruct C7_decode_bad_tag as (Hbad & _ & _).
  split.
  - apply Hbad. by exists 0x14, [0xd0; 0x00].
  - vm_compute. reflexivity.
Defined.
End lsa_errors.

Section heap_profile.
Import HeapProf.

Lemma map_in_map {A B} (f : A -> B) (l : list A) :
  map_in l (fun x _ => f x) = map f l.
Proof. induction l as [|x l IH]; simpl; [done|]. by rewrite IH. Qed.

Lemma collapse_similar_eq (n : ProfNode) :
  collapse_similar n =
  Node (key (squash_loop n)) (size (squash_loop n)) (count (squash_loop n))
       (tail (squash_loop n)) (map collapse_similar (children (squash_loop n))).
Proof. rewrite collapse_similar_equation_1. by rewrite map_in_map. Qed.

Lemma is_path_children n n' path :
  children n = children n' -> is_path n path -> is_path n' path.
Proof. destruct path; simpl; [done|]. by intros ->. Qed.

Lemma last_cons_any {A} (l : list A) (x d d' : A) :
  List.last (x :: l) d = List.last (x :: l) d'.
Proof.
  revert x. induction l as [|y l IH]; intros x; [done|].
  change (List.last (y :: l) d = List.last (y :: l) d'). apply IH.
Qed.

(** The loop at one node: the nodes merged form a path of only children
    that all have the node's attributes; their keys are appended to the
    tail in that order, the children of the last one are taken over, and
    the path cannot be extended. *)
Lemma squash_loop_path (n : ProfNode) :
  exists path,
    is_path n path
    /\ Forall (fun c => attributes c = attributes n) path
    /\ squash_loop n
       = Node (key n) (size n) (count n) (tail n ++ map key path)
              (children (List.last path n))
    /\ (forall c, children (List.last path n) = [c] -> attributes c <> attributes n).
Proof.
  funelim (squash_loop n).
  - exists []. simpl. rewrite app_nil_r. repeat split; auto.
  - exists []. simpl. rewrite app_nil_r. repeat split; auto.
  - destruct H as (path & Hp & Hall & Heq' & Hmax).
    exists (child :: path). split; [|split; [|split]].
    + split; [done|]. eapply is_path_children; [|exact Hp]. done.
    + constructor; [unfold attributes in *; simpl; congruence|exact Hall].
    + rewrite Heq'. cbn [key size count tail map]. rewrite <- app_assoc. cbn [app].
      f_equal. destruct path as [|p path']; [done|].
      change (List.last (child :: p :: path') (Node k s c t [child]))
        with (List.last (p :: path') (Node k s c t [child])).
      f_equal. apply last_cons_any.
    + intros c0 Hc. apply Hmax.
      destruct path as [|p path']; [done|].
      change (List.last (child :: p :: path') (Node k s c t [child]))
        with (List.last (p :: path') (Node k s c t [child])) in Hc.
      by rewrite (last_cons_any _ _ _ (Node k s c t [child])).
  - exists []. simpl. rewrite app_nil_r. repeat split; auto.
    intros c0 [= <-]. unfold attributes in *. simpl. congruence.
Qed.

Lemma nodes_self n : In n (nodes n).
Proof. destruct n; simpl; auto. Qed.

Lemma nodes_child n c m : In c (children n) -> In m (nodes c) -> In m (nodes n).
Proof.
  destruct n as [k s cnt t ch]; simpl. intros Hc Hm. right.
  apply in_concat. exists (nodes c). split; [|done]. by apply in_map.
Qed.

Lemma nodes_path n path m :
  is_path n path -> In m (nodes (List.last path n)) -> In m (nodes n).
Proof.
  revert n. induction path as [|c path IH]; intros n Hp Hm; [done|].
  destruct Hp as [Hc Hp]. apply (nodes_child n c); [rewrite Hc; by left|].
  apply IH; [done|]. destruct path as [|p path']; [done|].
  change (List.last (c :: p :: path') n) with (List.last (p :: path') n) in Hm.
  by rewrite (last_cons_any _ _ _ n).
Qed.

Lemma collapse_similar_attributes n :
  key (collapse_similar n) = key n
  /\ size (collapse_similar n) = size n
  /\ count (collapse_similar n) = count n.
Proof.
  rewrite collapse_similar_eq. cbn [key size count].
  destruct (squash_loop_path n) as (path & _ & _ & -> & _). done.
Qed.

Lemma collapse_similar_nodes (bound : nat) (root m' : ProfNode) :
  (node_count root <= bound)%nat ->
  In m' (nodes (collapse_similar root)) ->
  (forall c, children m' = [c] -> attributes m' <> attributes c)
  /\ exists m path,
       In m (nodes root)
       /\ is_path m path
       /\ Forall (fun c => attributes c = attributes m) path
       /\ key m' = key m /\ size m' = size m /\ count m' = count m
       /\ tail m' = tail m ++ map key path.
Proof.
  revert root m'. induction bound as [|bound IH]; intros root m' Hb Hin.
  { destruct root; simpl in Hb; lia. }
  destruct (squash_loop_path root) as (path & Hp & Hall & Hsq & Hmax).
  pose proof (squash_loop_count root) as Hcount.
  rewrite collapse_similar_eq, Hsq in Hin. cbn [key size count tail children nodes] in Hin.
  rewrite Hsq in Hcount.
  destruct Hin as [<-|Hin].
  - split.
    + cbn [children]. intros c Hc.
      destruct (children (List.last path root)) as [|c0 [|c1 rest]] eqn:Ech;
        try discriminate.
      injection Hc as <-.
      destruct (collapse_similar_attributes c0) as (_ & Hs & Hc).
      unfold attributes. cbn [size count]. rewrite Hs, Hc.
      intros E. apply (Hmax c0 eq_refl). unfold attributes. congruence.
    + exists root, path. split; [apply nodes_self|]. by repeat split.
  - apply in_concat in Hin as (l & Hl & Hin).
    apply in_map_iff in Hl as (c' & <- & Hc').
    apply in_map_iff in Hc' as (c0 & <- & Hc0).
    assert (Hlt : (node_count c0 <= bound)%nat).
    { pose proof (node_count_child (Node (key root) (size root) (count root)
                     (tail root ++ map key path) (children (List.last path root)))
                    c0 Hc0). lia. }
    destruct (IH c0 m' Hlt Hin) as (Hno & m & path' & Hm & Hrest).
    split; [done|]. exists m, path'. split; [|done].
    apply (nodes_path root path); [done|]. by apply (nodes_child _ c0).
Qed.

(** C8: after [collapse_similar], no node of the tree has exactly one
    child with the node's (size, count); every node left in the tree is
    a node of the original tree with its key, size and count unchanged,
    and its tail is the original tail followed by the keys of the
    children merged into it, in the order of merging (the only child,
    then that child's only child, and so on). *)
Theorem C8_collapse_similar (root m' : ProfNode) :
  In m' (nodes (collapse_similar root)) ->
  (forall c, children m' = [c] -> attributes m' <> attributes c)
  /\ exists m path,
       In m (nodes root)
       /\ is_path m path
       /\ Forall (fun c => attributes c = attributes m) path
       /\ key m' = key m /\ size m' = size m /\ count m' = count m
       /\ tail m' = tail m ++ map key path.
Proof. apply (collapse_similar_nodes (node_count root)). lia. Qed.

(** In the example the root absorbs two descendants, and node 4 absorbs
    its only child. *)
Lemma C8_collapse_similar_witness :
  let m' := Node None 10 2 [Some 1; Some 2]
              [Node (Some 3) 4 1 [] []; Node (Some 4) 6 1 [Some 5] []] in
  (forall c, children m' = [c] -> attributes m' <> attributes c)
  /\ exists m path,
       In m (nodes Examples.example_profile)
       /\ is_path m path
       /\ Forall (fun c => attributes c = attributes m) path
       /\ key m' = key m /\ size m' = size m /\ count m' = count m
       /\ tail m' = tail m ++ map key path.
Proof.
  apply (C8_collapse_similar Examples.example_profile).
  vm_compute. left. reflexivity.
Defined.
End heap_profile.

Section fiber_facts.
Import ScyllaPtr Fiber.

Variable read_word : Z -> option Z.
Variable info_symbol : Z -> string.
Variable names : Symbols.names_t.
Variable analyze : Z -> outcome pointer_metadata.
Variable is_seastar_allocator_used : bool.

Abbreviation probe := (_probe_pointer read_word info_symbol names analyze).
Abbreviation scan := (scan_region read_word info_symbol names analyze).
Abbreviation do_walk := (_do_walk read_word info_symbol names analyze).
Abbreviation walk := (_walk read_word info_symbol names analyze is_seastar_allocator_used).
Abbreviation rejected := (Fiber.rejected read_word info_symbol names analyze).
Abbreviation planted_chain := (Fiber.planted_chain read_word info_symbol names analyze).

(** Only the first accepted word is followed. *)
Lemma scan_first_match recurse srs use_alloc pre it post w tptr_meta vptr name :
  Forall (rejected srs use_alloc) pre ->
  read_word it = Some w ->
  probe w srs use_alloc = Ok (Some (tptr_meta, vptr, name)) ->
  scan recurse srs use_alloc (pre ++ it :: post)
  = (fiber ← recurse tptr_meta; Ok (fiber ++ [(w, vptr, name)])).
Proof.
  intros Hpre Hrd Hpr. induction Hpre as [|x pre (v & Hv & Hp) _ IH]; simpl.
  - by rewrite Hrd, Hpr.
  - rewrite Hv, Hp. simpl. exact IH.
Qed.

Lemma scan_no_match recurse srs use_alloc its :
  Forall (rejected srs use_alloc) its ->
  scan recurse srs use_alloc its = Ok [].
Proof.
  intros Hall. induction Hall as [|x its (v & Hv & Hp) _ IH]; simpl; [done|].
  rewrite Hv, Hp. simpl. exact IH.
Qed.

(** *** The words scanned in one task object *)

Lemma py_range_elem start stop step it :
  0 < step ->
  In it (py_range start stop step)
  <-> exists k, 0 <= k /\ it = start + k * step /\ start + k * step < stop.
Proof.
  intros Hstep. unfold py_range. rewrite in_map_iff. split.
  - intros (k & <- & Hk). apply in_seq in Hk. exists (Z.of_nat k).
    split; [lia|]. split; [done|].
    assert (Z.of_nat k < (stop - start + step - 1) / step) as Hlt by lia.
    assert (Z.of_nat k + 1 <= (stop - start + step - 1) / step) as Hle by lia.
    pose proof (Z.mul_div_le (stop - start + step - 1) step Hstep). nia.
  - intros (k & Hk & -> & Hlt). exists (Z.to_nat k). split; [f_equal; lia|].
    apply in_seq. split; [lia|]. simpl.
    assert (k + 1 <= (stop - start + step - 1) / step); [|lia].
    apply Z.div_le_lower_bound; [done|]. nia.
Qed.

(** The word offsets [_do_walk] reads in an object of [sz] bytes: one word
    in, then every word up to the offset [sz] rounded down to a word. *)
Lemma scanned_words_elem p sz it :
  In it (scanned_words p sz)
  <-> exists k, 0 <= k /\ it = p + 8 + 8 * k /\ 8 * k < sz - sz `mod` 8.
Proof.
  unfold scanned_words, vptr_sizeof. rewrite py_range_elem by lia.
  split; intros (k & Hk & -> & Hlt); exists k; (split; [done|]); split; lia.
Qed.

(** What does hold of every probed word: its offset is a multiple of the
    word size, at least one word and at most the object size. *)
Lemma scanned_words_offsets p sz it :
  In it (scanned_words p sz) ->
  8 <= it - p <= sz /\ (it - p) `mod` 8 = 0.
Proof.
  intros (k & Hk & -> & Hlt)%scanned_words_elem.
  pose proof (Z.mod_pos_bound sz 8 ltac:(lia)).
  pose proof (Z.div_mod sz 8 ltac:(lia)). split; [lia|].
  replace (p + 8 + 8 * k - p) with ((1 + k) * 8) by lia. apply Z.mod_mul. lia.
Qed.

(** For an object whose size is a positive multiple of the word size,
    the word right after the object is read as well. *)
Lemma scanned_words_past_end p sz :
  0 < sz -> sz `mod` 8 = 0 -> In (p + sz) (scanned_words p sz).
Proof.
  intros Hsz Hmod. apply scanned_words_elem. exists (sz / 8 - 1).
  pose proof (Z.div_mod sz 8 ltac:(lia)). lia.
Qed.

(** *** Planted chains *)

Lemma do_walk_chain srs use_alloc m chain :
  planted_chain srs use_alloc m chain ->
  forall fuel i max_depth,
    (length chain < fuel)%nat ->
    do_walk fuel m i max_depth srs use_alloc
    = Ok (rev (take (depth_left max_depth i chain) chain)).
Proof.
  induction 1 as [m (sz & Hsz & Hall)
                 |m m' vptr name w rest (sz & pre & it & post & Hsz & Hsc & Hpre & Hrd & Hpr) _ IH];
    intros fuel i max_depth Hfuel.
  - destruct fuel; [simpl in Hfuel; lia|]. cbn [_do_walk].
    rewrite take_nil. destruct ((max_depth >? -1) && (i >=? max_depth)); [done|].
    rewrite Hsz. by apply scan_no_match.
  - destruct fuel; [simpl in Hfuel; lia|]. cbn [_do_walk].
    unfold depth_left. simpl in Hfuel.
    destruct (max_depth >? -1) eqn:Emd; cbn [andb].
    + destruct (i >=? max_depth) eqn:Ei.
      * replace (Z.to_nat (max_depth - i)) with 0%nat by lia. done.
      * rewrite Hsz, Hsc, (scan_first_match _ _ _ _ _ _ _ _ _ _ Hpre Hrd Hpr).
        rewrite IH by lia. cbn [mbind outcome_bind]. unfold depth_left. rewrite Emd.
        replace (Z.to_nat (max_depth - i)) with (S (Z.to_nat (max_depth - (i + 1)))) by lia.
        done.
    + rewrite Hsz, Hsc, (scan_first_match _ _ _ _ _ _ _ _ _ _ Hpre Hrd Hpr).
      rewrite IH by lia. cbn [mbind outcome_bind]. unfold depth_left. rewrite Emd.
      cbn [length take]. done.
Qed.

(** The parts of the fiber-walk contract that the code keeps: from a
    recognized start with a planted chain of [K] tasks, [_walk] returns
    the [K] entries, outermost first, for every [max_depth >= K] (and
    for a negative, unlimited depth), and no entry for [max_depth = 0]. *)
Lemma walk_chain fuel p max_depth srs force this_task chain :
  let use_alloc := negb force && is_seastar_allocator_used in
  probe p srs use_alloc = Ok (Some this_task) ->
  planted_chain srs use_alloc this_task.1.1 chain ->
  (length chain < fuel)%nat ->
  (walk fuel p max_depth srs force).2
  = Ok (this_task, take (depth_left max_depth 0 chain) chain).
Proof.
  intros use_alloc Hp Hc Hfuel. unfold _walk. fold use_alloc. rewrite Hp.
  cbn [snd]. rewrite (do_walk_chain _ _ _ _ Hc) by done.
  cbn [mbind outcome_bind]. by rewrite rev_involutive.
Qed.

(** A start that is not accepted: the notice is written, and the
    subscript [this_task[0]] of [None] raises. *)
Lemma walk_unrecognized fuel p max_depth srs force :
  let use_alloc := negb force && is_seastar_allocator_used in
  probe p srs use_alloc = Ok None ->
  walk fuel p max_depth srs force
  = ((if use_alloc then [] else [FallbackNotice]) ++ [NotATaskNotice p],
     Raise TypeError).
Proof. intros use_alloc Hp. unfold _walk. fold use_alloc. by rewrite Hp. Qed.
End fiber_facts.

Section fiber_examples.
Import ScyllaPtr Fiber Examples.

Abbreviation ex_probe := (_probe_pointer fiber_read_word fiber_info_symbol ∅ fiber_analyze).
Abbreviation ex_do_walk := (_do_walk fiber_read_word fiber_info_symbol ∅ fiber_analyze).
Abbreviation ex_walk := (_walk fiber_read_word fiber_info_symbol ∅ fiber_analyze true).
Abbreviation ex_name := "vtable for seastar::continuation<lambda> + 16 "%string.

(** C4 fails on the code: for the live 16-byte task at 0x1000 the scan
    reads the words at offsets 8 and 16.  Offset 16 is not below the
    object's size: that word is the first word of the next slot, and the
    pointer found there is followed as the successor. *)
Theorem C4_scan_reads_past_object :
  _probe_pointer fiber_read_word fiber_info_symbol ∅ fiber_analyze 0x1000 512 true
  = Ok (Some (live_object 0x1000 16, 0x400010, ex_name))
  /\ size (live_object 0x1000 16) = Some 16
  /\ scanned_words 0x1000 16 = [0x1000 + 8; 0x1000 + 16]
  /\ ~ (0x1000 + 16 - 0x1000 < 16)
  /\ fiber_read_word (0x1000 + 8) = Some 0x3000
  /\ _probe_pointer fiber_read_word fiber_info_symbol ∅ fiber_analyze 0x3000 512 true
     = Ok None
  /\ fiber_read_word (0x1000 + 16) = Some 0x2000
  /\ _do_walk fiber_read_word fiber_info_symbol ∅ fiber_analyze 5
       (live_object 0x1000 16) 0 (-1) 512 true
     = Ok [(0x2000, 0x400010, ex_name)].
Proof. repeat split; try reflexivity. lia. Qed.

(** C5 fails on the code: when the start is not a recognized task (the
    first word of 0x3000 has no symbol), [_walk] writes its notice and
    then raises [TypeError] instead of returning an empty chain; the
    depth limit makes no difference. *)
Theorem C5_walk_unrecognized_start_raises :
  _probe_pointer fiber_read_word fiber_info_symbol ∅ fiber_analyze 0x3000 512 true
  = Ok None
  /\ _walk fiber_read_word fiber_info_symbol ∅ fiber_analyze true 5 0x3000 (-1) 512 false
     = ([NotATaskNotice 0x3000], Raise TypeError)
  /\ _walk fiber_read_word fiber_info_symbol ∅ fiber_analyze true 5 0x3000 0 512 false
     = ([NotATaskNotice 0x3000], Raise TypeError).
Proof.
  split; [reflexivity|].
  split; apply (walk_unrecognized fiber_read_word fiber_info_symbol ∅ fiber_analyze true);
    reflexivity.
Qed.

(** The chain planted behind the task at 0x4000: the tasks at 0x5000 and
    0x6000, the latter without a recognizable successor. *)
Lemma example_planted_chain :
  planted_chain fiber_read_word fiber_info_symbol ∅ fiber_analyze 512 true
    (live_object 0x4000 32)
    [(0x5000, 0x400010, ex_name); (0x6000, 0x400010, ex_name)].
Proof.
  apply (chain_link _ _ _ _ _ _ _ (live_object 0x5000 32)).
  { exists 32, [0x4008], 0x4010, [0x4018; 0x4020].
    repeat split; try reflexivity.
    repeat constructor. by exists 0x3000. }
  apply (chain_link _ _ _ _ _ _ _ (live_object 0x6000 32)).
  { exists 32, [], 0x5008, [0x5010; 0x5018; 0x5020].
    repeat split; try reflexivity. constructor. }
  apply chain_end. exists 32. split; [reflexivity|].
  repeat constructor; by exists 0x3000.
Qed.

(** On a recognized start the walk returns the two planted entries for
    every depth limit of at least 2, and none for the limit 0. *)
Lemma example_walk_planted_chain (max_depth : Z) :
  2 <= max_depth ->
  (ex_walk 5 0x4000 max_depth 512 false).2
  = Ok ((live_object 0x4000 32, 0x400010, ex_name),
        [(0x5000, 0x400010, ex_name); (0x6000, 0x400010, ex_name)])
  /\ (ex_walk 5 0x4000 0 512 false).2
     = Ok ((live_object 0x4000 32, 0x400010, ex_name), []).
Proof.
  intros Hd. split.
  - assert (Hp : ex_probe 0x4000 512 (negb false && true)
                 = Ok (Some (live_object 0x4000 32, 0x400010, ex_name)))
      by reflexivity.
    rewrite (walk_chain fiber_read_word fiber_info_symbol ∅ fiber_analyze true
               5 0x4000 max_depth 512 false _ _ Hp example_planted_chain)
      by (simpl; lia).
    unfold depth_left. destruct (max_depth >? -1) eqn:E; [|lia].
    rewrite take_ge by (simpl; lia). reflexivity.
  - reflexivity.
Qed.
End fiber_examples.

Section object_graph_facts.
Import ObjectGraph.

Variable find : Z -> list (Z * Z).
Variable describe : Z -> outcome obj_info.
Variable clock : nat -> Z.
Variables max_depth max_vertices timeout_seconds : Z.

Abbreviation hits_loop := (scan_hits describe clock max_vertices timeout_seconds).

(** Within the hits of one object the vertex bound is kept: the inner
    loop does stop at [max_vertices].  Once the bound has been reached,
    each further run of the inner loop adds at most one vertex. *)
Lemma scan_hits_bound current_obj hits st st' :
  0 < max_vertices ->
  hits_loop current_obj hits st = Ok st' ->
  (Z.of_nat (base.size (vertices st)) < max_vertices ->
   Z.of_nat (base.size (vertices st')) <= max_vertices)
  /\ (max_vertices <= Z.of_nat (base.size (vertices st)) ->
      (base.size (vertices st') <= S (base.size (vertices st)))%nat).
Proof.
  intros Hmax. revert st. induction hits as [|[next_obj next_off] hits IH]; intros st Hrun.
  - injection Hrun as <-. split; lia.
  - cbn [scan_hits] in Hrun.
    destruct ((timeout_seconds >? 0) && (clock (ticks st) - start_time clock >? timeout_seconds)).
    { injection Hrun as <-. cbn [vertices]. split; lia. }
    destruct (decide (is_Some (vertices st !! next_obj))) as [Hin|Hnot].
    { apply IH in Hrun. exact Hrun. }
    destruct (describe next_obj) as [info| |]; cbn [mbind outcome_bind] in Hrun; try done.
    assert (Hsz : base.size (<[next_obj := info]> (vertices st)) = S (base.size (vertices st))).
    { apply map_size_insert_None. by apply eq_None_not_Some. }
    destruct ((max_vertices >? 0)
              && (Z.of_nat (base.size (<[next_obj := info]> (vertices st))) >=? max_vertices))
      eqn:E.
    + injection Hrun as <-. cbn [vertices]. rewrite Hsz. split; lia.
    + apply IH in Hrun. cbn [vertices] in Hrun. rewrite Hsz in Hrun.
      apply andb_false_iff in E as [E|E].
      * rewrite Z.gtb_ltb in E. apply Z.ltb_ge in E. lia.
      * rewrite Hsz, Z.geb_leb in E. apply Z.leb_gt in E. split; lia.
Qed.
End object_graph_facts.

Section object_graph_examples.
Import ObjectGraph Examples.

(** C6 fails on the code: with [max_vertices = 3] (and no depth or time
    limit) the traversal of the example returns four vertices.  The
    [break] that follows the vertex-count check leaves only the inner
    loop; the loop over the objects of the current level goes on with
    300 and adds 500.  [_do_generate_object_graph] then adds the root as
    a fifth vertex. *)
Theorem C6_max_vertices_exceeded :
  exists es vs vs',
    _traverse_object_graph_breadth_first graph_find graph_describe graph_clock
      (-1) 3 (-1) 5 100 = Ok (es, vs)
    /\ dom vs = {[200; 300; 400; 500]}
    /\ base.size vs = 4%nat
    /\ _do_generate_object_graph graph_find graph_describe graph_clock
         (-1) 3 (-1) 5 100 = Ok (vs', es)
    /\ dom vs' = {[100; 200; 300; 400; 500]}
    /\ base.size vs' = 5%nat
    /\ (3 < 4)%nat.
Proof.
  eexists _, _, _. split; [vm_compute; reflexivity|].
  split; [by vm_compute|]. split; [by vm_compute|].
  split; [vm_compute; reflexivity|].
  split; [by vm_compute|]. split; [by vm_compute|]. lia.
Qed.
End object_graph_examples.

Section histogram_extras.
Context {K : Type} `{Countable K}.
Import Histogram.

Lemma deref_setitem (h : histogram) (k : K) (v : Z) (σ : gmap nat (gmap K Z)) :
  deref (__setitem__ h k v σ) (_counts h) = <[k := v]> (deref σ (_counts h)).
Proof. unfold __setitem__, deref at 1. by rewrite lookup_insert_eq. Qed.

Lemma add_iter_counts (h : histogram) (k : K) (σ : gmap nat (gmap K Z)) (n : nat) :
  deref (Nat.iter (S n) (add h k) σ) (_counts h)
  = <[k := default 0 (deref σ (_counts h) !! k) + Z.of_nat (S n)]> (deref σ (_counts h)).
Proof.
  induction n as [|n IH].
  - change (Nat.iter 1 (add h k) σ) with (add h k σ). by rewrite add_counts.
  - change (Nat.iter (S (S n)) (add h k) σ) with (add h k (Nat.iter (S n) (add h k) σ)).
    rewrite add_counts, IH, lookup_insert_eq, insert_insert_eq.
    cbn [default from_option id]. f_equal. lia.
Qed.

(** X1: [add] repeated: [n + 1] additions of [k] leave the dict that one
    assignment [h[k] = old + n + 1] would leave, [old] being the count
    before (0 for a key not yet there). *)
Theorem X1_add_repeated (h : histogram) (k : K) (σ : gmap nat (gmap K Z)) (n : nat) :
  deref (Nat.iter (S n) (add h k) σ) (_counts h)
  = deref (__setitem__ h k (default 0 (deref σ (_counts h) !! k) + Z.of_nat (S n)) σ)
          (_counts h).
Proof. by rewrite add_iter_counts, deref_setitem. Qed.

(** X2: reading through [h[k]] is not free of effects: a key that is missing
    is inserted with the count 0, so the length grows by one; a key that
    is there is returned and nothing changes. *)
Theorem X2_getitem_inserts_missing_key (h : histogram) (k : K) (σ : gmap nat (gmap K Z)) :
  match deref σ (_counts h) !! k with
  | None =>
      (__getitem__ h k σ).1 = 0
      /\ deref (__getitem__ h k σ).2 (_counts h) !! k = Some 0
      /\ __len__ h (__getitem__ h k σ).2 = S (__len__ h σ)
  | Some v =>
      (__getitem__ h k σ).1 = v
      /\ deref (__getitem__ h k σ).2 (_counts h) = deref σ (_counts h)
  end.
Proof.
  unfold __getitem__, defaultdict_getitem, __len__.
  destruct (deref σ (_counts h) !! k) as [v|] eqn:E; cbn [fst snd].
  - split; [done|]. unfold deref at 1. by rewrite lookup_insert_eq.
  - split; [done|]. unfold deref at 1 3. rewrite !lookup_insert_eq.
    cbn [default from_option id]. rewrite lookup_insert_eq.
    split; [done|]. by apply map_size_insert_None.
Qed.
End histogram_extras.

Section span_table_extras.
Import Seastar.

(** Each span ends where the scan goes on: a later span starts at or
    after the page that follows the earlier one. *)
Lemma spans_from_apart cm ps idx :
  forall i j s s', (i < j)%nat ->
    spans_from cm ps idx !! i = Some s ->
    spans_from cm ps idx !! j = Some s' ->
    (index s + span_size (page s) <= index s')%nat.
Proof.
  funelim (spans_from cm ps idx); intros i j s s' Hij Hi Hj.
  - done.
  - eauto.
  - destruct i as [|i], j as [|j]; simpl in *; try lia.
    + injection Hi as <-. simpl.
      apply list_elem_of_lookup_2, spans_from_elems in Hj. lia.
    + eapply H; [|done|done]. lia.
Qed.

Lemma spans_starts_apart (cm : cpu_mem_t) (ps : Z) (i j : nat) (s s' : span) :
  0 < ps -> (i < j)%nat ->
  spans cm ps !! i = Some s ->
  spans cm ps !! j = Some s' ->
  start s + Z.of_nat (span_size (page s)) * ps <= start s'.
Proof.
  intros Hps Hij Hi Hj.
  pose proof (spans_from_apart cm ps 1 i j s s' Hij Hi Hj) as Hapart.
  apply list_elem_of_lookup_2, spans_from_elems in Hi as (_ & -> & _).
  apply list_elem_of_lookup_2, spans_from_elems in Hj as (_ & -> & _).
  nia.
Qed.

(** X3: the spans of the table do not overlap: of two spans, the one
    produced first ends at or before the start of the other, so an
    address lies in the range of at most one span. *)
Theorem X3_spans_disjoint (cm : cpu_mem_t) (ps : Z) (i j : nat) (s s' : span) :
  0 < ps -> (i < j)%nat ->
  spans cm ps !! i = Some s ->
  spans cm ps !! j = Some s' ->
  start s + Z.of_nat (span_size (page s)) * ps <= start s'
  /\ forall ptr,
       start s <= ptr < start s + Z.of_nat (span_size (page s)) * ps ->
       ~ (start s' <= ptr < start s' + Z.of_nat (span_size (page s')) * ps).
Proof.
  intros Hps Hij Hi Hj.
  pose proof (spans_starts_apart cm ps i j s s' Hps Hij Hi Hj) as Hapart.
  split; [done|]. intros ptr Hin Hin'. lia.
Qed.

Lemma X3_spans_disjoint_witness :
  let s := mk_span 1 0x101000 (Examples.pages_of Examples.example_pages 1) in
  let s' := mk_span 3 0x103000 (Examples.pages_of Examples.example_pages 3) in
  start s + Z.of_nat (span_size (page s)) * 4096 <= start s'
  /\ forall ptr,
       start s <= ptr < start s + Z.of_nat (span_size (page s)) * 4096 ->
       ~ (start s' <= ptr < start s' + Z.of_nat (span_size (page s')) * 4096).
Proof.
  apply (X3_spans_disjoint Examples.example_cpu_mem 4096 0 1); [lia|lia| |]; reflexivity.
Defined.

(** What [get_span] computes, by the insertion point [bisect_right]
    returns. *)
Lemma get_span_eval (cm : cpu_mem_t) (ps ptr : Z) :
  0 < ps ->
  get_span (span_checker_init cm ps) ptr =
  match bisect_right (start <$> spans cm ps) ptr with
  | O => Ok None
  | S j =>
      match spans cm ps !! j with
      | Some s =>
          if decide (start s + Z.of_nat (span_size (page s)) * ps <= ptr)
          then Ok None else Ok (Some s)
      | None => Raise KeyError
      end
  end.
Proof.
  intros Hps. unfold get_span.
  change (_starts (span_checker_init cm ps)) with (start <$> spans cm ps).
  change (_page_size (span_checker_init cm ps)) with ps.
  destruct (bisect_right_spec (start <$> spans cm ps) ptr (starts_sorted cm ps Hps))
    as (Hlen & _ & _).
  destruct (bisect_right (start <$> spans cm ps) ptr) as [|j] eqn:Er; [done|].
  destruct (decide (S j = 0%nat)); [lia|].
  replace (S j - 1)%nat with j by lia.
  rewrite length_fmap in Hlen.
  destruct (spans cm ps !! j) as [s|] eqn:Es; [|apply lookup_ge_None in Es; lia].
  rewrite (list_lookup_total_correct (start <$> spans cm ps) j (start s))
    by (by rewrite list_lookup_fmap, Es).
  rewrite start_to_span_lookup by (done || by eapply list_elem_of_lookup_2).
  done.
Qed.

Lemma get_span_char (cm : cpu_mem_t) (ps ptr : Z) :
  0 < ps ->
  (exists r, get_span (span_checker_init cm ps) ptr = Ok r)
  /\ forall s,
       get_span (span_checker_init cm ps) ptr = Ok (Some s)
       <-> s ∈ spans cm ps
           /\ start s <= ptr < start s + Z.of_nat (span_size (page s)) * ps.
Proof.
  intros Hps. rewrite get_span_eval by done.
  destruct (bisect_right_spec (start <$> spans cm ps) ptr (starts_sorted cm ps Hps))
    as (Hlen & Hle & Hgt).
  rewrite length_fmap in Hlen.
  destruct (bisect_right (start <$> spans cm ps) ptr) as [|j] eqn:Er.
  - split; [by eexists|]. intros s. split; [done|]. intros [Hin [Hs _]].
    apply list_elem_of_lookup in Hin as [i Hi].
    assert (ptr < start s); [|lia].
    apply (Hgt i); [lia|]. by rewrite list_lookup_fmap, Hi.
  - destruct (spans cm ps !! j) as [s0|] eqn:Es; [|apply lookup_ge_None in Es; lia].
    assert (Hs0 : start s0 <= ptr).
    { apply (Hle j); [lia|]. by rewrite list_lookup_fmap, Es. }
    split.
    { destruct (decide (start s0 + Z.of_nat (span_size (page s0)) * ps <= ptr));
        by eexists. }
    intros s. split.
    + destruct (decide (start s0 + Z.of_nat (span_size (page s0)) * ps <= ptr));
        [done|]. intros [= <-]. split; [by eapply list_elem_of_lookup_2|lia].
    + intros [Hin [Hlo Hhi]]. apply list_elem_of_lookup in Hin as [i Hi].
      assert (Hij : i = j).
      { destruct (Nat.lt_trichotomy i j) as [Hlt|[->|Hlt]]; [|done|].
        - pose proof (spans_starts_apart cm ps i j s s0 Hps Hlt Hi Es). lia.
        - assert (ptr < start s); [|lia].
          apply (Hgt i); [lia|]. by rewrite list_lookup_fmap, Hi. }
      subst i. rewrite Es in Hi. injection Hi as ->.
      destruct (decide (start s + Z.of_nat (span_size (page s)) * ps <= ptr));
        [lia|done].
Qed.

(** X4: [get_span] on the table of a page array never raises, and it
    returns a span exactly for the addresses inside that span's range:
    the result is [s] if and only if [s] is a span of the table with
    [start <= ptr < start + span_size * page_size]. *)
Theorem X4_get_span_sound_complete (cm : cpu_mem_t) (ps ptr : Z) :
  0 < ps ->
  (exists r, get_span (span_checker_init cm ps) ptr = Ok r)
  /\ forall s,
       get_span (span_checker_init cm ps) ptr = Ok (Some s)
       <-> s ∈ spans cm ps
           /\ start s <= ptr < start s + Z.of_nat (span_size (page s)) * ps.
Proof. apply get_span_char. Qed.

Lemma X4_get_span_sound_complete_witness :
  (exists r, get_span (span_checker_init Examples.example_cpu_mem 4096) 0x106010 = Ok r)
  /\ forall s,
       get_span (span_checker_init Examples.example_cpu_mem 4096) 0x106010 = Ok (Some s)
       <-> s ∈ spans Examples.example_cpu_mem 4096
           /\ start s <= 0x106010 < start s + Z.of_nat (span_size (page s)) * 4096.
Proof. apply (X4_get_span_sound_complete Examples.example_cpu_mem 4096 0x106010). lia. Defined.

Lemma used_pages_seq cm first pool_ptr a n :
  0 <= used_pages cm first pool_ptr (seq a n) <= Z.of_nat n
  /\ forall i : nat, (a <= i)%nat ->
       Z.of_nat i < Z.of_nat a + used_pages cm first pool_ptr (seq a n) ->
       pool (pages cm (first + i)) = pool_ptr
       /\ pool (pages cm (first + i)) <> 0
       /\ offset_in_span (pages cm (first + i)) = Z.of_nat i.
Proof.
  revert a. induction n as [|n IH]; intros a; cbn [seq used_pages].
  - split; [lia|]. intros i Hi Hlt. lia.
  - destruct (pool (pages cm (first + a)) =? 0) eqn:E1; cbn [orb].
    { split; [lia|]. intros i Hi Hlt. lia. }
    destruct (pool (pages cm (first + a)) =? pool_ptr) eqn:E2; cbn [negb orb].
    2: { split; [lia|]. intros i Hi Hlt. lia. }
    destruct (offset_in_span (pages cm (first + a)) =? Z.of_nat a) eqn:E3; cbn [negb].
    2: { split; [lia|]. intros i Hi Hlt. lia. }
    destruct (IH (S a)) as [Hb Hall]. split; [lia|].
    intros i Hi Hlt. destruct (decide (i = a)) as [->|Hne].
    + split; [lia|]. split; lia.
    + apply Hall; lia.
Qed.

(** X5: [used_span_size] is between 0 and the span's length in pages.
    It is 0 for a free span and the whole length for a span without a
    pool; for a pool span every page it counts belongs to the span's
    pool and records its own offset in the span. *)
Theorem X5_used_span_size_bounds (cm : cpu_mem_t) (s : span) :
  0 <= used_span_size cm s <= Z.of_nat (span_size (page s))
  /\ (free (page s) = true -> used_span_size cm s = 0)
  /\ (free (page s) = false -> pool (page s) = 0 ->
      used_span_size cm s = Z.of_nat (span_size (page s)))
  /\ (free (page s) = false -> pool (page s) <> 0 ->
      forall i : nat, Z.of_nat i < used_span_size cm s ->
        pool (pages cm (index s + i)) = pool (page s)
        /\ offset_in_span (pages cm (index s + i)) = Z.of_nat i).
Proof.
  unfold used_span_size.
  destruct (free (page s)) eqn:Ef.
  { split; [lia|]. split; [done|]. split; intros; done. }
  destruct (pool (page s) =? 0) eqn:Ep.
  { split; [lia|]. split; [done|]. split; [done|]. intros _ Hp. lia. }
  destruct (used_pages_seq cm (index s) (pool (page s)) 0 (span_size (page s)))
    as [Hb Hall].
  split; [done|]. split; [done|]. split; [intros _ Hp; lia|].
  intros _ _ i Hi. destruct (Hall i) as (? & ? & ?); [lia|lia|done].
Qed.
End span_table_extras.

Section pointer_classifier_extras.
Import Seastar ScyllaPtr.

Lemma owning_thread_none tg ts p :
  owning_thread tg ts p = None
  <-> forall t, t ∈ ts ->
        ~ (memory (cpu_mem t) <= p
           < memory (cpu_mem t) + Z.of_nat (nr_pages (cpu_mem t)) * page_size tg).
Proof.
  induction ts as [|t ts IH]; cbn [owning_thread get_seastar_memory_start_and_size].
  - split; [|done]. intros _ t Ht. by apply elem_of_nil in Ht.
  - destruct ((memory (cpu_mem t) <=? p)
              && (p <? memory (cpu_mem t) + Z.of_nat (nr_pages (cpu_mem t)) * page_size tg))
      eqn:E.
    + split; [done|]. intros Hall. exfalso. apply (Hall t); [by left|].
      apply andb_true_iff in E as [E1 E2]. lia.
    + rewrite IH. split.
      * intros Hall t' [->|Ht']%elem_of_cons; [|by apply Hall].
        apply andb_false_iff in E as [E|E]; lia.
      * intros Hall t' Ht'. apply Hall. by right.
Qed.

(** X6: an address outside the memory region of every reactor thread
    gets the degraded classification (no thread, no size, no liveness):
    [analyze] returns it whatever the page size, and never raises. *)
Theorem X6_analyze_foreign_address (fuel : nat) (tg : target) (p : Z) :
  (forall t, t ∈ reactor_threads tg ->
     ~ (memory (cpu_mem t) <= p
        < memory (cpu_mem t) + Z.of_nat (nr_pages (cpu_mem t)) * page_size tg)) ->
  analyze fuel tg p = Ok (_init_generic_ptr p None)
  /\ is_managed_by_seastar (_init_generic_ptr p None) = false.
Proof.
  intros Hall. apply owning_thread_none in Hall. unfold analyze. by rewrite Hall.
Qed.

Lemma X6_analyze_foreign_address_witness :
  analyze 0 Examples.example_target 0x10 = Ok (_init_generic_ptr 0x10 None)
  /\ is_managed_by_seastar (_init_generic_ptr 0x10 None) = false.
Proof.
  apply X6_analyze_foreign_address. intros t Ht.
  apply list_elem_of_In in Ht. destruct Ht as [<-|[]]. vm_compute.
  intros [H1 H2]. by apply H1.
Defined.

(** [analyze] for an address of thread [t] inside the span [s]. *)
Lemma analyze_in_span fuel tg p t s :
  owning_thread tg (reactor_threads tg) p = Some t ->
  page_size tg <> 0 ->
  get_span (span_checker_init (cpu_mem t) (page_size tg)) p = Ok (Some s) ->
  analyze fuel tg p =
  (ptr_meta ←
     (if used_span_size (cpu_mem t) s * page_size tg <=? p - start s
      then Ok (mark_free (_init_seastar_ptr p t))
      else if Seastar.is_small s then analyze_small fuel tg (_init_seastar_ptr p t) s p
      else Ok (set_offset_in_object
                 (set_size
                    (set_is_live (set_is_small (_init_seastar_ptr p t) false)
                       (negb (is_free s)))
                    (Seastar.size s * page_size tg))
                 (p - start s)));
   Ok (set_is_lsa ptr_meta (negb (lsa_region t p =? 0)))).
Proof.
  intros Hown Hps Hspan. unfold analyze. rewrite Hown.
  destruct (page_size tg =? 0) eqn:E; [lia|]. by rewrite Hspan.
Qed.

(** X7: for an address in the pages in use of a large-object span (not
    free, no pool) [analyze] reports a live object that is the whole
    span: size [span_size * page_size], offset counted from the start
    of the span. *)
Theorem X7_analyze_large_span (fuel : nat) (tg : target) (p : Z)
    (t : reactor_thread) (s : span) :
  owning_thread tg (reactor_threads tg) p = Some t ->
  page_size tg <> 0 ->
  get_span (span_checker_init (cpu_mem t) (page_size tg)) p = Ok (Some s) ->
  is_large s = true ->
  p - start s < Z.of_nat (span_size (page s)) * page_size tg ->
  exists m,
    analyze fuel tg p = Ok m
    /\ thread m = Some t
    /\ ScyllaPtr.is_small m = Some false
    /\ is_live m = Some true
    /\ ScyllaPtr.size m = Some (Z.of_nat (span_size (page s)) * page_size tg)
    /\ offset_in_object m = p - start s
    /\ _is_containing_page_free m = Some false
    /\ is_lsa m = Some (negb (lsa_region t p =? 0)).
Proof.
  intros Hown Hps Hspan Hlarge Hin.
  rewrite (analyze_in_span fuel tg p t s Hown Hps Hspan).
  unfold is_large, is_free in Hlarge. apply andb_true_iff in Hlarge as [Hf Hp].
  apply negb_true_iff in Hf.
  unfold used_span_size, Seastar.is_small, is_free, Seastar.size. rewrite Hf, Hp.
  destruct (Z.of_nat (span_size (page s)) * page_size tg <=? p - start s) eqn:E; [lia|].
  cbn [negb andb mbind outcome_bind]. eexists. split; [reflexivity|]. by repeat split.
Qed.

Lemma X7_analyze_large_span_witness :
  exists m,
    analyze 0 Examples.example_target 0x102010 = Ok m
    /\ thread m = Some Examples.example_thread
    /\ ScyllaPtr.is_small m = Some false
    /\ is_live m = Some true
    /\ ScyllaPtr.size m = Some (Z.of_nat 2 * 4096)
    /\ offset_in_object m = 0x102010 - 0x101000
    /\ _is_containing_page_free m = Some false
    /\ is_lsa m = Some false.
Proof.
  apply (X7_analyze_large_span 0 Examples.example_target 0x102010 Examples.example_thread
           (mk_span 1 0x101000 (Examples.pages_of Examples.example_pages 1)));
    [reflexivity|discriminate|reflexivity|reflexivity|reflexivity].
Defined.

(** X8: an address at or past the pages in use of its span, which is
    every address of a free span and the unused tail of a pool span, is
    marked as lying on a free page; size and offset stay 0, and the
    address is reported neither small nor live. *)
Theorem X8_analyze_free_page (fuel : nat) (tg : target) (p : Z)
    (t : reactor_thread) (s : span) :
  owning_thread tg (reactor_threads tg) p = Some t ->
  page_size tg <> 0 ->
  get_span (span_checker_init (cpu_mem t) (page_size tg)) p = Ok (Some s) ->
  used_span_size (cpu_mem t) s * page_size tg <= p - start s ->
  exists m,
    analyze fuel tg p = Ok m
    /\ _is_containing_page_free m = Some true
    /\ is_live m = Some false
    /\ ScyllaPtr.is_small m = Some false
    /\ ScyllaPtr.size m = Some 0
    /\ offset_in_object m = 0
    /\ is_lsa m = Some (negb (lsa_region t p =? 0)).
Proof.
  intros Hown Hps Hspan Hused.
  rewrite (analyze_in_span fuel tg p t s Hown Hps Hspan).
  destruct (used_span_size (cpu_mem t) s * page_size tg <=? p - start s) eqn:E; [|lia].
  cbn [mbind outcome_bind]. eexists. split; [reflexivity|]. by repeat split.
Qed.

Lemma X8_analyze_free_page_witness :
  exists m,
    analyze 0 Examples.example_target 0x103248 = Ok m
    /\ _is_containing_page_free m = Some true
    /\ is_live m = Some false
    /\ ScyllaPtr.is_small m = Some false
    /\ ScyllaPtr.size m = Some 0
    /\ offset_in_object m = 0
    /\ is_lsa m = Some false.
Proof.
  apply (X8_analyze_free_page 0 Examples.example_target 0x103248 Examples.example_thread
           (mk_span 3 0x103000 (Examples.pages_of Examples.example_pages 3)));
    [reflexivity|discriminate|reflexivity|vm_compute; discriminate].
Defined.

(** X9: an address of a thread's memory that lies in no span of the
    table makes [analyze] raise [AttributeError] ([get_span] returns
    [None], whose [start] is then read).  This holds for every address
    of the first page, which the span scan never covers. *)
Theorem X9_analyze_outside_spans (fuel : nat) (tg : target) (p : Z) (t : reactor_thread) :
  owning_thread tg (reactor_threads tg) p = Some t ->
  0 < page_size tg ->
  ((forall s, s ∈ spans (cpu_mem t) (page_size tg) ->
      ~ (start s <= p < start s + Z.of_nat (span_size (page s)) * page_size tg)) ->
   analyze fuel tg p = Raise AttributeError)
  /\ (p < memory (cpu_mem t) + page_size tg ->
      analyze fuel tg p = Raise AttributeError).
Proof.
  intros Hown Hps.
  assert (Hgap : (forall s, s ∈ spans (cpu_mem t) (page_size tg) ->
      ~ (start s <= p < start s + Z.of_nat (span_size (page s)) * page_size tg)) ->
   analyze fuel tg p = Raise AttributeError).
  { intros Hall. unfold analyze. rewrite Hown.
    destruct (page_size tg =? 0) eqn:E; [lia|].
    destruct (get_span_char (cpu_mem t) (page_size tg) p Hps) as [[r Hr] Hiff].
    rewrite Hr. destruct r as [s|]; [|done].
    apply Hiff in Hr as [Hin Hrange]. by destruct (Hall s Hin). }
  split; [done|]. intros Hfirst. apply Hgap. intros s Hin Hrange.
  apply spans_from_elems in Hin as (Hidx & Hstart & _). nia.
Qed.

Lemma X9_analyze_outside_spans_witness :
  analyze 0 Examples.example_target 0x106248 = Raise AttributeError
  /\ analyze 0 Examples.example_target 0x100010 = Raise AttributeError.
Proof.
  split.
  - apply (proj1 (X9_analyze_outside_spans 0 Examples.example_target 0x106248
                    Examples.example_thread eq_refl ltac:(reflexivity))).
    intros s Hin. apply list_elem_of_In in Hin. vm_compute in Hin.
    destruct Hin as [<-|[<-|[<-|[]]]]; vm_compute; intros [H1 H2];
      (by apply H1) || discriminate.
  - apply (proj2 (X9_analyze_outside_spans 0 Examples.example_target 0x100010
                    Examples.example_thread eq_refl ltac:(reflexivity))).
    reflexivity.
Defined.
End pointer_classifier_extras.

Section lsa_extras.
Import Lsa.

Lemma decode_loop_truncated bytes pos b value shift :
  Z.testbit b 7 = false ->
  Forall (fun c => Z.testbit c 7 = false) bytes ->
  decode_loop bytes pos b value shift
  = Raise (MemoryError (pos + Z.of_nat (length bytes))).
Proof.
  revert pos b value shift.
  induction bytes as [|c rest IH]; intros pos b value shift Hb Hall.
  - cbn [decode_loop length]. change 128 with (2 ^ 7). rewrite land_bit, Hb by lia.
    cbn [negb]. do 2 f_equal. lia.
  - apply Forall_cons in Hall as [Hc Hrest].
    cbn [decode_loop]. change 128 with (2 ^ 7). rewrite land_bit, Hb by lia. cbn [negb].
    rewrite IH by (done || by rewrite byte_bit by lia).
    cbn [length]. do 2 f_equal. lia.
Qed.

(** X10: a stream that ends before a byte with bit 7 set is reached
    (the empty stream included) makes [decode] raise the memory error
    of the first address past the stream; no descriptor is returned for
    the bytes read so far. *)
Theorem X10_decode_truncated (pos : Z) :
  decode pos [] = Raise (MemoryError pos)
  /\ forall c rest,
       Z.testbit c 6 = true ->
       Forall (fun c => Z.testbit c 7 = false) (c :: rest) ->
       decode pos (c :: rest)
       = Raise (MemoryError (pos + Z.of_nat (length (c :: rest)))).
Proof.
  split; [done|]. intros c rest Hc [Hc7 Hrest]%Forall_cons.
  cbn [decode]. change 64 with (2 ^ 6). rewrite land_bit, byte_bit, Hc by lia.
  cbn [negb]. rewrite decode_loop_truncated by (done || by rewrite byte_bit by lia).
  cbn [mbind outcome_bind length]. do 2 f_equal. lia.
Qed.

Lemma X10_decode_truncated_witness :
  decode 0x1000 [] = Raise (MemoryError 0x1000)
  /\ decode 0x1000 [0x41; 0x02; 0x03] = Raise (MemoryError 0x1003).
Proof.
  destruct (X10_decode_truncated 0x1000) as [Hnil Hcons].
  split; [exact Hnil|]. apply Hcons; [reflexivity|]. repeat constructor.
Defined.

(** *** Alignment arithmetic of the segment loop *)

Lemma land_lnot_mask (x k : Z) :
  0 <= k -> Z.land x (Z.lnot (2 ^ k - 1)) = 2 ^ k * (x / 2 ^ k).
Proof.
  intros Hk. replace (2 ^ k - 1) with (Z.ones k) by (rewrite Z.ones_equiv; lia).
  rewrite <- Z.ldiff_land, Z.ldiff_ones_r by done.
  rewrite Z.shiftl_mul_pow2, Z.shiftr_div_pow2 by done. lia.
Qed.

Lemma round_up_bounds (a x : Z) :
  0 < a -> x <= a * ((x + (a - 1)) / a) < x + a.
Proof.
  intros Ha. pose proof (Z.div_mod (x + (a - 1)) a ltac:(lia)).
  pose proof (Z.mod_pos_bound (x + (a - 1)) a Ha). lia.
Qed.

Lemma segment_loop_step live_size k fuel m seg seg_end d :
  0 <= k -> seg < seg_end ->
  decode seg (bytes_from m seg) = Ok d ->
  segment_loop live_size (2 ^ k) (S fuel) m seg seg_end
  = (d :: (segment_loop live_size (2 ^ k) fuel m
             (2 ^ k * ((end_pos live_size d + (2 ^ k - 1)) / 2 ^ k)) seg_end).1,
     (segment_loop live_size (2 ^ k) fuel m
        (2 ^ k * ((end_pos live_size d + (2 ^ k - 1)) / 2 ^ k)) seg_end).2).
Proof.
  intros Hk Hlt Hd. cbn [segment_loop].
  destruct (seg <? seg_end) eqn:E; [|lia]. rewrite Hd.
  rewrite land_lnot_mask by done.
  by destruct (segment_loop live_size (2 ^ k) fuel m _ seg_end).
Qed.

(** X11: after a descriptor the segment loop goes on at the descriptor's
    end rounded up to the alignment (a power of two): the least
    multiple of the alignment that is not below the end. *)
Theorem X11_segment_loop_next (live_size : lsa_object_descriptor -> Z) (k : Z)
    (fuel : nat) (m : memory) (seg seg_end : Z) (d : lsa_object_descriptor) :
  0 <= k -> seg < seg_end ->
  decode seg (bytes_from m seg) = Ok d ->
  exists next,
    segment_loop live_size (2 ^ k) (S fuel) m seg seg_end
    = (d :: (segment_loop live_size (2 ^ k) fuel m next seg_end).1,
       (segment_loop live_size (2 ^ k) fuel m next seg_end).2)
    /\ end_pos live_size d <= next < end_pos live_size d + 2 ^ k
    /\ next `mod` 2 ^ k = 0.
Proof.
  intros Hk Hlt Hd. eexists. split; [by apply segment_loop_step|].
  assert (0 < 2 ^ k) by (apply Z.pow_pos_nonneg; lia).
  split; [by apply round_up_bounds|].
  rewrite Z.mul_comm. apply Z.mod_mul. lia.
Qed.

Lemma X11_segment_loop_next_witness :
  exists next,
    segment_loop (fun _ => 0) (2 ^ 3) 2
      (mk_memory 0x1000 [0xca; 0; 0; 0; 0; 0; 0; 0]) 0x1000 0x1008
    = ([mk_descriptor 10 0x1000 0x1001]
         ++ (segment_loop (fun _ => 0) (2 ^ 3) 1
               (mk_memory 0x1000 [0xca; 0; 0; 0; 0; 0; 0; 0]) next 0x1008).1,
       (segment_loop (fun _ => 0) (2 ^ 3) 1
          (mk_memory 0x1000 [0xca; 0; 0; 0; 0; 0; 0; 0]) next 0x1008).2)
    /\ end_pos (fun _ => 0) (mk_descriptor 10 0x1000 0x1001) <= next
       < end_pos (fun _ => 0) (mk_descriptor 10 0x1000 0x1001) + 2 ^ 3
    /\ next `mod` 2 ^ 3 = 0.
Proof.
  apply (X11_segment_loop_next (fun _ => 0) 3 1
           (mk_memory 0x1000 [0xca; 0; 0; 0; 0; 0; 0; 0]) 0x1000 0x1008
           (mk_descriptor 10 0x1000 0x1001)); [lia|lia|reflexivity].
Defined.

(** X12: a dead descriptor of length 0 at an aligned position stops the
    segment loop from advancing: it decodes the same descriptor again
    and again and never returns, whatever the fuel. *)
Theorem X12_segment_loop_zero_run (live_size : lsa_object_descriptor -> Z) (k : Z)
    (m : memory) (seg seg_end : Z) (d : lsa_object_descriptor) :
  0 <= k -> seg < seg_end -> seg `mod` 2 ^ k = 0 ->
  decode seg (bytes_from m seg) = Ok d ->
  is_live d = false -> dead_size d = 0 -> desc_pos d = seg ->
  forall fuel,
    segment_loop live_size (2 ^ k) fuel m seg seg_end = (replicate fuel d, Diverge).
Proof.
  intros Hk Hlt Hal Hd Hlive Hdead Hpos fuel.
  assert (Hpow : 0 < 2 ^ k) by (apply Z.pow_pos_nonneg; lia).
  assert (Hnext : 2 ^ k * ((end_pos live_size d + (2 ^ k - 1)) / 2 ^ k) = seg).
  { unfold end_pos. rewrite Hlive, Hdead, Hpos, Z.add_0_r.
    pose proof (Z.div_mod seg (2 ^ k) ltac:(lia)) as Hdm. rewrite Hal in Hdm.
    replace (seg + (2 ^ k - 1)) with ((2 ^ k - 1) + (seg / 2 ^ k) * 2 ^ k) by lia.
    rewrite Z.div_add by lia. rewrite Z.div_small by lia. lia. }
  induction fuel as [|fuel IH]; [done|].
  rewrite (segment_loop_step live_size k fuel m seg seg_end d Hk Hlt Hd).
  rewrite Hnext, IH. done.
Qed.

Lemma X12_segment_loop_zero_run_witness :
  segment_loop (fun _ => 0) (2 ^ 3) 5
    (mk_memory 0x1000 [0xc0; 0; 0; 0; 0; 0; 0; 0]) 0x1000 0x1008
  = (replicate 5 (mk_descriptor 0 0x1000 0x1001), Diverge).
Proof.
  apply (X12_segment_loop_zero_run (fun _ => 0) 3
           (mk_memory 0x1000 [0xc0; 0; 0; 0; 0; 0; 0; 0]) 0x1000 0x1008
           (mk_descriptor 0 0x1000 0x1001)); try reflexivity; lia.
Defined.

(** X13: [scylla lsa-segment] starts decoding at the base of the segment
    that holds the given address: for a segment size that is a power of
    two the loop covers [[base, base + size)] with [base] the greatest
    multiple of the size at or below the address. *)
Theorem X13_segment_of_address (live_size : lsa_object_descriptor -> Z)
    (logalloc_alignment k : Z) (fuel : nat) (m : memory) (ptr : Z) :
  0 <= k ->
  exists seg_base,
    scylla_lsa_segment live_size logalloc_alignment (2 ^ k) fuel m ptr
    = segment_loop live_size logalloc_alignment fuel m seg_base (seg_base + 2 ^ k)
    /\ seg_base <= ptr < seg_base + 2 ^ k
    /\ seg_base `mod` 2 ^ k = 0.
Proof.
  intros Hk. exists (2 ^ k * (ptr / 2 ^ k)).
  assert (Hpow : 0 < 2 ^ k) by (apply Z.pow_pos_nonneg; lia).
  unfold scylla_lsa_segment. rewrite land_lnot_mask by done.
  split; [done|]. split.
  - pose proof (Z.div_mod ptr (2 ^ k) ltac:(lia)).
    pose proof (Z.mod_pos_bound ptr (2 ^ k) Hpow). lia.
  - rewrite Z.mul_comm. apply Z.mod_mul. lia.
Qed.

Lemma X13_segment_of_address_witness :
  exists seg_base,
    scylla_lsa_segment (fun _ => 0) 8 (2 ^ 17) 3 (mk_memory 0 []) 0x6000012345
    = segment_loop (fun _ => 0) 8 3 (mk_memory 0 []) seg_base (seg_base + 2 ^ 17)
    /\ seg_base <= 0x6000012345 < seg_base + 2 ^ 17
    /\ seg_base `mod` 2 ^ 17 = 0.
Proof.
  apply (X13_segment_of_address (fun _ => 0) 8 17 3 (mk_memory 0 []) 0x6000012345).
  lia.
Defined.
End lsa_extras.

Section fiber_extras.
Import ScyllaPtr Fiber.

Variable read_word : Z -> option Z.
Variable info_symbol : Z -> string.
Variable names : Symbols.names_t.
Variable analyze : Z -> outcome pointer_metadata.

Abbreviation probe := (_probe_pointer read_word info_symbol names analyze).
Abbreviation scan := (scan_region read_word info_symbol names analyze).
Abbreviation do_walk := (_do_walk read_word info_symbol names analyze).
Abbreviation rejected := (Fiber.rejected read_word info_symbol names analyze).

(** What an accepted pointer has passed. *)
Lemma probe_accepted w srs use_alloc tm vptr name :
  probe w srs use_alloc = Ok (Some (tm, vptr, name)) ->
  read_word w = Some vptr
  /\ (Symbols.resolve info_symbol names vptr false).1 = Some name
  /\ Symbols._name_is_on_whitelist name = true
  /\ (if use_alloc
      then analyze w = Ok tm /\ is_managed_by_seastar tm = true
           /\ is_live tm = Some true /\ offset_in_object tm = 0
      else tm = _init_generic_ptr w (Some srs)).
Proof.
  unfold _probe_pointer.
  destruct (read_word w) as [v|]; [|done].
  destruct ((Symbols.resolve info_symbol names v false).1) as [sym|] eqn:Er; [|done].
  destruct (Symbols._name_is_on_whitelist sym) eqn:Ew; cbn [negb]; [|done].
  destruct use_alloc.
  - destruct (analyze w) as [pm| |] eqn:Ea; cbn [mbind outcome_bind]; try done.
    destruct (is_managed_by_seastar pm) eqn:Em; cbn [negb orb]; [|done].
    destruct (is_live pm) as [[|]|] eqn:El; cbn [default from_option id negb orb];
      try done.
    destruct (offset_in_object pm =? 0) eqn:Eo; cbn [negb]; [|done].
    intros [= <- <- <-]. repeat split; try done. lia.
  - intros [= <- <- <-]. by repeat split.
Qed.

(** The loop over the words of one object returns nothing, or the fiber
    of the first accepted task with that task appended. *)
Lemma scan_region_inv recurse srs use_alloc its fiber :
  scan recurse srs use_alloc its = Ok fiber ->
  fiber = []
  \/ exists it w tm vptr name fiber',
       In it its /\ read_word it = Some w
       /\ probe w srs use_alloc = Ok (Some (tm, vptr, name))
       /\ recurse tm = Ok fiber'
       /\ fiber = fiber' ++ [(w, vptr, name)].
Proof.
  induction its as [|it rest IH]; cbn [scan_region].
  - intros [= <-]. by left.
  - destruct (read_word it) as [w|] eqn:Erd; [|done].
    destruct (probe w srs use_alloc) as [[[[tm vptr] name]|]| |] eqn:Ep;
      cbn [mbind outcome_bind]; try done.
    + destruct (recurse tm) as [fiber'| |] eqn:Er; cbn [mbind outcome_bind]; try done.
      intros [= <-]. right. exists it, w, tm, vptr, name, fiber'.
      repeat split; try done. by left.
    + intros Hrest.
      destruct (IH Hrest)
        as [->|(it' & w' & tm & vptr & name & fiber' & Hin & Hrest')];
        [by left|].
      right. exists it', w', tm, vptr, name, fiber'. split; [by right|done].
Qed.

Lemma do_walk_inv fuel ptr_meta i max_depth srs use_alloc fiber :
  do_walk (S fuel) ptr_meta i max_depth srs use_alloc = Ok fiber ->
  fiber = []
  \/ ((max_depth >? -1) && (i >=? max_depth) = false
      /\ exists sz it w tm vptr name fiber',
           size ptr_meta = Some sz
           /\ In it (scanned_words (ptr ptr_meta) sz)
           /\ read_word it = Some w
           /\ probe w srs use_alloc = Ok (Some (tm, vptr, name))
           /\ do_walk fuel tm (i + 1) max_depth srs use_alloc = Ok fiber'
           /\ fiber = fiber' ++ [(w, vptr, name)]).
Proof.
  cbn [_do_walk].
  destruct ((max_depth >? -1) && (i >=? max_depth)) eqn:E.
  { intros [= <-]. by left. }
  destruct (size ptr_meta) as [sz|] eqn:Esz; [|done].
  intros Hscan. apply scan_region_inv in Hscan
    as [->|(it & w & tm & vptr & name & fiber' & Hin & Hrd & Hp & Hrec & ->)];
    [by left|].
  right. split; [done|]. by exists sz, it, w, tm, vptr, name, fiber'.
Qed.

(** X14: with a depth limit (a [max_depth] that is not negative) the
    walk never returns more entries than the limit allows: at most
    [max_depth - i] from depth [i], whatever memory holds. *)
Theorem X14_walk_depth_bound (fuel : nat) (ptr_meta : pointer_metadata)
    (i max_depth srs : Z) (use_alloc : bool) (fiber : list entry) :
  0 <= max_depth ->
  _do_walk read_word info_symbol names analyze fuel ptr_meta i max_depth srs use_alloc
  = Ok fiber ->
  Z.of_nat (length fiber) <= Z.max 0 (max_depth - i).
Proof.
  intros Hmd. revert ptr_meta i fiber.
  induction fuel as [|fuel IH]; intros ptr_meta i fiber Hw; [done|].
  apply do_walk_inv in Hw
    as [->|(E & sz & it & w & tm & vptr & name & fiber' & _ & _ & _ & _ & Hrec & ->)].
  - simpl. lia.
  - apply IH in Hrec. rewrite length_app. cbn [length].
    apply andb_false_iff in E as [E|E]; lia.
Qed.

(** X15: every entry of a returned fiber has passed the acceptance test:
    its first word is the vtable pointer reported, the pointer resolves
    to the name reported, and the name is on the whitelist; with the
    classifier in use the entry is the start of a live allocation. *)
Theorem X15_walk_entries_accepted (fuel : nat) (ptr_meta : pointer_metadata)
    (i max_depth srs : Z) (use_alloc : bool) (fiber : list entry) :
  _do_walk read_word info_symbol names analyze fuel ptr_meta i max_depth srs use_alloc
  = Ok fiber ->
  forall w vptr name, In (w, vptr, name) fiber ->
    read_word w = Some vptr
    /\ (Symbols.resolve info_symbol names vptr false).1 = Some name
    /\ Symbols._name_is_on_whitelist name = true
    /\ (use_alloc = true ->
        exists tm, analyze w = Ok tm /\ is_managed_by_seastar tm = true
                   /\ is_live tm = Some true /\ offset_in_object tm = 0).
Proof.
  revert ptr_meta i fiber.
  induction fuel as [|fuel IH]; intros ptr_meta i fiber Hw w vptr name Hin; [done|].
  apply do_walk_inv in Hw
    as [->|(_ & sz & it & w' & tm & vptr' & name' & fiber' & _ & _ & _ & Hp & Hrec & ->)];
    [done|].
  apply in_app_or in Hin as [Hin|[[= <- <- <-]|[]]].
  - by apply (IH _ _ _ Hrec).
  - apply probe_accepted in Hp as (Hrd & Hres & Hwl & Hcls).
    repeat split; try done. intros ->. by exists tm.
Qed.

(** X16: the two memory reads of the walk fail differently.  A probed
    pointer whose target cannot be read is skipped; a word of the
    scanned object that cannot be read, met before any accepted word,
    ends the whole walk with the memory error. *)
Theorem X16_walk_read_errors (fuel : nat) (ptr_meta : pointer_metadata)
    (i max_depth srs sz : Z) (use_alloc : bool) (pre post : list Z) (it : Z) :
  (max_depth >? -1) && (i >=? max_depth) = false ->
  size ptr_meta = Some sz ->
  scanned_words (ptr ptr_meta) sz = pre ++ it :: post ->
  Forall (Fiber.rejected read_word info_symbol names analyze srs use_alloc) pre ->
  read_word it = None ->
  (forall w, read_word w = None ->
     _probe_pointer read_word info_symbol names analyze w srs use_alloc = Ok None)
  /\ _do_walk read_word info_symbol names analyze (S fuel) ptr_meta i max_depth srs
       use_alloc
     = Raise (MemoryError it).
Proof.
  intros Hd Hsz Hsc Hpre Hrd. split.
  - intros w Hw. unfold _probe_pointer. by rewrite Hw.
  - cbn [_do_walk]. rewrite Hd, Hsz, Hsc. clear Hsc.
    induction Hpre as [|x pre (v & Hv & Hp) _ IH]; cbn [app scan_region].
    + by rewrite Hrd.
    + rewrite Hv, Hp. cbn [mbind outcome_bind]. exact IH.
Qed.

(** X17: in fallback mode the classifier is not consulted: the walk is
    the same for any two classifiers, and every task found is scanned
    over the caller's region size. *)
Theorem X17_fallback_ignores_classifier (analyze' : Z -> outcome pointer_metadata)
    (fuel : nat) (ptr_meta : pointer_metadata) (i max_depth srs : Z) :
  _do_walk read_word info_symbol names analyze fuel ptr_meta i max_depth srs false
  = _do_walk read_word info_symbol names analyze' fuel ptr_meta i max_depth srs false
  /\ forall w tm vptr name,
       _probe_pointer read_word info_symbol names analyze w srs false
       = Ok (Some (tm, vptr, name)) ->
       size tm = Some srs /\ ptr tm = w.
Proof.
  split.
  - revert ptr_meta i. induction fuel as [|fuel IH]; intros ptr_meta i; [done|].
    cbn [_do_walk]. destruct ((max_depth >? -1) && (i >=? max_depth)); [done|].
    destruct (size ptr_meta) as [sz|]; [|done].
    induction (scanned_words (ptr ptr_meta) sz) as [|it rest IHl]; [done|].
    cbn [scan_region]. destruct (read_word it) as [w|]; [|done].
    change (_probe_pointer read_word info_symbol names analyze' w srs false)
      with (probe w srs false).
    destruct (probe w srs false) as [[[[tm vptr] name]|]| |]; cbn [mbind outcome_bind];
      try done.
    by rewrite IH.
  - intros w tm vptr name Hp. apply probe_accepted in Hp as (_ & _ & _ & ->). done.
Qed.
End fiber_extras.

Section fiber_extras_examples.
Import ScyllaPtr Fiber Examples.

Lemma X14_walk_depth_bound_witness :
  Z.of_nat (length [(0x5000, 0x400010,
                     "vtable for seastar::continuation<lambda> + 16 "%string)])
  <= Z.max 0 (1 - 0).
Proof.
  apply (X14_walk_depth_bound fiber_read_word fiber_info_symbol ∅ fiber_analyze 5
           (live_object 0x4000 32) 0 1 512 true); [lia|reflexivity].
Defined.

Lemma X15_walk_entries_accepted_witness :
  fiber_read_word 0x5000 = Some 0x400010
  /\ (Symbols.resolve fiber_info_symbol ∅ 0x400010 false).1
     = Some "vtable for seastar::continuation<lambda> + 16 "%string
  /\ Symbols._name_is_on_whitelist "vtable for seastar::continuation<lambda> + 16 " = true
  /\ (true = true ->
      exists tm, fiber_analyze 0x5000 = Ok tm /\ is_managed_by_seastar tm = true
                 /\ is_live tm = Some true /\ offset_in_object tm = 0).
Proof.
  apply (X15_walk_entries_accepted fiber_read_word fiber_info_symbol ∅ fiber_analyze 5
           (live_object 0x4000 32) 0 (-1) 512 true
           [(0x6000, 0x400010, "vtable for seastar::continuation<lambda> + 16 "%string);
            (0x5000, 0x400010, "vtable for seastar::continuation<lambda> + 16 "%string)]).
  - reflexivity.
  - right. left. reflexivity.
Defined.

(** The word at 0x6028 is not readable: a walk that takes the task at
    0x6000 to be 48 bytes long stops there. *)
Lemma X16_walk_read_errors_witness :
  (forall w, fiber_read_word w = None ->
     _probe_pointer fiber_read_word fiber_info_symbol ∅ fiber_analyze w 512 true = Ok None)
  /\ _do_walk fiber_read_word fiber_info_symbol ∅ fiber_analyze 3
       (live_object 0x6000 48) 0 (-1) 512 true
     = Raise (MemoryError 0x6028).
Proof.
  apply (X16_walk_read_errors fiber_read_word fiber_info_symbol ∅ fiber_analyze 2
           (live_object 0x6000 48) 0 (-1) 512 48 true
           [0x6008; 0x6010; 0x6018; 0x6020] [0x6030] 0x6028);
    try reflexivity.
  repeat constructor; by exists 0x3000.
Defined.

Lemma X17_fallback_ignores_classifier_witness :
  _do_walk fiber_read_word fiber_info_symbol ∅ fiber_analyze 5
    (_init_generic_ptr 0x4000 (Some 32)) 0 (-1) 32 false
  = _do_walk fiber_read_word fiber_info_symbol ∅ (fun _ => Raise AttributeError) 5
      (_init_generic_ptr 0x4000 (Some 32)) 0 (-1) 32 false.
Proof.
  apply (X17_fallback_ignores_classifier fiber_read_word fiber_info_symbol ∅ fiber_analyze
           (fun _ => Raise AttributeError)).
Defined.
End fiber_extras_examples.

Section resolve_extras.
Import Symbols.

(** X18: the symbol cache.  After [resolve(addr)] with caching, the name
    found is returned for [addr] by every later call, whatever gdb
    would answer by then, and the cache is left as it is by such a hit;
    the names of other addresses are not touched.  A call with
    [cache=False] returns the same name and leaves the cache unchanged. *)
Theorem X18_resolve_cache (info_symbol info_symbol' : Z -> string)
    (names : gmap Z (option string)) (addr : Z) (cache' : bool) :
  let r := resolve info_symbol names addr true in
  resolve info_symbol' r.2 addr cache' = (r.1, r.2)
  /\ (forall a, a <> addr -> r.2 !! a = names !! a)
  /\ resolve info_symbol names addr false = (r.1, names).
Proof.
  unfold resolve. destruct (names !! addr) as [name|] eqn:E; cbn [fst snd].
  - rewrite E. done.
  - rewrite lookup_insert_eq. split; [done|]. split; [|done].
    intros a Ha. by rewrite lookup_insert_ne.
Qed.
End resolve_extras.
Section object_graph_extras.
Import ObjectGraph GraphPaths.

Variable find : Z -> list (Z * Z).
Variable describe : Z -> outcome obj_info.
Variable clock : nat -> Z.
Variables max_depth max_vertices timeout_seconds : Z.

Abbreviation hits_loop := (scan_hits describe clock max_vertices timeout_seconds).
Abbreviation level_loop := (scan_level find describe clock max_vertices timeout_seconds).
Abbreviation while_loop :=
  (bfs_loop find describe clock max_depth max_vertices timeout_seconds).
Abbreviation traverse :=
  (_traverse_object_graph_breadth_first find describe clock max_depth max_vertices
     timeout_seconds).

(** An invariant of the inner loop is a state predicate kept by its
    three ways through the loop body: the stop on a timeout, the edge to
    a vertex already known, and the edge to a new vertex. *)
Lemma scan_hits_invariant (P : bfs_state -> Prop) (current_obj : Z) (all_hits : list (Z * Z)) :
  (forall st now, P st ->
     P (mk_bfs_state (vertices st) (edges st) (next_objects st) true now)) ->
  (forall st next_obj next_off now,
     (next_obj, next_off) ∈ all_hits -> is_Some (vertices st !! next_obj) -> P st ->
     P (mk_bfs_state (vertices st) (add_edge (edges st) (next_obj, current_obj) next_off)
          (next_objects st) (stop st) now)) ->
  (forall st next_obj next_off info now,
     (next_obj, next_off) ∈ all_hits -> vertices st !! next_obj = None ->
     describe next_obj = Ok info -> P st ->
     P (mk_bfs_state (<[next_obj := info]> (vertices st))
          (add_edge (edges st) (next_obj, current_obj) next_off)
          (next_objects st ++ [next_obj])
          (if (max_vertices >? 0)
              && (Z.of_nat (base.size (<[next_obj := info]> (vertices st))) >=? max_vertices)
           then true else stop st)
          now)) ->
  forall hits st st',
    hits ⊆ all_hits -> P st -> hits_loop current_obj hits st = Ok st' -> P st'.
Proof.
  intros Htimeout Hseen Hnew.
  induction hits as [|[next_obj next_off] hits IH]; intros st st' Hsub HP Hrun.
  - by injection Hrun as <-.
  - cbn [scan_hits] in Hrun.
    assert (Hin : (next_obj, next_off) ∈ all_hits) by (apply Hsub; by left).
    assert (Hsub' : hits ⊆ all_hits) by (intros x Hx; apply Hsub; by right).
    destruct ((timeout_seconds >? 0) && (clock (ticks st) - start_time clock >? timeout_seconds)).
    { injection Hrun as <-. by apply Htimeout. }
    destruct (decide (is_Some (vertices st !! next_obj))) as [Hk|Hk].
    { eapply IH; [done| |exact Hrun]. by apply Hseen. }
    apply eq_None_not_Some in Hk.
    destruct (describe next_obj) as [info| |] eqn:Ed; cbn [mbind outcome_bind] in Hrun;
      try done.
    pose proof (Hnew st next_obj next_off info
                  (if timeout_seconds >? 0 then S (ticks st) else ticks st)
                  Hin Hk Ed HP) as HP'.
    destruct ((max_vertices >? 0)
              && (Z.of_nat (base.size (<[next_obj := info]> (vertices st))) >=? max_vertices)).
    + by injection Hrun as <-.
    + eapply IH; [done|exact HP'|exact Hrun].
Qed.

Lemma scan_level_invariant (P : bfs_state -> Prop) (current_objects : list Z) :
  (forall c hits st st', c ∈ current_objects -> hits ⊆ find c -> P st ->
     hits_loop c hits st = Ok st' -> P st') ->
  forall st st', P st -> level_loop current_objects st = Ok st' -> P st'.
Proof.
  induction current_objects as [|c rest IH]; intros Hstep st st' HP Hrun.
  - by injection Hrun as <-.
  - cbn [scan_level] in Hrun.
    destruct (hits_loop c (find c) st) as [st1| |] eqn:E; cbn [mbind outcome_bind] in Hrun;
      try done.
    eapply IH; [|eapply (Hstep c (find c) st st1); [by left|done|done|done]|exact Hrun].
    intros c' hits s s' Hc'. apply Hstep. by right.
Qed.

(** *** Edges and vertices are backed by what [find] reported *)

Lemma add_edge_lookup es e off e' :
  add_edge es e off !! e'
  = if decide (e = e') then Some (default ∅ (es !! e) ∪ {[off]}) else es !! e'.
Proof. unfold add_edge. rewrite lookup_insert. by destruct (decide (e = e')). Qed.

Lemma edges_valid_add st next_obj current_obj next_off vs nexts stp now :
  (next_obj, next_off) ∈ find current_obj ->
  edges_valid find st ->
  (forall v, is_Some (vs !! v) -> v = next_obj \/ is_Some (vertices st !! v)) ->
  edges_valid find (mk_bfs_state vs (add_edge (edges st) (next_obj, current_obj) next_off)
                 nexts stp now).
Proof.
  intros Hin (Hne & Hval & Hv) Hvs. split; [|split]; cbn [edges vertices].
  - intros a b offs. rewrite add_edge_lookup.
    destruct (decide ((next_obj, current_obj) = (a, b))) as [E|E]; [|apply Hne].
    intros [= <-]. exists next_off. set_solver.
  - intros a b offs off. rewrite add_edge_lookup.
    destruct (decide ((next_obj, current_obj) = (a, b))) as [E|E]; [|apply Hval].
    injection E as <- <-. intros [= <-] [Hoff|Hoff]%elem_of_union.
    + destruct (edges st !! (next_obj, current_obj)) as [offs|] eqn:Ee;
        cbn [default from_option id] in Hoff; [by eapply Hval|set_solver].
    + apply elem_of_singleton in Hoff as ->. done.
  - intros v Hvv. destruct (Hvs v Hvv) as [->|Hold].
    + exists current_obj. rewrite add_edge_lookup. by rewrite decide_True.
    + destruct (Hv v Hold) as [b Hb]. exists b. rewrite add_edge_lookup.
      destruct (decide ((next_obj, current_obj) = (v, b))); [done|exact Hb].
Qed.

Lemma scan_hits_edges_valid c hits st st' :
  hits ⊆ find c -> edges_valid find st -> hits_loop c hits st = Ok st' ->
  edges_valid find st'.
Proof.
  apply (scan_hits_invariant (edges_valid find) c (find c)).
  - intros s now H. exact H.
  - intros s next_obj next_off now Hin Hk H.
    apply edges_valid_add; [done|done|]. intros v Hv. by right.
  - intros s next_obj next_off info now Hin Hk Hd H.
    apply edges_valid_add; [done|done|]. intros v Hv. cbn [vertices] in Hv.
    rewrite lookup_insert in Hv. destruct (decide (next_obj = v)); [by left|by right].
Qed.

Lemma bfs_loop_edges_valid fuel depth current st st' :
  edges_valid find st -> while_loop fuel depth current st = Ok st' -> edges_valid find st'.
Proof.
  revert depth current st. induction fuel as [|fuel IH]; intros depth current st Hv Hrun;
    [done|].
  cbn [bfs_loop] in Hrun. destruct (stop st); [by injection Hrun as <-|].
  destruct (level_loop current st) as [st1| |] eqn:E; cbn [mbind outcome_bind] in Hrun;
    try done.
  assert (Hv1 : edges_valid find st1).
  { eapply (scan_level_invariant (edges_valid find) current); [|exact Hv|exact E].
    intros c hits s s' _. apply scan_hits_edges_valid. }
  destruct ((max_depth >? 0) && (depth + 1 =? max_depth)).
  - injection Hrun as <-. exact Hv1.
  - eapply IH; [|exact Hrun]. exact Hv1.
Qed.

(** X19: every edge of the returned graph is backed by the memory scan:
    an offset recorded on the edge from [a] to [b] is an offset at which
    [find(b)] reported [a], no edge has an empty offset set, and every
    vertex is the source of some edge. *)
Theorem X19_graph_edges_valid (fuel : nat) (address : Z)
    (es : gmap (Z * Z) (gset Z)) (vs : gmap Z obj_info) :
  _traverse_object_graph_breadth_first find describe clock max_depth
    max_vertices timeout_seconds fuel address = Ok (es, vs) ->
  (forall a b offs, es !! (a, b) = Some offs ->
     (exists off, off ∈ offs) /\ forall off, off ∈ offs -> (a, off) ∈ find b)
  /\ (forall v, is_Some (vs !! v) -> exists b, is_Some (es !! (v, b))).
Proof.
  unfold _traverse_object_graph_breadth_first.
  destruct (while_loop fuel 0 [address] (mk_bfs_state ∅ ∅ [] false 1)) as [st| |] eqn:E;
    cbn [mbind outcome_bind]; try done.
  intros [= <- <-].
  assert (Hinit : edges_valid find (mk_bfs_state ∅ ∅ [] false 1)).
  { split; [|split]; cbn [edges vertices]; intros *; rewrite lookup_empty;
      try done. }
  destruct (bfs_loop_edges_valid _ _ _ _ _ Hinit E) as (Hne & Hval & Hv).
  split; [|exact Hv]. intros a b offs Hab. split; [by eapply Hne|].
  intros off. by apply Hval.
Qed.

(** *** Distance from the root *)

Lemma scan_hits_within address d c hits st st' :
  hops find address d c -> hits ⊆ find c ->
  within find address (S d) st -> hits_loop c hits st = Ok st' -> within find address (S d) st'.
Proof.
  intros Hc. apply (scan_hits_invariant (within find address (S d)) c (find c)).
  - intros s now H. exact H.
  - intros s next_obj next_off now Hin Hk H. exact H.
  - intros s next_obj next_off info now Hin Hk Hd [Hv Hn].
    assert (Hnew : hops find address (S d) next_obj) by (by eapply hops_step).
    split; cbn [vertices next_objects].
    + intros v. rewrite lookup_insert. destruct (decide (next_obj = v)) as [<-|];
        [|apply Hv]. intros _. exists (S d). split; [lia|done].
    + intros x [Hx|Hx]%elem_of_app; [by apply Hn|].
      apply list_elem_of_singleton in Hx as ->. done.
Qed.

Lemma bfs_loop_within address fuel (d : nat) current st st' :
  (forall c, c ∈ current -> hops find address d c) ->
  (forall v, is_Some (vertices st !! v) ->
     exists n, (1 <= n <= d)%nat /\ hops find address n v) ->
  next_objects st = [] ->
  (0 < max_depth -> Z.of_nat d < max_depth) ->
  while_loop fuel (Z.of_nat d) current st = Ok st' ->
  forall v, is_Some (vertices st' !! v) ->
    exists n, (1 <= n)%nat /\ hops find address n v
              /\ (0 < max_depth -> Z.of_nat n <= max_depth).
Proof.
  revert d current st.
  induction fuel as [|fuel IH]; intros d current st Hcur Hvs Hnext Hd Hrun; [done|].
  cbn [bfs_loop] in Hrun. destruct (stop st).
  { injection Hrun as <-. intros v Hv. destruct (Hvs v Hv) as (n & Hn & Hh).
    exists n. split; [lia|]. split; [done|]. intros Hmd. specialize (Hd Hmd). lia. }
  destruct (level_loop current st) as [st1| |] eqn:E; cbn [mbind outcome_bind] in Hrun;
    try done.
  assert (H1 : within find address (S d) st1).
  { eapply (scan_level_invariant (within find address (S d)) current); [| |exact E].
    - intros c hits s s' Hc. apply scan_hits_within. by apply Hcur.
    - split.
      + intros v Hv. destruct (Hvs v Hv) as (n & Hn & Hh). exists n. split; [lia|done].
      + rewrite Hnext. intros x Hx. by apply elem_of_nil in Hx. }
  destruct H1 as [Hv1 Hn1].
  destruct ((max_depth >? 0) && (Z.of_nat d + 1 =? max_depth)) eqn:Emd.
  - injection Hrun as <-. cbn [vertices]. intros v Hv.
    destruct (Hv1 v Hv) as (n & Hn & Hh). exists n. split; [lia|]. split; [done|].
    intros _. apply andb_true_iff in Emd as [_ Emd]. lia.
  - replace (Z.of_nat d + 1) with (Z.of_nat (S d)) in Hrun by lia.
    eapply (IH (S d) (next_objects st1)
              (mk_bfs_state (vertices st1) (edges st1) [] (stop st1) (ticks st1)));
      [exact Hn1|exact Hv1|done| |exact Hrun].
    intros Hmd. specialize (Hd Hmd).
    apply andb_false_iff in Emd as [Emd|Emd]; lia.
Qed.

(** X20: every vertex of the returned graph is reached from the root by
    following references backwards, in at least one step; with a depth
    limit ([max_depth > 0]) in at most [max_depth] steps. *)
Theorem X20_graph_vertices_within_depth (fuel : nat) (address : Z)
    (es : gmap (Z * Z) (gset Z)) (vs : gmap Z obj_info) (v : Z) :
  _traverse_object_graph_breadth_first find describe clock max_depth
    max_vertices timeout_seconds fuel address = Ok (es, vs) ->
  is_Some (vs !! v) ->
  exists n, (1 <= n)%nat /\ hops find address n v
            /\ (0 < max_depth -> Z.of_nat n <= max_depth).
Proof.
  unfold _traverse_object_graph_breadth_first.
  destruct (while_loop fuel 0 [address] (mk_bfs_state ∅ ∅ [] false 1)) as [st| |] eqn:E;
    cbn [mbind outcome_bind]; try done.
  intros [= <- <-].
  apply (bfs_loop_within address fuel 0 [address] (mk_bfs_state ∅ ∅ [] false 1) st).
  - intros c ->%list_elem_of_singleton. constructor.
  - cbn [vertices]. intros v'. rewrite lookup_empty. by intros [? ?].
  - done.
  - lia.
  - exact E.
Qed.

(** *** Termination *)

Lemma scan_hits_total c hits st :
  (forall p, exists info, describe p = Ok info) ->
  exists st', hits_loop c hits st = Ok st'.
Proof.
  intros Hd. revert st. induction hits as [|[next_obj next_off] hits IH]; intros st.
  - by eexists.
  - cbn [scan_hits].
    destruct ((timeout_seconds >? 0) && (clock (ticks st) - start_time clock >? timeout_seconds));
      [by eexists|].
    destruct (decide (is_Some (vertices st !! next_obj))); [apply IH|].
    destruct (Hd next_obj) as [info ->]. cbn [mbind outcome_bind].
    destruct ((max_vertices >? 0)
              && (Z.of_nat (base.size (<[next_obj := info]> (vertices st))) >=? max_vertices));
      [by eexists|apply IH].
Qed.

Lemma scan_level_total current st :
  (forall p, exists info, describe p = Ok info) ->
  exists st', level_loop current st = Ok st'.
Proof.
  intros Hd. revert st. induction current as [|c rest IH]; intros st; [by eexists|].
  cbn [scan_level]. destruct (scan_hits_total c (find c) st Hd) as [st1 ->].
  cbn [mbind outcome_bind]. apply IH.
Qed.

Lemma bfs_loop_total fuel depth current st :
  (forall p, exists info, describe p = Ok info) ->
  0 <= depth < max_depth -> max_depth - depth <= Z.of_nat fuel ->
  exists st', while_loop fuel depth current st = Ok st'.
Proof.
  intros Hd. revert depth current st.
  induction fuel as [|fuel IH]; intros depth current st Hdepth Hfuel; [lia|].
  cbn [bfs_loop]. destruct (stop st); [by eexists|].
  destruct (scan_level_total current st Hd) as [st1 ->]. cbn [mbind outcome_bind].
  destruct ((max_depth >? 0) && (depth + 1 =? max_depth)) eqn:E; [by eexists|].
  apply IH; apply andb_false_iff in E as [E|E]; lia.
Qed.

(** X21: with a depth limit the traversal returns: if classifying an
    object never fails, [max_depth] rounds of the outer loop are enough,
    whatever the other two limits are. *)
Theorem X21_graph_depth_limit_terminates (fuel : nat) (address : Z) :
  (forall p, exists info, describe p = Ok info) ->
  0 < max_depth -> max_depth <= Z.of_nat fuel ->
  exists es vs, _traverse_object_graph_breadth_first find describe clock max_depth
    max_vertices timeout_seconds fuel address = Ok (es, vs).
Proof.
  intros Hd Hmd Hfuel. unfold _traverse_object_graph_breadth_first.
  destruct (bfs_loop_total fuel 0 [address] (mk_bfs_state ∅ ∅ [] false 1) Hd)
    as [st ->]; [lia|lia|].
  cbn [mbind outcome_bind]. by eexists _, _.
Qed.

(** Without a depth limit an empty frontier is never left. *)
Lemma bfs_loop_empty_frontier fuel depth st :
  max_depth <= 0 -> stop st = false -> next_objects st = [] ->
  while_loop fuel depth [] st = Diverge.
Proof.
  intros Hmd. revert depth st.
  induction fuel as [|fuel IH]; intros depth st Hstop Hnext; [done|].
  cbn [bfs_loop scan_level mbind outcome_bind mret outcome_ret]. rewrite Hstop.
  destruct (max_depth >? 0) eqn:E; [lia|]. cbn [andb]. rewrite Hnext.
  by apply IH.
Qed.

(** X22: without a depth limit ([max_depth <= 0]) the traversal of a
    root that nothing refers to never returns, whatever [max_vertices]
    and the timeout are: the loop runs on with an empty frontier, where
    neither of the two is checked. *)
Theorem X22_graph_empty_frontier_diverges (address : Z) :
  max_depth <= 0 -> find address = [] ->
  forall fuel, _traverse_object_graph_breadth_first find describe clock max_depth
    max_vertices timeout_seconds fuel address = Diverge.
Proof.
  intros Hmd Hfind fuel. unfold _traverse_object_graph_breadth_first.
  destruct fuel as [|fuel]; [done|].
  cbn [bfs_loop stop scan_level]. rewrite Hfind.
  cbn [scan_hits mbind outcome_bind mret outcome_ret].
  destruct (max_depth >? 0) eqn:E; [lia|]. cbn [andb next_objects].
  by rewrite bfs_loop_empty_frontier.
Qed.

(** *** How far the vertex count can pass [max_vertices] *)

Lemma scan_hits_counted c hits st st' :
  0 < max_vertices ->
  counted max_vertices st -> hits_loop c hits st = Ok st' -> counted max_vertices st'.
Proof.
  intros Hmax. apply (scan_hits_invariant (counted max_vertices) c hits); [| | |done].
  - intros s now [_ Hn]. split; [done|exact Hn].
  - intros s next_obj next_off now _ _ H. exact H.
  - intros s next_obj next_off info now _ Hk _ [Hq Hn].
    assert (Hsz : base.size (<[next_obj := info]> (vertices s)) = S (base.size (vertices s)))
      by (by apply map_size_insert_None).
    unfold counted, vcount in *. cbn [stop vertices next_objects].
    rewrite Hsz, length_app. cbn [length]. split; [|lia].
    destruct (max_vertices >? 0) eqn:E1; [|lia]. cbn [andb].
    destruct (Z.of_nat (S (base.size (vertices s))) >=? max_vertices) eqn:E2; [done|].
    intros _. rewrite Z.geb_leb in E2. apply Z.leb_gt in E2. lia.
Qed.

Lemma scan_level_count current st st' :
  0 < max_vertices ->
  counted max_vertices st -> level_loop current st = Ok st' ->
  counted max_vertices st'
  /\ vcount st' <= Z.max (vcount st) (max_vertices - 1) + Z.of_nat (length current).
Proof.
  intros Hmax. revert st. induction current as [|c rest IH]; intros st Hc Hrun.
  - injection Hrun as <-. split; [done|]. cbn [length]. lia.
  - cbn [scan_level] in Hrun.
    destruct (hits_loop c (find c) st) as [st1| |] eqn:E; cbn [mbind outcome_bind] in Hrun;
      try done.
    pose proof (scan_hits_counted c (find c) st st1 Hmax Hc E) as Hc1.
    destruct (scan_hits_bound describe clock max_vertices timeout_seconds
                c (find c) st st1 Hmax E) as [Hlow Hhigh].
    destruct (IH st1 Hc1 Hrun) as [Hc' Hb]. split; [done|].
    unfold vcount in *. cbn [length]. lia.
Qed.

Lemma bfs_loop_count fuel depth current st st' :
  0 < max_vertices ->
  counted max_vertices st ->
  vcount st <= Z.max max_vertices (2 * max_vertices - 2) ->
  Z.of_nat (length current) <= Z.max 1 (vcount st) ->
  while_loop fuel depth current st = Ok st' ->
  vcount st' <= Z.max max_vertices (2 * max_vertices - 2).
Proof.
  intros Hmax. revert depth current st.
  induction fuel as [|fuel IH]; intros depth current st Hc Hb Hlen Hrun; [done|].
  cbn [bfs_loop] in Hrun. destruct (stop st) eqn:Estop; [by injection Hrun as <-|].
  destruct (level_loop current st) as [st1| |] eqn:E; cbn [mbind outcome_bind] in Hrun;
    try done.
  destruct (scan_level_count current st st1 Hmax Hc E) as [Hc1 Hb1].
  assert (Hlt : vcount st < max_vertices) by (by apply Hc).
  assert (Hb1' : vcount st1 <= Z.max max_vertices (2 * max_vertices - 2)) by lia.
  destruct ((max_depth >? 0) && (depth + 1 =? max_depth)).
  - by injection Hrun as <-.
  - eapply IH; [| | |exact Hrun].
    + destruct Hc1 as [Hq Hn]. split; [exact Hq|]. cbn [next_objects length]. unfold vcount. lia.
    + exact Hb1'.
    + destruct Hc1 as [_ Hn]. unfold vcount in *. cbn [vertices]. lia.
Qed.

(** X23: what the vertex limit does guarantee.  With [max_vertices > 0]
    the traversal returns at most [max(max_vertices, 2 * max_vertices -
    2)] vertices: the limit can be passed, but by fewer vertices than
    the limit itself. *)
Theorem X23_graph_vertex_count_bound (fuel : nat) (address : Z)
    (es : gmap (Z * Z) (gset Z)) (vs : gmap Z obj_info) :
  0 < max_vertices ->
  _traverse_object_graph_breadth_first find describe clock max_depth
    max_vertices timeout_seconds fuel address = Ok (es, vs) ->
  Z.of_nat (base.size vs) <= Z.max max_vertices (2 * max_vertices - 2).
Proof.
  intros Hmax. unfold _traverse_object_graph_breadth_first.
  destruct (while_loop fuel 0 [address] (mk_bfs_state ∅ ∅ [] false 1)) as [st| |] eqn:E;
    cbn [mbind outcome_bind]; try done.
  intros [= <- <-].
  apply (bfs_loop_count fuel 0 [address] (mk_bfs_state ∅ ∅ [] false 1) st Hmax);
    [| | |exact E].
  - split; unfold vcount; cbn [stop vertices next_objects length];
      rewrite map_size_empty; lia.
  - unfold vcount. cbn [vertices]. rewrite map_size_empty. lia.
  - unfold vcount. cbn [vertices length]. rewrite map_size_empty. lia.
Qed.
End object_graph_extras.

Section object_graph_extras_examples.
Import ObjectGraph GraphPaths Examples MoreExamples.

Lemma X19_graph_edges_valid_witness :
  (forall a b offs, graph_edges !! (a, b) = Some offs ->
     (exists off, off ∈ offs) /\ forall off, off ∈ offs -> (a, off) ∈ graph_find b)
  /\ (forall v, is_Some (graph_vertices !! v) -> exists b, is_Some (graph_edges !! (v, b))).
Proof.
  apply (X19_graph_edges_valid graph_find graph_describe graph_clock 2 (-1) (-1) 2 100
           graph_edges graph_vertices).
  vm_compute. reflexivity.
Defined.

Lemma X20_graph_vertices_within_depth_witness :
  exists n, (1 <= n)%nat /\ hops graph_find 100 n 400 /\ (0 < 2 -> Z.of_nat n <= 2).
Proof.
  apply (X20_graph_vertices_within_depth graph_find graph_describe graph_clock 2 (-1) (-1)
           2 100 graph_edges graph_vertices 400).
  - vm_compute. reflexivity.
  - vm_compute. eexists. reflexivity.
Defined.

Lemma X21_graph_depth_limit_terminates_witness :
  exists es vs,
    _traverse_object_graph_breadth_first graph_find graph_describe graph_clock
      2 (-1) (-1) 2 100 = Ok (es, vs).
Proof.
  apply (X21_graph_depth_limit_terminates graph_find graph_describe graph_clock 2 (-1) (-1)
           2 100).
  - intros p. eexists. reflexivity.
  - lia.
  - lia.
Defined.

(** Nothing refers to the object 400. *)
Lemma X22_graph_empty_frontier_diverges_witness :
  _traverse_object_graph_breadth_first graph_find graph_describe graph_clock
    (-1) 3 10 7 400 = Diverge.
Proof.
  apply (X22_graph_empty_frontier_diverges graph_find graph_describe graph_clock (-1) 3 10
           400).
  - lia.
  - reflexivity.
Defined.

(** The bound is met: with [max_vertices = 3] the four vertices of the
    example are returned. *)
Lemma X23_graph_vertex_count_bound_witness :
  Z.of_nat (base.size graph_vertices) <= Z.max 3 (2 * 3 - 2).
Proof.
  apply (X23_graph_vertex_count_bound graph_find graph_describe graph_clock (-1) 3 (-1)
           5 100 graph_edges graph_vertices).
  - lia.
  - vm_compute. reflexivity.
Defined.
End object_graph_extras_examples.
Section heap_profile_build.
Import HeapProf HeapProfBuild.

Lemma find_dict_set k c ch :
  List.find (has_key k) (dict_set c ch)
  = if has_key k c then Some c else List.find (has_key k) ch.
Proof.
  induction ch as [|x rest IH]; cbn [dict_set List.find].
  - done.
  - unfold has_key in *. destruct (bool_decide (key x = key c)) eqn:E1.
    + apply bool_decide_eq_true in E1. cbn [List.find].
      destruct (bool_decide (key c = k)) eqn:E2; [done|].
      rewrite E1, E2. done.
    + apply bool_decide_eq_false in E1. cbn [List.find].
      destruct (bool_decide (key x = k)) eqn:E2.
      * apply bool_decide_eq_true in E2.
        destruct (bool_decide (key c = k)) eqn:E3; [|done].
        apply bool_decide_eq_true in E3. congruence.
      * exact IH.
Qed.

Lemma get_add k n c :
  get k (add n c) = if has_key k c then Some c else get k n.
Proof. unfold get, add. cbn [children]. apply find_dict_set. Qed.

Lemma add_trace_key sz cnt seq n : key (add_trace sz cnt seq n) = key n.
Proof. destruct seq; destruct n; done. Qed.

Lemma add_trace_size sz cnt seq n : size (add_trace sz cnt seq n) = size n + sz.
Proof. destruct seq; destruct n; done. Qed.

Lemma add_trace_count sz cnt seq n : count (add_trace sz cnt seq n) = count n + cnt.
Proof. destruct seq; destruct n; done. Qed.

Lemma get_bump k sz cnt n : get k (bump sz cnt n) = get k n.
Proof. done. Qed.

Lemma get_has_key k n c : get k n = Some c -> key c = k.
Proof.
  unfold get. intros Hf. apply find_some in Hf as [_ Hk].
  by apply bool_decide_eq_true in Hk.
Qed.

Lemma get_or_add_key n k : key (get_or_add n k) = Some k.
Proof.
  unfold get_or_add. destruct (get (Some k) n) as [c|] eqn:E; [|done].
  by apply get_has_key in E.
Qed.

Lemma find_path_init path k :
  find_path path (ProfNode_init k) = if path is [] then Some (ProfNode_init k) else None.
Proof. by destruct path. Qed.

Lemma prefix_cons_iff (a b : Z) (p l : list Z) :
  (a :: p) `prefix_of` (b :: l) <-> a = b /\ p `prefix_of` l.
Proof.
  split.
  - intros Hp. split; [by eapply prefix_cons_inv_1|by eapply prefix_cons_inv_2].
  - intros [-> Hp]. by apply prefix_cons.
Qed.

(** What one walk down the tree changes: the nodes along the walk gain
    the site's size and count, or are created with them; nothing else
    is touched. *)
Lemma find_path_add_trace_attr (attr : ProfNode -> Z) (d sz cnt : Z) :
  (forall seq n, attr (add_trace sz cnt seq n) = attr n + d) ->
  (forall k, attr (ProfNode_init k) = 0) ->
  forall seq path n,
    from_option attr 0 (find_path path (add_trace sz cnt seq n))
    = from_option attr 0 (find_path path n)
      + (if bool_decide (path `prefix_of` seq) then d else 0).
Proof.
  intros Hadd Hinit seq. induction seq as [|addr rest IH]; intros path n.
  - destruct path as [|a p].
    + cbn [find_path from_option]. rewrite Hadd.
      rewrite bool_decide_eq_true_2; [done|apply prefix_nil].
    + cbn [add_trace find_path]. rewrite get_bump.
      rewrite bool_decide_eq_false_2; [lia|]. intros Hp. by apply prefix_nil_inv in Hp.
  - destruct path as [|a p].
    + cbn [find_path from_option]. rewrite Hadd.
      rewrite bool_decide_eq_true_2; [done|apply prefix_nil].
    + cbn [add_trace find_path]. rewrite get_add. unfold has_key.
      rewrite add_trace_key, get_or_add_key, get_bump.
      destruct (decide (a = addr)) as [->|Hne].
      * rewrite bool_decide_eq_true_2 by done. cbn [mbind option_bind].
        rewrite IH. unfold get_or_add. rewrite get_bump.
        rewrite (bool_decide_ext _ _ (prefix_cons_iff addr addr p rest)).
        destruct (get (Some addr) n) as [c0|]; cbn [default mbind option_bind from_option].
        -- destruct (bool_decide (p `prefix_of` rest)) eqn:E.
           ++ rewrite bool_decide_eq_true_2; [done|]. split; [done|].
              by apply bool_decide_eq_true in E.
           ++ rewrite bool_decide_eq_false_2; [done|]. intros [_ Hp].
              by apply bool_decide_eq_false in E.
        -- rewrite find_path_init.
           assert (Hz : from_option attr 0
                          (if p is [] then Some (ProfNode_init (Some addr)) else None)
                        = 0)
             by (destruct p; cbn; [apply Hinit|done]).
           rewrite Hz.
           destruct (bool_decide (p `prefix_of` rest)) eqn:E.
           ++ rewrite bool_decide_eq_true_2; [done|]. split; [done|].
              by apply bool_decide_eq_true in E.
           ++ rewrite bool_decide_eq_false_2; [done|]. intros [_ Hp].
              by apply bool_decide_eq_false in E.
      * rewrite bool_decide_eq_false_2 by congruence.
        rewrite bool_decide_eq_false_2; [lia|]. intros [? _]%prefix_cons_iff. done.
Qed.

Lemma find_path_add_trace_some sz cnt seq path n :
  is_Some (find_path path (add_trace sz cnt seq n))
  <-> is_Some (find_path path n) \/ path `prefix_of` seq.
Proof.
  revert path n. induction seq as [|addr rest IH]; intros path n.
  - destruct path as [|a p].
    + cbn [find_path]. split; [by left|by eexists].
    + cbn [add_trace find_path]. rewrite get_bump. split; [by left|].
      intros [?|Hp]; [done|]. by apply prefix_nil_inv in Hp.
  - destruct path as [|a p].
    + cbn [find_path]. split; [by left|by eexists].
    + cbn [add_trace find_path]. rewrite get_add. unfold has_key.
      rewrite add_trace_key, get_or_add_key, get_bump, prefix_cons_iff.
      destruct (decide (a = addr)) as [->|Hne].
      * rewrite bool_decide_eq_true_2 by done. cbn [mbind option_bind].
        rewrite IH. unfold get_or_add. rewrite get_bump.
        destruct (get (Some addr) n) as [c0|]; cbn [default mbind option_bind].
        -- tauto.
        -- rewrite find_path_init. destruct p as [|b p].
           ++ split; [|intros _; left; by eexists].
              intros _. right. split; [done|apply prefix_nil].
           ++ split; [intros [[? [=]]|?]; by right|].
              intros [[? [=]]|[_ ?]]. by right.
      * rewrite bool_decide_eq_false_2 by congruence. tauto.
Qed.

Lemma sites_under_cons inverted path site rest :
  sites_under inverted path (site :: rest)
  = if bool_decide (site_size site <> 0 /\ path `prefix_of` trace inverted site)
    then site :: sites_under inverted path rest
    else sites_under inverted path rest.
Proof.
  unfold sites_under. rewrite filter_cons. case_bool_decide; by case_decide.
Qed.

Lemma site_loop_spec inverted sites root root' path :
  site_loop inverted sites root = Done root' ->
  from_option size 0 (find_path path root')
  = from_option size 0 (find_path path root)
    + sum_with site_size (sites_under inverted path sites)
  /\ from_option count 0 (find_path path root')
     = from_option count 0 (find_path path root)
       + sum_with site_count (sites_under inverted path sites)
  /\ (is_Some (find_path path root')
      <-> is_Some (find_path path root) \/ sites_under inverted path sites <> []).
Proof.
  revert root. induction sites as [|site rest IH]; intros root.
  - cbn [site_loop]. intros [= <-]. cbn. split; [lia|]. split; [lia|]. tauto.
  - cbn [site_loop]. rewrite sites_under_cons. unfold add_site.
    destruct (site_size site =? 0) eqn:Ez.
    + apply Z.eqb_eq in Ez. intros Hrun.
      rewrite bool_decide_eq_false_2 by tauto. by apply IH.
    + apply Z.eqb_neq in Ez. destruct (frames site) as [|f0 fs] eqn:Ef; [done|].
      intros Hrun. destruct (IH _ Hrun) as (Hs & Hc & Hp).
      rewrite Hs, Hc, Hp. clear Hs Hc Hp IH Hrun.
      rewrite (find_path_add_trace_attr size (site_size site));
        [|apply add_trace_size|done].
      rewrite (find_path_add_trace_attr count (site_count site));
        [|apply add_trace_count|done].
      rewrite find_path_add_trace_some.
      destruct (bool_decide (path `prefix_of` trace inverted site)) eqn:E.
      * apply bool_decide_eq_true in E. rewrite bool_decide_eq_true_2 by done.
        change (sum_with ?f (site :: ?l)) with (f site + sum_with f l).
        split; [lia|]. split; [lia|]. split; [|intros _; left; by right].
        intros _. by right.
      * apply bool_decide_eq_false in E. rewrite bool_decide_eq_false_2 by tauto.
        split; [lia|]. split; [lia|]. tauto.
Qed.

(** X24: the profile tree aggregates the allocation sites by the
    prefixes of their traces.  The node found under a path holds the
    summed size and count of the sites of non-zero size whose trace
    (frames without the first, reversed with --inverted) starts with
    that path; below the root a node exists only where there is such a
    site. *)
Theorem X24_profile_aggregates_by_prefix (inverted : bool) (sites : list alloc_site)
    (root : ProfNode) (path : list Z) :
  build_profile inverted sites = Done root ->
  match find_path path root with
  | Some n =>
      size n = sum_with site_size (sites_under inverted path sites)
      /\ count n = sum_with site_count (sites_under inverted path sites)
      /\ (path = [] \/ sites_under inverted path sites <> [])
  | None => sites_under inverted path sites = []
  end.
Proof.
  intros Hrun. destruct (site_loop_spec _ _ _ _ path Hrun) as (Hs & Hc & Hp).
  rewrite find_path_init in Hs, Hc, Hp.
  destruct (find_path path root) as [n|].
  - cbn [from_option] in Hs, Hc. destruct path as [|a p].
    + cbn [from_option size count ProfNode_init] in Hs, Hc.
      split; [lia|]. split; [lia|]. by left.
    + cbn [from_option] in Hs, Hc. split; [lia|]. split; [lia|]. right.
      destruct Hp as [Hp _]. destruct Hp as [[? [=]]|Hp]; [by eexists|done].
  - destruct (sites_under inverted path sites) as [|s l]; [done|].
    destruct Hp as [_ Hp]. destruct Hp as [? [=]]. by right.
Qed.

(** X25: building the profile raises IndexError exactly when some site
    of non-zero size has an empty backtrace; otherwise it returns a
    tree.  An empty backtrace on a site of size zero goes unnoticed. *)
Theorem X25_profile_index_error (inverted : bool) (sites : list alloc_site) :
  build_profile inverted sites = IndexError
  <-> Exists (fun s => site_size s <> 0 /\ frames s = []) sites.
Proof.
  unfold build_profile. generalize (ProfNode_init None).
  induction sites as [|site rest IH]; intros root.
  - cbn [site_loop]. split; [done|]. by intros ?%Exists_nil.
  - cbn [site_loop]. rewrite Exists_cons. unfold add_site.
    destruct (site_size site =? 0) eqn:Ez.
    + apply Z.eqb_eq in Ez. rewrite IH. split; [by right|]. intros [[? _]|?]; done.
    + apply Z.eqb_neq in Ez. destruct (frames site) as [|f0 fs] eqn:Ef.
      * split; [|done]. intros _. by left.
      * rewrite IH. split; [by right|]. intros [[_ [=]]|?]. done.
Qed.
End heap_profile_build.

Section heap_profile_shape.
Import HeapProf HeapProfBuild.

Lemma ProfNode_forall_ind (P : ProfNode -> Prop) :
  (forall k s c t ch, Forall P ch -> P (Node k s c t ch)) ->
  forall n, P n.
Proof.
  intros H. fix IH 1. intros [k s c t ch]. apply H.
  induction ch as [|x ch IHch]; constructor; [apply IH|exact IHch].
Qed.

Lemma nodes_inv n m :
  In m (nodes n) -> m = n \/ exists c, In c (children n) /\ In m (nodes c).
Proof.
  destruct n as [k s cnt t ch]. cbn [nodes children]. intros [<-|Hin]; [by left|].
  right. apply in_concat in Hin as (l & Hl & Hin).
  apply in_map_iff in Hl as (c & <- & Hc). by exists c.
Qed.

Lemma dict_set_in c ch x :
  In x (dict_set c ch) -> x = c \/ In x ch.
Proof.
  induction ch as [|y rest IH]; cbn [dict_set].
  - intros [<-|[]]. by left.
  - destruct (has_key (key c) y).
    + intros [<-|Hin]; [by left|right; by right].
    + intros [<-|Hin]; [right; by left|].
      destruct (IH Hin) as [->|?]; [by left|right; by right].
Qed.

Lemma dict_set_keys c ch :
  map key (dict_set c ch)
  = if bool_decide (key c ∈ map key ch) then map key ch else map key ch ++ [key c].
Proof.
  induction ch as [|y rest IH]; cbn [dict_set map].
  - rewrite bool_decide_eq_false_2; [done|]. by intros ?%elem_of_nil.
  - unfold has_key. destruct (bool_decide (key y = key c)) eqn:E.
    + apply bool_decide_eq_true in E. cbn [map].
      rewrite bool_decide_eq_true_2; [by rewrite E|]. rewrite E. by left.
    + apply bool_decide_eq_false in E. cbn [map]. rewrite IH.
      destruct (bool_decide (key c ∈ map key rest)) eqn:E2.
      * apply bool_decide_eq_true in E2. rewrite bool_decide_eq_true_2; [done|by right].
      * apply bool_decide_eq_false in E2. rewrite bool_decide_eq_false_2; [done|].
        intros [?|?]%elem_of_cons; [congruence|done].
Qed.

(** The shape of a node of a freshly built profile. *)
Lemma fresh_node_add_trace sz cnt seq n m :
  (forall m0, In m0 (nodes n) ->
     tail m0 = [] /\ NoDup (map key (children m0))
     /\ Forall (fun c => is_Some (key c)) (children m0)) ->
  In m (nodes (add_trace sz cnt seq n)) ->
  tail m = [] /\ NoDup (map key (children m))
  /\ Forall (fun c => is_Some (key c)) (children m).
Proof.
  revert n m. induction seq as [|addr rest IH]; intros n m Hn.
  - cbn [add_trace]. intros [->|(c & Hc & Hm)]%nodes_inv.
    + apply (Hn n), nodes_self.
    + apply Hn. by apply (nodes_child n c).
  - cbn [add_trace]. destruct (Hn n (nodes_self n)) as (Ht & Hnd & Hsome).
    intros [->|(c & Hc & Hm)]%nodes_inv.
    + cbn [add tail children bump]. split; [done|].
      split.
      * rewrite dict_set_keys. case_bool_decide as Hk; [done|].
        apply NoDup_app. split; [done|].
        split; [|apply NoDup_singleton].
        intros k Hin ->%list_elem_of_singleton. done.
      * apply Forall_forall. intros x Hx%list_elem_of_In.
        apply dict_set_in in Hx as [->|Hx].
        -- rewrite add_trace_key, get_or_add_key. by eexists.
        -- rewrite Forall_forall in Hsome. apply Hsome. by apply list_elem_of_In.
    + cbn [add children bump] in Hc. apply dict_set_in in Hc as [->|Hc].
      * apply (IH (get_or_add (bump sz cnt n) addr)); [|exact Hm].
        intros m0 Hm0. unfold get_or_add in Hm0. rewrite get_bump in Hm0.
        destruct (get (Some addr) n) as [c0|] eqn:Eg; cbn [default] in Hm0.
        -- apply Hn. apply (nodes_child n c0); [|done].
           unfold get in Eg. by apply find_some in Eg as [? _].
        -- destruct Hm0 as [<-|[]]. cbn. split; [done|]. split; constructor.
      * apply Hn. by apply (nodes_child n c).
Qed.

(** X26: every node of a built profile has an empty tail, children with
    pairwise distinct keys, and no child with the key [None]: the tree is
    the tree of dicts it stands for, and nothing is collapsed yet. *)
Theorem X26_profile_nodes_fresh (inverted : bool) (sites : list alloc_site)
    (root m : ProfNode) :
  build_profile inverted sites = Done root ->
  In m (nodes root) ->
  tail m = [] /\ NoDup (map key (children m))
  /\ Forall (fun c => is_Some (key c)) (children m).
Proof.
  unfold build_profile.
  assert (Hinit : forall m0, In m0 (nodes (ProfNode_init None)) ->
            tail m0 = [] /\ NoDup (map key (children m0))
            /\ Forall (fun c => is_Some (key c)) (children m0)).
  { intros m0 [<-|[]]. cbn. split; [done|]. split; constructor. }
  revert Hinit. generalize (ProfNode_init None). revert m.
  induction sites as [|site rest IH]; intros m r Hr.
  - cbn [site_loop]. intros [= <-]. apply Hr.
  - cbn [site_loop]. unfold add_site. destruct (site_size site =? 0).
    + by apply IH.
    + destruct (frames site) as [|f0 fs]; [done|]. apply IH.
      intros m0. by apply fresh_node_add_trace.
Qed.
End heap_profile_shape.
Section heap_profile_passes.
Import HeapProf HeapProfBuild.

Lemma last_path_cons (c : ProfNode) (path : list ProfNode) (n : ProfNode) :
  List.last (c :: path) n = List.last path c.
Proof.
  destruct path as [|p path']; [done|].
  change (List.last (c :: p :: path') n) with (List.last (p :: path') n).
  apply last_cons_any.
Qed.

(** A tree in which no node has an only child with its attributes is
    left as it is. *)
Lemma collapse_similar_fixed (bound : nat) (n : ProfNode) :
  (node_count n <= bound)%nat ->
  (forall m c, In m (nodes n) -> children m = [c] -> attributes m <> attributes c) ->
  collapse_similar n = n.
Proof.
  revert n. induction bound as [|bound IH]; intros n Hb Hn.
  { destruct n; simpl in Hb; lia. }
  destruct (squash_loop_path n) as (path & Hp & Hall & Hsq & _).
  destruct path as [|c path].
  - rewrite collapse_similar_eq, Hsq. cbn [key size count tail children map List.last].
    rewrite app_nil_r. destruct n as [k s cnt t ch]. cbn [key size count tail children].
    f_equal. rewrite <- (map_id ch) at 2. apply map_ext_in. intros c Hc.
    apply IH.
    + pose proof (node_count_child (Node k s cnt t ch) c Hc). lia.
    + intros m c' Hm. apply Hn. by apply (nodes_child _ c).
  - destruct Hp as [Hc _]. apply Forall_cons in Hall as [Ha _].
    exfalso. by apply (Hn n c (nodes_self n) Hc).
Qed.

(** X27: collapsing is idempotent: a second pass of [collapse_similar]
    over a collapsed tree changes nothing. *)
Theorem X27_collapse_similar_idempotent (root : ProfNode) :
  collapse_similar (collapse_similar root) = collapse_similar root.
Proof.
  apply (collapse_similar_fixed (node_count (collapse_similar root))); [lia|].
  intros m c Hm. by apply (collapse_similar_nodes (node_count root) root m).
Qed.

Lemma shown_keys_path (n : ProfNode) (path : list ProfNode) :
  is_path n path -> Forall (fun c => tail c = []) path ->
  concat (map shown_keys (children n))
  = map key path ++ concat (map shown_keys (children (List.last path n))).
Proof.
  revert n. induction path as [|c path IH]; intros n Hp Ht; [done|].
  destruct Hp as [Hc Hp]. apply Forall_cons in Ht as [Htc Ht].
  rewrite Hc, last_path_cons. cbn [map concat]. rewrite app_nil_r, <- app_comm_cons.
  rewrite <- (IH c Hp Ht).
  destruct c as [k s cnt t ch]. cbn [tail] in Htc. subst t. done.
Qed.

Lemma is_path_nodes (n : ProfNode) (path : list ProfNode) :
  is_path n path -> Forall (fun c => In c (nodes n)) path.
Proof.
  revert n. induction path as [|c path IH]; intros n Hp; [constructor|].
  destruct Hp as [Hc Hp]. constructor.
  - apply (nodes_child n c); [rewrite Hc; by left|apply nodes_self].
  - eapply Forall_impl; [exact (IH c Hp)|]. intros x Hx.
    apply (nodes_child n c); [rewrite Hc; by left|done].
Qed.

Lemma collapse_similar_shown_keys (bound : nat) (n : ProfNode) :
  (node_count n <= bound)%nat ->
  (forall m, In m (nodes n) -> tail m = []) ->
  shown_keys (collapse_similar n) = shown_keys n.
Proof.
  revert n. induction bound as [|bound IH]; intros n Hb Hn.
  { destruct n; simpl in Hb; lia. }
  destruct (squash_loop_path n) as (path & Hp & _ & Hsq & _).
  pose proof (squash_loop_count n) as Hcount.
  rewrite collapse_similar_eq, Hsq. rewrite Hsq in Hcount.
  cbn [key size count tail children shown_keys].
  assert (Hpath : Forall (fun c => tail c = []) path).
  { eapply Forall_impl; [exact (is_path_nodes n path Hp)|]. apply Hn. }
  rewrite map_map.
  rewrite (map_ext_in (fun c => shown_keys (collapse_similar c)) shown_keys).
  - rewrite <- app_assoc, <- (shown_keys_path n path Hp Hpath).
    by destruct n.
  - intros c0 Hc0. apply IH.
    + pose proof (node_count_child (Node (key n) (size n) (count n)
                     (tail n ++ map key path) (children (List.last path n)))
                    c0 Hc0). lia.
    + intros m Hm. apply Hn. apply (nodes_path n path); [done|].
      by apply (nodes_child _ c0).
Qed.

(** X28: collapsing loses no key of a tree whose tails are empty (as
    they are in a profile just built): the keys shown, a node's key,
    then its tail, then its subtrees, are the same list before and
    after [collapse_similar]. *)
Theorem X28_collapse_similar_keeps_keys (root : ProfNode) :
  (forall m, In m (nodes root) -> tail m = []) ->
  shown_keys (collapse_similar root) = shown_keys root.
Proof. apply (collapse_similar_shown_keys (node_count root)). lia. Qed.

Lemma height_cons k s c t x ch :
  height (Node k s c t (x :: ch))
  = Nat.max (S (height x)) (height (Node k s c t ch)).
Proof. done. Qed.

(** X29: [strip_level(node, level)] cuts the tree at depth [level] and
    no sooner: the height of the result is the smaller of the height of
    [node] and [level], with a [level] below zero counting as zero. *)
Theorem X29_strip_level_height (node : ProfNode) (level : Z) :
  height (strip_level node level) = Nat.min (height node) (Z.to_nat level).
Proof.
  revert level. induction node as [k s c t ch IH] using ProfNode_forall_ind.
  intros level. cbn [strip_level]. destruct (level <=? 0) eqn:E.
  - apply Z.leb_le in E. replace (Z.to_nat level) with 0%nat by lia.
    by rewrite Nat.min_0_r.
  - apply Z.leb_gt in E.
    replace (Z.to_nat level) with (S (Z.to_nat (level - 1))) by lia.
    induction IH as [|x ch Hx _ IHch]; [done|].
    cbn [map]. rewrite !height_cons, IHch, Hx. lia.
Qed.

Lemma print_node_children (ch : list ProfNode) :
  Forall (fun c => forall tr, print_node c tr = (leaf_lines c tr, tr)) ch ->
  forall tr,
    (fix for_children (cs : list ProfNode) (tr : list (option Z)) :=
       match cs with
       | [] => ([], tr)
       | child :: cs' =>
           let '(l1, tr1) := print_node child tr in
           let '(l2, tr2) := for_children cs' tr1 in
           (l1 ++ l2, tr2)
       end) ch tr
    = (concat (map (fun c => leaf_lines c tr) ch), tr).
Proof.
  induction 1 as [|x ch Hx _ IH]; intros tr; [done|].
  rewrite Hx, IH. done.
Qed.

(** X30: the flame printer keeps its stack.  [print_node] leaves the
    shared trace as it found it, and writes one line per leaf of the
    tree, in order, made of the keys on the way to the leaf that count
    as true, each followed by its tail; inner nodes write nothing. *)
Theorem X30_flame_print_node (n : ProfNode) (trace : list (option Z)) :
  print_node n trace = (leaf_lines n trace, trace).
Proof.
  revert trace. induction n as [k s c t ch IH] using ProfNode_forall_ind.
  intros trace. cbn [print_node leaf_lines].
  rewrite (print_node_children ch IH).
  assert (Hcut : forall tr : list (option Z),
            take (length ((tr ++ [k]) ++ t) - (1 + length t)) ((tr ++ [k]) ++ t) = tr).
  { intros tr. rewrite <- app_assoc, !length_app. cbn [length].
    replace (length tr + (1 + length t) - (1 + length t))%nat with (length tr) by lia.
    by rewrite take_app_length. }
  destruct (truthy k); [rewrite Hcut|]; by destruct ch.
Qed.
End heap_profile_passes.

Section heap_profile_extras_examples.
Import HeapProf HeapProfBuild Examples MoreExamples.

(** Both sites of non-zero size run through the frames 1 and 2. *)
Lemma X24_profile_aggregates_by_prefix_witness :
  match find_path [1; 2] example_profile with
  | Some n =>
      size n = sum_with site_size (sites_under false [1; 2] profile_sites)
      /\ count n = sum_with site_count (sites_under false [1; 2] profile_sites)
      /\ ([1; 2] = [] \/ sites_under false [1; 2] profile_sites <> [])
  | None => sites_under false [1; 2] profile_sites = []
  end.
Proof.
  apply (X24_profile_aggregates_by_prefix false profile_sites example_profile [1; 2]).
  reflexivity.
Defined.

Lemma X26_profile_nodes_fresh_witness :
  tail example_profile = [] /\ NoDup (map key (children example_profile))
  /\ Forall (fun c => is_Some (key c)) (children example_profile).
Proof.
  apply (X26_profile_nodes_fresh false profile_sites example_profile example_profile).
  - reflexivity.
  - left. reflexivity.
Defined.

Lemma X28_collapse_similar_keeps_keys_witness :
  shown_keys (collapse_similar example_profile) = shown_keys example_profile.
Proof.
  apply (X28_collapse_similar_keeps_keys example_profile).
  intros m Hm. vm_compute in Hm.
  repeat (destruct Hm as [<-|Hm]; [reflexivity|]). destruct Hm.
Defined.
End heap_profile_extras_examples.
